(** * FML: power spectra, multipoles and polyspectra on a slab-decomposed grid

    A shallow embedding of [FML/ComputePowerSpectra/ComputePowerSpectrum.h],
    of the Fourier-space smoothing filter ([SmoothingFourier]) and of the
    section and header routines of [GadgetUtils.cpp].

    Conventions of the embedding.
    - A C++ [double] is a real number of [R]; [std::complex<double>] is a
      pair of reals.  Round-off, infinities and NaN are outside the model: a
      division whose divisor is zero is singled out by a statement about the
      divisor.  The one exception is the pair of loops that move the
      particles for the interlaced grid: what they leave in the positions
      depends on the rounding, so they take the arithmetic as an argument
      (module [Doubles]).
    - [int] and [size_t] values that the code asserts or uses as sizes and
      indices are natural numbers; [/] and [%] on them are [Nat.div] and
      [Nat.modulo].
    - [std::vector] is a list, read with [!!] or [nth] and written with
      [<[i:=v]>], [alter] or, for a loop over all entries, [imap].
    - The template parameter [N] (the dimension) and [ORDER] are ordinary
      arguments.
    - In the Gadget routines an [int], an [unsigned int] and a [size_t]
      are integers of [Z] with the wrap-around of their conversions
      written out, and a [char] is a byte.
    - The model is the program of one task.  A collective
      [MPI_Allreduce(..., MPI_SUM, ...)] returns the local value plus what
      the other tasks contribute; that contribution is an argument of the
      model, and it is zero in a build without MPI.
    - Functions of the repository that the estimators call and that are not
      among the sources (the scatter, the transforms, the deconvolution,
      [normalize()], the grid constructor) are section variables. *)

From Stdlib Require Import Reals Lra Lia List Arith String Bool ZArith.
From Stdlib Require Floats Uint63.
From stdpp Require Import base list sorting.
From coqutil Require Import Word.LittleEndianList.

Open Scope R_scope.

(* ================================================================== *)
(** * Part I: the program                                               *)
(* ================================================================== *)

(** ** std::complex<double> *)
Module Cplx.

Record C : Type := mkC { Re : R; Im : R }.

Definition C0 : C := mkC 0 0.
Definition C1 : C := mkC 1 0.
(** [const std::complex<double> I(0,1)] *)
Definition Ci : C := mkC 0 1.

Definition of_real (x : R) : C := mkC x 0.
Definition add (a b : C) : C := mkC (Re a + Re b) (Im a + Im b).
Definition sub (a b : C) : C := mkC (Re a - Re b) (Im a - Im b).
Definition mul (a b : C) : C :=
  mkC (Re a * Re b - Im a * Im b) (Re a * Im b + Im a * Re b).
(** complex times double, and complex divided by double *)
Definition scale (a : C) (x : R) : C := mkC (Re a * x) (Im a * x).
Definition divr (a : C) (x : R) : C := mkC (Re a / x) (Im a / x).
(** [std::norm]: the squared modulus *)
Definition norm (a : C) : R := Re a * Re a + Im a * Im a.
(** [std::exp] on a complex argument *)
Definition cexp (a : C) : C :=
  mkC (exp (Re a) * cos (Im a)) (exp (Re a) * sin (Im a)).

End Cplx.
Import Cplx.

(** ** Failures

    [throw std::runtime_error(msg)], a failed [assert_mpi(cond, msg)] and a
    failed [assert(expr)] all end the call; the message, or the text of the
    expression, is kept. *)
Inductive failure : Type :=
| runtime_error (msg : string)
| assert_mpi_failed (msg : string)
| assertion_failed (expr : string).

Definition result (A : Type) : Type := (failure + A)%type.

Definition ret {A} (a : A) : result A := inr a.
Definition bind {A B} (m : result A) (k : A -> result B) : result B :=
  match m with
  | inl e => inl e
  | inr a => k a
  end.
(** Modelled from the spec: the macro [assert_mpi] of [FML/Global/Global.h]
    is not among the sources; a violated assertion is fatal to the call. *)
Definition assert_mpi (cond : bool) (msg : string) : result unit :=
  if cond then inr tt else inl (assert_mpi_failed msg).

(** [assert(expr)] of [<cassert>]. *)
Definition assert_that (cond : bool) (expr : string) : result unit :=
  if cond then inr tt else inl (assertion_failed expr).

Notation "'let!' x ':=' m 'in' k" := (bind m (fun x => k))
  (at level 10, x name, m at level 100, k at level 200).
Notation "'check!' m 'in' k" := (bind m (fun _ => k))
  (at level 10, m at level 100, k at level 200).

(** Comparisons of doubles as booleans. *)
Definition Rltb (x y : R) : bool := if Rlt_dec x y then true else false.
Definition Rleb (x y : R) : bool := if Rle_dec x y then true else false.
Definition Reqb (x y : R) : bool := if Req_dec_T x y then true else false.

(** Sums of doubles accumulated by a loop that starts from [0.0]. *)
Definition sumR {A} (f : A -> R) (l : list A) : R :=
  fold_left (fun acc a => acc + f a) l 0.

(** ** FFTWGrid<N>, the Fourier view *)
Module Grid.

(** Modelled from the spec: [FML/FFTWGrid/FFTWGrid.h] is not among the
    sources.  The Fourier view of a task is a complex array of shape
    [local_nx x Nmesh^(N-2) x (Nmesh/2+1)], row-major, whose first axis
    starts at plane [local_x_start]. *)
Record FFTWGrid : Type := mkGrid {
  Nmesh : nat;
  Local_nx : nat;
  Local_x_start : nat;
  cdelta : list C
}.

(** [get_fourier_range()]: the owned Fourier cells. *)
Definition get_fourier_range (g : FFTWGrid) : list nat :=
  seq 0 (length (cdelta g)).

Definition get_fourier_from_index (g : FFTWGrid) (ind : nat) : C :=
  default C0 (cdelta g !! ind).

Definition set_fourier_from_index (g : FFTWGrid) (ind : nat) (v : C)
  : FFTWGrid :=
  mkGrid (Nmesh g) (Local_nx g) (Local_x_start g) (<[ind := v]> (cdelta g)).

(** The number of local Fourier cells as the estimators compute it:
    [size_t(Local_nx) * power(size_t(Nmesh), N-2) * size_t(Nmesh/2+1)];
    the dimension [N] of a slab-decomposed grid is at least 2. *)
Definition ntot_fourier (N : nat) (g : FFTWGrid) : nat :=
  (Local_nx g * Nmesh g ^ (N - 2) * (Nmesh g / 2 + 1))%nat.

(** Base-[Nmesh] digits of [q], least significant first, [m] of them,
    together with what is left above them. *)
Fixpoint middle_coords (nmesh m q : nat) : list nat * nat :=
  match m with
  | O => ([], q)
  | S m' =>
      let '(cs, top) := middle_coords nmesh m' (q / nmesh)%nat in
      ((q mod nmesh)%nat :: cs, top)
  end.

(** Coordinates of a local Fourier index, first axis first; the first
    coordinate is global (offset by [local_x_start]) and the last one is
    the coordinate along the packed axis. *)
Definition fourier_coord (N : nat) (g : FFTWGrid) (ind : nat) : list nat :=
  let last := (ind mod (Nmesh g / 2 + 1))%nat in
  let '(mid, top) :=
    middle_coords (Nmesh g) (N - 2) (ind / (Nmesh g / 2 + 1))%nat in
  (Local_x_start g + top)%nat :: rev mid ++ [last].

(** Coordinate along the packed (last) axis. *)
Definition packed_coord (N : nat) (g : FFTWGrid) (ind : nat) : nat :=
  List.last (fourier_coord N g ind) 0%nat.

(** Wavevector convention: [k_j = 2 pi j'] with [j' = j] if
    [j <= Nmesh/2] and [j - Nmesh] otherwise; along the packed axis
    [k_j = 2 pi j]. *)
Definition signed_mode (nmesh j : nat) : R :=
  if (j <=? nmesh / 2)%nat then INR j else INR j - INR nmesh.

Fixpoint wavevector_of_coord (nmesh : nat) (coord : list nat) : list R :=
  match coord with
  | [] => []
  | [j] => [2 * PI * INR j]
  | j :: rest => 2 * PI * signed_mode nmesh j :: wavevector_of_coord nmesh rest
  end.

Definition get_fourier_wavevector_from_index (N : nat) (g : FFTWGrid)
    (ind : nat) : list R :=
  wavevector_of_coord (Nmesh g) (fourier_coord N g ind).

Definition norm2 (kvec : list R) : R := sumR (fun k => k * k) kvec.

(** [get_fourier_wavevector_and_norm_by_index]: the pair [(kvec, kmag)]. *)
Definition get_fourier_wavevector_and_norm_by_index (N : nat)
    (g : FFTWGrid) (ind : nat) : list R * R :=
  let kvec := get_fourier_wavevector_from_index N g ind in
  (kvec, sqrt (norm2 kvec)).

End Grid.
Import Grid.

(** ** The arithmetic of a [double]

    The operations on doubles that the position updates use.  [rounded rnd]
    is the arithmetic on real numbers in which the result of every
    operation goes through the rounding [rnd]; the literals [0.0] and [1.0]
    are exact.  [exact] is that arithmetic without rounding, the reading of
    a double that the rest of the development uses.  [binary64] is the
    arithmetic of an IEEE 754 double, rounding to nearest. *)
Module Doubles.

Record arithmetic (D : Type) : Type := mkArith {
  zero : D;
  one : D;
  (** [double(n)] for an [int] *)
  of_int : nat -> D;
  fadd : D -> D -> D;
  fsub : D -> D -> D;
  fdiv : D -> D -> D;
  (** [x <= y] and [x < y] *)
  fle : D -> D -> bool;
  flt : D -> D -> bool
}.
Arguments zero {D}.
Arguments one {D}.
Arguments of_int {D}.
Arguments fadd {D}.
Arguments fsub {D}.
Arguments fdiv {D}.
Arguments fle {D}.
Arguments flt {D}.

Definition rounded (rnd : R -> R) : arithmetic R :=
  mkArith R 0 1
    (fun n => rnd (INR n))
    (fun x y => rnd (x + y))
    (fun x y => rnd (x - y))
    (fun x y => rnd (x / y))
    Rleb Rltb.

Definition exact : arithmetic R := rounded (fun x => x).

Import PrimFloat.

Definition binary64 : arithmetic float :=
  mkArith float 0%float 1%float
    (fun n => of_uint63 (Uint63.of_Z (Z.of_nat n)))
    add sub div leb ltb.

(** The doubles nearest to 0.3 and to 0.95, and the two doubles just above
    them. *)
Definition d_0_3 : float := (0x1.3333333333333p-2)%float.
Definition d_0_95 : float := (0x1.e666666666666p-1)%float.
Definition d_0_3_up : float := (0x1.3333333333334p-2)%float.
Definition d_0_95_up : float := (0x1.e666666666667p-1)%float.

End Doubles.

(** ** Loops that update an array in place *)

(** A loop whose turn [i] may write cell [i] only, with a value that
    depends on the index and on the cell itself. *)
Definition own_cell_step {A} (h : nat -> A -> option A) (l : list A) (i : nat)
  : list A :=
  match l !! i with
  | Some x => match h i x with Some v => <[i := v]> l | None => l end
  | None => l
  end.

(** The header of a grid is what the wavevector of a cell is read from. *)
Definition same_header (g g' : FFTWGrid) : Prop :=
  Nmesh g' = Nmesh g /\ Local_nx g' = Local_nx g
  /\ Local_x_start g' = Local_x_start g.

(** ** Smoothing filters in Fourier space *)
Module Smoothing.

Definition filter_sharpk (smoothing_scale k : R) : R :=
  let kR := k * smoothing_scale in
  if Rltb kR 1 then 1 else 0.

Definition filter_gaussian (smoothing_scale k : R) : R :=
  let kR := k * smoothing_scale in
  exp (- (1 / 2) * kR * kR).

Definition filter_tophat_2D (smoothing_scale k : R) : R :=
  let kR := k * smoothing_scale in
  if Rltb kR (1 / 100000) then 1
  else 2 / (kR * kR) * (1 - cos kR).

Definition filter_tophat_3D (smoothing_scale k : R) : R :=
  let kR := k * smoothing_scale in
  if Rltb kR (1 / 100000) then 1
  else 3 * (sin kR - kR * cos kR) / (kR * kR * kR).

Definition msg_tophat : string :=
  "[smoothing_filter_fourier_space] Tophat filter only implemented in 2D and 3D".

Definition msg_unknown (smoothing_method : string) : string :=
  ("Unknown filter " ++ smoothing_method
     ++ " Options: sharpk, gaussian, tophat")%string.

(** The two failures by the names the specification gives them. *)
Definition EUnsupportedDim : failure := assert_mpi_failed msg_tophat.
Definition EUnknownKernel (smoothing_method : string) : failure :=
  runtime_error (msg_unknown smoothing_method).

(** Select the filter. *)
Definition select_filter (N : nat) (smoothing_scale : R)
    (smoothing_method : string) : result (R -> R) :=
  if String.eqb smoothing_method "sharpk" then
    ret (filter_sharpk smoothing_scale)
  else if String.eqb smoothing_method "gaussian" then
    ret (filter_gaussian smoothing_scale)
  else if String.eqb smoothing_method "tophat" then
    check! assert_mpi ((N =? 2)%nat || (N =? 3)%nat) msg_tophat in
    ret (if (N =? 2)%nat then filter_tophat_2D smoothing_scale
         else filter_tophat_3D smoothing_scale)
  else inl (runtime_error (msg_unknown smoothing_method)).

(** One turn of the smoothing loop. *)
Definition smooth_cell (N : nat) (filter : R -> R) (g : FFTWGrid)
    (index : nat) : FFTWGrid :=
  let '(_, kmag) := get_fourier_wavevector_and_norm_by_index N g index in
  let value := get_fourier_from_index g index in
  set_fourier_from_index g index (scale value (filter kmag)).

(** The call either fails or returns normally; in both cases the second
    component is the grid as the call leaves it. *)
Definition smoothing_filter_fourier_space (N : nat) (fourier_grid : FFTWGrid)
    (smoothing_scale : R) (smoothing_method : string)
  : result unit * FFTWGrid :=
  match select_filter N smoothing_scale smoothing_method with
  | inl e => (inl e, fourier_grid)
  | inr filter =>
      (inr tt,
       fold_left (smooth_cell N filter) (get_fourier_range fourier_grid)
         fourier_grid)
  end.

End Smoothing.

(** ** PowerSpectrumBinning<N> *)
Module Binning.

(** Modelled from the spec: [FML/ComputePowerSpectra/PowerSpectrumBinning.h]
    is not among the sources.  A binning has [n] bins over [kmin, kmax] and
    the parallel arrays [kbin], [pofk] and [count]; [bin_of k] is the bin
    that contains [k], if there is one (linear or logarithmic spacing). *)
Record PowerSpectrumBinning : Type := mkBinning {
  n : nat;
  kmin : R;
  kmax : R;
  bin_of : R -> option nat;
  kbin : list R;
  pofk : list R;
  count : list R
}.

Definition zeroed (l : list R) : list R := map (fun _ => 0) l.

(** Modelled from the spec: [reset()] zeroes all three arrays. *)
Definition reset (b : PowerSpectrumBinning) : PowerSpectrumBinning :=
  mkBinning (n b) (kmin b) (kmax b) (bin_of b)
    (zeroed (kbin b)) (zeroed (pofk b)) (zeroed (count b)).

(** Modelled from the spec: [add(k, value, weight)] locates the bin for
    [k]; if it is in range, it accumulates the weighted value, the weighted
    [k] and the weight. *)
Definition add_to_bin (b : PowerSpectrumBinning) (k value weight : R)
  : PowerSpectrumBinning :=
  match bin_of b k with
  | Some i =>
      if (i <? n b)%nat then
        mkBinning (n b) (kmin b) (kmax b) (bin_of b)
          (alter (fun x => x + weight * k) i (kbin b))
          (alter (fun x => x + weight * value) i (pofk b))
          (alter (fun x => x + weight) i (count b))
      else b
  | None => b
  end.

(** Modelled from the spec: [operator+=] is what the particle estimator
    uses to form "the mean of the d results": the three arrays are added
    bin by bin. *)
Definition add_binning (a b : PowerSpectrumBinning) : PowerSpectrumBinning :=
  mkBinning (n a) (kmin a) (kmax a) (bin_of a)
    (imap (fun i x => x + nth i (kbin b) 0) (kbin a))
    (imap (fun i x => x + nth i (pofk b) 0) (pofk a))
    (imap (fun i x => x + nth i (count b) 0) (count a)).

Definition set_pofk (b : PowerSpectrumBinning) (p : list R)
  : PowerSpectrumBinning :=
  mkBinning (n b) (kmin b) (kmax b) (bin_of b) (kbin b) p (count b).

(** [for(int i = 0; i < pofk.n; i++) pofk.pofk[i] -= s;] *)
Definition subtract_shot_noise (s : R) (b : PowerSpectrumBinning)
  : PowerSpectrumBinning :=
  set_pofk b (imap (fun i x => if (i <? n b)%nat then x - s else x) (pofk b)).

End Binning.
Import Binning.

(** ** Particles: [get_pos()] and [get_vel()] *)
Module Particles.

Record Particle : Type := mkParticle {
  get_pos : list R;
  get_vel : list R
}.

Definition set_pos (p : Particle) (x : list R) : Particle :=
  mkParticle x (get_vel p).

End Particles.
Import Particles.

(** ** Power-spectrum estimators *)
Module PowerSpectrum.
Import Doubles.

(** The two loops of [compute_power_spectrum_interlacing] over the
    particles, on the position of one particle and in the arithmetic [ar].

    The shift for the interlaced grid: [pos[0] += shift] and, for
    [1 <= idim < N], [pos[idim] += shift] followed by
    [if(pos[idim] >= 1.0) pos[idim] -= 1.0]. *)
Definition shift_positions {D} (ar : arithmetic D) (N : nat) (shift : D)
    (pos : list D) : list D :=
  imap (fun idim x =>
          if (idim <? N)%nat then
            if (idim =? 0)%nat then fadd ar x shift
            else
              let x' := fadd ar x shift in
              if fle ar (one ar) x' then fsub ar x' (one ar) else x'
          else x)
    pos.

(** The shift back: [pos[0] -= shift] and, for [1 <= idim < N],
    [pos[idim] -= shift] followed by [if(pos[idim] < 0.0) pos[idim] += 1.0]. *)
Definition unshift_positions {D} (ar : arithmetic D) (N : nat) (shift : D)
    (pos : list D) : list D :=
  imap (fun idim x =>
          if (idim <? N)%nat then
            if (idim =? 0)%nat then fsub ar x shift
            else
              let x' := fsub ar x shift in
              if flt ar x' (zero ar) then fadd ar x' (one ar) else x'
          else x)
    pos.

(** [const double shift = 1.0/double(2*Ngrid);] *)
Definition interlacing_shift {D} (ar : arithmetic D) (Ngrid : nat) : D :=
  fdiv ar (one ar) (of_int ar (2 * Ngrid)).

Section Estimators.

(** Functions of this repository that the estimators call and that are not
    among the sources; each is what this task's call returns. *)

(** [pofk.normalize()]: the all-reduce over the tasks and the division by
    the counts. *)
Variable normalize : PowerSpectrumBinning -> PowerSpectrumBinning.
(** The constructor [FFTWGrid<N>(Ngrid, nleft, nright)]. *)
Variable FFTWGrid_new : nat -> nat -> nat -> FFTWGrid.
(** [particles_to_grid(part, NumPart, NumPartTotal, grid, method)]; it
    reads the particles and fills the grid. *)
Variable particles_to_grid :
  list Particle -> nat -> FFTWGrid -> string -> FFTWGrid.
Variable fftw_r2c : FFTWGrid -> FFTWGrid.
Variable deconvolve_window_function_fourier : FFTWGrid -> string -> FFTWGrid.
Variable get_extra_slices_needed_for_density_assignment : string -> nat * nat.
(** The rank of this task. *)
Variable ThisTask : nat.

(** The template parameter. *)
Variable N : nat.

(** [int last_coord = ind % (Nmesh / 2 + 1);]
    [double weight = last_coord > 0 && last_coord < Nmesh / 2 ? 2.0 : 1.0;] *)
Definition mode_weight (nmesh ind : nat) : R :=
  let last_coord := (ind mod (nmesh / 2 + 1))%nat in
  if (0 <? last_coord)%nat && (last_coord <? nmesh / 2)%nat then 2 else 1.

(** One turn of the binning loop. *)
Definition bin_up_cell (fourier_grid : FFTWGrid)
    (pofk : PowerSpectrumBinning) (ind : nat) : PowerSpectrumBinning :=
  let weight := mode_weight (Nmesh fourier_grid) ind in
  let delta_norm := norm (get_fourier_from_index fourier_grid ind) in
  let '(_, kmag) :=
    get_fourier_wavevector_and_norm_by_index N fourier_grid ind in
  add_to_bin pofk kmag delta_norm weight.

(** The binning loop over the local Fourier cells, from the reset binning. *)
Definition bin_up_loop (fourier_grid : FFTWGrid)
    (pofk : PowerSpectrumBinning) : PowerSpectrumBinning :=
  let NmeshTotLocal := ntot_fourier N fourier_grid in
  fold_left (bin_up_cell fourier_grid) (seq 0 NmeshTotLocal) (reset pofk).

Definition bin_up_power_spectrum (fourier_grid : FFTWGrid)
    (pofk : PowerSpectrumBinning) : result PowerSpectrumBinning :=
  check! assert_mpi (0 <? Nmesh fourier_grid)%nat
    "[bin_up_power_spectrum] grid must have Nmesh > 0" in
  check! assert_mpi
    ((0 <? n pofk)%nat && Rltb (kmin pofk) (kmax pofk) && Rleb 0 (kmin pofk))
    "[bin_up_power_spectrum] Binning has inconsistent parameters" in
  ret (normalize (bin_up_loop fourier_grid pofk)).

(** [kx += kvec[idim] * x[idim]] for [idim < N], from [0.0]. *)
Definition dot (a b : list R) : R :=
  sumR (fun idim => nth idim a 0 * nth idim b 0) (seq 0 N).

(** One turn of the loop over the Fourier cells in the direct summation;
    [part] with [NumPart] is the list [part]. *)
Definition direct_summation_cell (part : list Particle) (norm : R)
    (density_k : FFTWGrid) (complex_index : nat) : FFTWGrid :=
  let kvec := get_fourier_wavevector_from_index N density_k complex_index in
  let val (p : Particle) : C := cexp (scale Ci (- dot kvec (get_pos p))) in
  let real := sumR (fun p => Re (val p)) part in
  let imag := sumR (fun p => Im (val p)) part in
  let sum := mkC real imag in
  let sum :=
    if (ThisTask =? 0)%nat && (complex_index =? 0)%nat
    then sub sum (of_real 1) else sum in
  set_fourier_from_index density_k complex_index (scale sum norm).

(** The grid the direct summation hands to the binning. *)
Definition direct_summation_grid (Ngrid : nat) (part : list Particle)
  : FFTWGrid :=
  let norm := 1 / INR (length part) in
  let density_k := FFTWGrid_new Ngrid 1 1 in
  fold_left (direct_summation_cell part norm)
    (get_fourier_range density_k) density_k.

Definition compute_power_spectrum_direct_summation (Ngrid : nat)
    (part : list Particle) (pofk : PowerSpectrumBinning)
  : result PowerSpectrumBinning :=
  check! assert_mpi (0 <? Ngrid)%nat
    "[direct_summation_power_spectrum] Ngrid > 0 required" in
  let density_k := direct_summation_grid Ngrid part in
  let! pofk := bin_up_power_spectrum density_k pofk in
  ret (subtract_shot_noise (1 / INR (length part)) pofk).

(** [compute_power_spectrum]: scatter, transform, deconvolve, bin, subtract
    the shot noise. *)
Definition compute_power_spectrum (Ngrid : nat) (part : list Particle)
    (NumPartTotal : nat) (pofk : PowerSpectrumBinning)
    (density_assignment_method : string) : result PowerSpectrumBinning :=
  let '(nleft, nright) :=
    get_extra_slices_needed_for_density_assignment density_assignment_method in
  let density_k := FFTWGrid_new Ngrid nleft nright in
  let density_k :=
    particles_to_grid part NumPartTotal density_k density_assignment_method in
  let density_k := fftw_r2c density_k in
  let density_k :=
    deconvolve_window_function_fourier density_k density_assignment_method in
  let! pofk := bin_up_power_spectrum density_k pofk in
  ret (subtract_shot_noise (1 / INR NumPartTotal) pofk).

(** The arithmetic in which the positions are updated. *)
Variable ar : arithmetic R.

(** One turn of the loop that shifts the particles, and one turn of the
    loop that shifts them back: [auto *pos = part[i].get_pos()] is updated
    in place. *)
Definition shift_forward (shift : R) (p : Particle) : Particle :=
  set_pos p (shift_positions ar N shift (get_pos p)).

Definition shift_back (shift : R) (p : Particle) : Particle :=
  set_pos p (unshift_positions ar N shift (get_pos p)).

(** [ksum += kvec[idim]] for [idim < N], from [0.0]. *)
Definition ksum_of (kvec : list R) : R :=
  sumR (fun idim => nth idim kvec 0) (seq 0 N).

(** One turn of the loop that forms the mean of the two grids. *)
Definition interlace_cell (shift : R) (density_k2 : FFTWGrid)
    (density_k : FFTWGrid) (complex_index : nat) : FFTWGrid :=
  let kvec := get_fourier_wavevector_from_index N density_k complex_index in
  let ksum := ksum_of kvec in
  let norm := cexp (scale (scale Ci ksum) shift) in
  let ff := get_fourier_from_index density_k complex_index in
  let gg := get_fourier_from_index density_k2 complex_index in
  set_fourier_from_index density_k complex_index
    (divr (add ff (mul norm gg)) 2).

(** The state of [compute_power_spectrum_interlacing] just before the
    window is deconvolved: the particles as the call leaves them, the two
    transformed grids, and the first grid after the mean was formed. *)
Record interlacing_state : Type := mkInterlacing {
  part_shifted : list Particle;
  part_final : list Particle;
  G1 : FFTWGrid;
  G2 : FFTWGrid;
  G_mean : FFTWGrid
}.

Definition interlacing_grids (Ngrid : nat) (part : list Particle)
    (NumPartTotal : nat) (density_assignment_method : string)
  : interlacing_state :=
  let '(nleft, nright) :=
    get_extra_slices_needed_for_density_assignment density_assignment_method in
  let nright := (nright + 1)%nat in
  let density_k := FFTWGrid_new Ngrid nleft nright in
  let density_k :=
    particles_to_grid part NumPartTotal density_k density_assignment_method in
  let shift := interlacing_shift ar Ngrid in
  let part1 := map (shift_forward shift) part in
  let density_k2 := FFTWGrid_new Ngrid nleft nright in
  let density_k2 :=
    particles_to_grid part1 NumPartTotal density_k2 density_assignment_method in
  let part2 := map (shift_back shift) part1 in
  let density_k := fftw_r2c density_k in
  let density_k2 := fftw_r2c density_k2 in
  let mean :=
    fold_left (interlace_cell shift density_k2)
      (get_fourier_range density_k) density_k in
  mkInterlacing part1 part2 density_k density_k2 mean.

(** The call returns the particles as it leaves them and the binning (or
    the failure of the binning). *)
Definition compute_power_spectrum_interlacing (Ngrid : nat)
    (part : list Particle) (NumPartTotal : nat) (pofk : PowerSpectrumBinning)
    (density_assignment_method : string)
  : list Particle * result PowerSpectrumBinning :=
  let st := interlacing_grids Ngrid part NumPartTotal density_assignment_method in
  let density_k :=
    deconvolve_window_function_fourier (G_mean st) density_assignment_method in
  (part_final st,
   let! pofk := bin_up_power_spectrum density_k pofk in
   ret (subtract_shot_noise (1 / INR NumPartTotal) pofk)).

End Estimators.

(** *** The statements of the specification, for comparison *)

(** The weight that the specification gives to a Fourier cell from its
    coordinate [c] along the packed axis: 2 on the interior planes, those
    with [c] in the open interval [(0, Nmesh/2)], and 1 on the DC plane
    [c = 0] and on the Nyquist plane [c = Nmesh/2]; [Nmesh/2] is half the
    mesh size, a real number. *)
Definition spec_weight (N : nat) (g : FFTWGrid) (ind : nat) : option R :=
  let c := INR (packed_coord N g ind) in
  let half := INR (Nmesh g) / 2 in
  if Rltb 0 c && Rltb c half then Some 2
  else if Reqb c 0 || Reqb c half then Some 1
  else None.

(** One cell added as the specification words it: [|delta(k)|^2] goes to
    the bin of [|k|] with the weight of the plane. *)
Definition spec_bin_up_cell (N : nat) (g : FFTWGrid)
    (pofk : PowerSpectrumBinning) (ind : nat) : PowerSpectrumBinning :=
  match spec_weight N g ind with
  | Some w =>
      add_to_bin pofk
        (snd (get_fourier_wavevector_and_norm_by_index N g ind))
        (norm (get_fourier_from_index g ind)) w
  | None => pofk
  end.

(** The binning as the specification words it, before the normalisation:
    every owned Fourier cell is added to the reset binning. *)
Definition spec_bin_up (N : nat) (g : FFTWGrid) (pofk : PowerSpectrumBinning)
  : PowerSpectrumBinning :=
  fold_left (spec_bin_up_cell N g) (get_fourier_range g) (reset pofk).

(** [sum_i exp(-i k.x_i)] over the particles. *)
Definition phase_sum (N : nat) (kvec : list R) (part : list Particle) : C :=
  mkC (sumR (fun p => cos (dot N kvec (get_pos p))) part)
      (sumR (fun p => - sin (dot N kvec (get_pos p))) part).

(** The amplitude as the specification words it: first
    [delta(k) = (1/NumPart) sum_i exp(-i k.x_i)], then 1 subtracted at the
    [k = 0] index on the task that owns it. *)
Definition spec_direct_delta (N ThisTask : nat) (g : FFTWGrid)
    (part : list Particle) (ind : nat) : C :=
  let delta :=
    scale (phase_sum N (get_fourier_wavevector_from_index N g ind) part)
      (1 / INR (length part)) in
  if (ThisTask =? 0)%nat && (ind =? 0)%nat then sub delta (of_real 1)
  else delta.

(** The amplitude the code stores: the 1 is taken from the sum over the
    particles, and the factor [1/NumPart] comes after. *)
Definition code_direct_delta (N ThisTask : nat) (g : FFTWGrid)
    (part : list Particle) (ind : nat) : C :=
  let sum := phase_sum N (get_fourier_wavevector_from_index N g ind) part in
  let sum :=
    if (ThisTask =? 0)%nat && (ind =? 0)%nat then sub sum (of_real 1)
    else sum in
  scale sum (1 / INR (length part)).

(** [sum_j k_j]: the components of a wavevector added up. *)
Definition spec_ksum (kvec : list R) : R := fold_right Rplus 0 kvec.

(** [delta(k) = (1/2) (G1(k) + exp(i (sum_j k_j) / (2 Ngrid)) G2(k))], with
    [k] the wavevector of the cell and [exp(i theta)] written out as
    [cos theta + i sin theta]. *)
Definition spec_interlaced_delta (N Ngrid : nat) (g1 g2 : FFTWGrid)
    (ind : nat) : C :=
  let k := get_fourier_wavevector_from_index N g1 ind in
  let theta := spec_ksum k / (2 * INR Ngrid) in
  scale
    (add (get_fourier_from_index g1 ind)
       (mul (mkC (cos theta) (sin theta)) (get_fourier_from_index g2 ind)))
    (1 / 2).

End PowerSpectrum.

(** ** Power-spectrum multipoles *)
Module Multipoles.

(** The empty binning, read where a vector is indexed out of its range. *)
Definition no_binning : PowerSpectrumBinning :=
  mkBinning 0 0 0 (fun _ => None) [] [] [].

(** [MPI_Allreduce(MPI_IN_PLACE, buf, count, MPI_DOUBLE, MPI_SUM, ...)]:
    the first [count] entries of the buffer receive the sum over the tasks,
    which is the local entry plus what the other tasks contribute. *)
Definition MPI_Allreduce_SUM (others : list R) (count : nat) (buf : list R)
  : list R :=
  imap (fun i x => if (i <? count)%nat then x + nth i others 0 else x) buf.

Section Estimators.

Variable normalize : PowerSpectrumBinning -> PowerSpectrumBinning.
Variable FFTWGrid_new : nat -> nat -> nat -> FFTWGrid.
Variable particles_to_grid :
  list Particle -> nat -> FFTWGrid -> string -> FFTWGrid.
Variable fftw_r2c : FFTWGrid -> FFTWGrid.
Variable deconvolve_window_function_fourier : FFTWGrid -> string -> FFTWGrid.
Variable get_extra_slices_needed_for_density_assignment : string -> nat * nat.
(** [part.communicate_particles()] of [MPIParticles]: the particles this
    task holds afterwards. *)
Variable communicate_particles : list Particle -> list Particle.

Variable N : nat.

(** Norm of the line-of-sight vector. *)
Definition los_norm (line_of_sight_direction : list R) : R :=
  sqrt (sumR (fun idim => nth idim line_of_sight_direction 0
                          * nth idim line_of_sight_direction 0) (seq 0 N)).

(** [Pell[ell].add_to_bin(kmag, power * mutoell, weight); mutoell *= mu;]
    for [ell = 0, 1, ...]. *)
Fixpoint add_moments (kmag power weight mu mutoell : R)
    (Pell : list PowerSpectrumBinning) : list PowerSpectrumBinning :=
  match Pell with
  | [] => []
  | p :: rest =>
      add_to_bin p kmag (power * mutoell) weight
        :: add_moments kmag power weight mu (mutoell * mu) rest
  end.

(** One turn of the loop that bins [mu^k |delta|^2]. *)
Definition moments_cell (fourier_grid : FFTWGrid)
    (line_of_sight_direction : list R) (rnorm : R)
    (Pell : list PowerSpectrumBinning) (ind : nat)
  : list PowerSpectrumBinning :=
  let weight := PowerSpectrum.mode_weight (Nmesh fourier_grid) ind in
  let '(kvec, kmag) :=
    get_fourier_wavevector_and_norm_by_index N fourier_grid ind in
  let power := norm (get_fourier_from_index fourier_grid ind) in
  let mu := PowerSpectrum.dot N kvec line_of_sight_direction in
  let mu := mu / (kmag * rnorm) in
  add_moments kmag power weight mu 1 Pell.

Definition allreduce_binning (others p : PowerSpectrumBinning)
  : PowerSpectrumBinning :=
  mkBinning (n p) (kmin p) (kmax p) (bin_of p)
    (MPI_Allreduce_SUM (kbin others) (n p) (kbin p))
    (MPI_Allreduce_SUM (pofk others) (n p) (pofk p))
    (MPI_Allreduce_SUM (count others) (n p) (count p)).

(** The first part of the grid estimator: the normalised moments
    [<|delta|^2 mu^m>] in [Pell[m]].  [others] holds what the other tasks
    contribute to the all-reduce of each [Pell[m]]. *)
Definition multipole_moments (fourier_grid : FFTWGrid)
    (Pell : list PowerSpectrumBinning) (line_of_sight_direction : list R)
    (others : list PowerSpectrumBinning)
  : result (list PowerSpectrumBinning) :=
  check! assert_mpi (length line_of_sight_direction =? N)%nat
    "[compute_power_spectrum_multipoles] Line of sight direction has wrong number of dimensions" in
  check! assert_mpi (0 <? length Pell)%nat
    "[compute_power_spectrum_multipoles] Pell must have size > 0" in
  check! assert_mpi (0 <? Nmesh fourier_grid)%nat
    "[compute_power_spectrum_multipoles] grid must have Nmesh > 0" in
  let NmeshTotTotal := ntot_fourier N fourier_grid in
  let rnorm := los_norm line_of_sight_direction in
  check! assert_mpi (Rltb 0 rnorm)
    "[compute_power_spectrum_multipoles] Line of sight vector has zero length" in
  let Pell := map reset Pell in
  let Pell :=
    fold_left (moments_cell fourier_grid line_of_sight_direction rnorm)
      (seq 0 NmeshTotTotal) Pell in
  let Pell := imap (fun ell p => allreduce_binning (nth ell others no_binning) p)
                Pell in
  ret (map normalize Pell).

(** The lambda [binomial]: [res *= double(n - i) / double(k - i)] for
    [i < k], from [1.0]. *)
Definition binomial (n k : nat) : R :=
  fold_left (fun res i => res * ((INR n - INR i) / (INR k - INR i)))
    (seq 0 k) 1.

(** The lambda [summand_legendre_polynomial]. *)
Definition summand_legendre_polynomial (k ell : nat) : R :=
  let sign := if (k mod 2 =? 0)%nat then 1 else -1 in
  sign * binomial ell k * binomial (2 * ell - 2 * k) ell / 2 ^ ell.

(** The vector [sum] of one [ell]. *)
Definition legendre_sum (Pell : list PowerSpectrumBinning) (ell : nat)
  : list R :=
  fold_left
    (fun sum k =>
       let mu_power := pofk (nth (ell - 2 * k) Pell no_binning) in
       imap (fun i s => s + nth i mu_power 0 * summand_legendre_polynomial k ell)
         sum)
    (seq 0 (ell / 2 + 1))
    (replicate (length (pofk (nth 0 Pell no_binning))) 0).

(** From [<mu^k |delta|^2>] to [<L_ell(mu) |delta|^2>], then the copy. *)
Definition legendre_projection (Pell : list PowerSpectrumBinning)
  : list PowerSpectrumBinning :=
  let temp := map (legendre_sum Pell) (seq 0 (length Pell)) in
  imap (fun ell p => set_pofk p (nth ell temp [])) Pell.

(** The grid estimator. *)
Definition compute_power_spectrum_multipoles (fourier_grid : FFTWGrid)
    (Pell : list PowerSpectrumBinning) (line_of_sight_direction : list R)
    (others : list PowerSpectrumBinning)
  : result (list PowerSpectrumBinning) :=
  let! Pell :=
    multipole_moments fourier_grid Pell line_of_sight_direction others in
  ret (legendre_projection Pell).

(** *** From particles *)

(** [std::vector<double> line_of_sight_direction(N, 0.0);]
    [line_of_sight_direction[dir] = 1.0;] *)
Definition unit_vector (dir : nat) : list R :=
  <[dir := 1]> (replicate N 0).

(** [if(pos[idim] < 0.0) pos[idim] += 1.0; if(pos[idim] >= 1.0) pos[idim] -= 1.0;] *)
Definition periodic (x : R) : R :=
  let x := if Rltb x 0 then x + 1 else x in
  if Rleb 1 x then x - 1 else x.

Definition vdotr_of (line_of_sight_direction : list R) (p : Particle) : R :=
  sumR (fun idim => nth idim (get_vel p) 0
                    * nth idim line_of_sight_direction 0) (seq 0 N).

(** Displace a particle into redshift space. *)
Definition displace (line_of_sight_direction : list R)
    (velocity_to_displacement : R) (p : Particle) : Particle :=
  let vdotr := vdotr_of line_of_sight_direction p in
  set_pos p
    (imap (fun idim x =>
             if (idim <? N)%nat then
               periodic (x + vdotr * nth idim line_of_sight_direction 0
                               * velocity_to_displacement)
             else x)
       (get_pos p)).

(** Displace it back. *)
Definition displace_back (line_of_sight_direction : list R)
    (velocity_to_displacement : R) (p : Particle) : Particle :=
  let vdotr := vdotr_of line_of_sight_direction p in
  set_pos p
    (imap (fun idim x =>
             if (idim <? N)%nat then
               periodic (x - vdotr * nth idim line_of_sight_direction 0
                               * velocity_to_displacement)
             else x)
       (get_pos p)).

(** A loop whose turns may fail. *)
Fixpoint fold_result {A B} (f : A -> B -> result A) (l : list B) (a : A)
  : result A :=
  match l with
  | [] => ret a
  | b :: rest => let! a' := f a b in fold_result f rest a'
  end.

(** The density grid of one axis, and the particles after they were
    displaced back. *)
Definition axis_grid (Ngrid : nat) (part : list Particle)
    (NumPartTotal : nat) (velocity_to_displacement : R)
    (density_assignment_method : string) (dir : nat)
  : list Particle * FFTWGrid :=
  let '(nleft, nright) :=
    get_extra_slices_needed_for_density_assignment density_assignment_method in
  let line_of_sight_direction := unit_vector dir in
  let part :=
    communicate_particles
      (map (displace line_of_sight_direction velocity_to_displacement) part) in
  let density_k := FFTWGrid_new Ngrid nleft nright in
  let density_k :=
    particles_to_grid part NumPartTotal density_k density_assignment_method in
  let part :=
    communicate_particles
      (map (displace_back line_of_sight_direction velocity_to_displacement)
         part) in
  let density_k := fftw_r2c density_k in
  let density_k :=
    deconvolve_window_function_fourier density_k density_assignment_method in
  (part, density_k).

(** One turn of the loop over the axes; the state is the particles and
    [Pell_all]. *)
Definition axis_step (Ngrid NumPartTotal : nat)
    (velocity_to_displacement : R) (density_assignment_method : string)
    (others : nat -> list PowerSpectrumBinning)
    (st : list Particle * list (list PowerSpectrumBinning)) (dir : nat)
  : result (list Particle * list (list PowerSpectrumBinning)) :=
  let '(part, Pell_all) := st in
  let Pell_current := map reset (nth dir Pell_all []) in
  let '(part, density_k) :=
    axis_grid Ngrid part NumPartTotal velocity_to_displacement
      density_assignment_method dir in
  let! Pell_current :=
    compute_power_spectrum_multipoles density_k Pell_current
      (unit_vector dir) (others dir) in
  ret (part, <[dir := Pell_current]> Pell_all).

(** [Pell[ell] += Pell_all[dir][ell]] for every [dir]. *)
Definition sum_over_axes (Pell_all : list (list PowerSpectrumBinning))
    (ell : nat) (p : PowerSpectrumBinning) : PowerSpectrumBinning :=
  fold_left
    (fun acc dir => add_binning acc (nth ell (nth dir Pell_all []) no_binning))
    (seq 0 N) p.

(** [pofk[i] /= double(N); count[i] /= double(N); kbin[i] /= double(N);]
    for [i < n]. *)
Definition divide_by_axes (p : PowerSpectrumBinning) : PowerSpectrumBinning :=
  let div l := imap (fun i x => if (i <? n p)%nat then x / INR N else x) l in
  mkBinning (n p) (kmin p) (kmax p) (bin_of p)
    (div (kbin p)) (div (pofk p)) (div (count p)).

(** The particle estimator: the particles it leaves behind and [Pell].
    [part] with [get_npart_total()] is the pair [(part, NumPartTotal)];
    [others dir] is what the other tasks contribute to the all-reduce in
    the pass over axis [dir]. *)
Definition compute_power_spectrum_multipoles_particles (Ngrid : nat)
    (part : list Particle) (NumPartTotal : nat)
    (velocity_to_displacement : R) (Pell : list PowerSpectrumBinning)
    (density_assignment_method : string)
    (others : nat -> list PowerSpectrumBinning)
  : result (list Particle * list PowerSpectrumBinning) :=
  let Pell := map reset Pell in
  let Pell_all := replicate N Pell in
  let! st :=
    fold_result
      (axis_step Ngrid NumPartTotal velocity_to_displacement
         density_assignment_method others)
      (seq 0 N) (part, Pell_all) in
  let '(part, Pell_all) := st in
  let Pell := imap (sum_over_axes Pell_all) Pell in
  let Pell := map divide_by_axes Pell in
  let Pell := alter (subtract_shot_noise (1 / INR NumPartTotal)) 0%nat Pell in
  ret (part, Pell).

(** [Pell_all[dir]] holds the multipoles that the grid estimator returns
    for the density grid of axis [dir], with that axis as line of sight. *)
Definition axis_pass (Ngrid NumPartTotal : nat)
    (velocity_to_displacement : R) (density_assignment_method : string)
    (others : nat -> list PowerSpectrumBinning)
    (Pell : list PowerSpectrumBinning)
    (Pell_all : list (list PowerSpectrumBinning)) (dir : nat) : Prop :=
  exists part_in R,
    Pell_all !! dir = Some R
    /\ compute_power_spectrum_multipoles
         (snd (axis_grid Ngrid part_in NumPartTotal velocity_to_displacement
                 density_assignment_method dir))
         (map reset Pell) (unit_vector dir) (others dir)
       = inr R.

End Estimators.

(** *** The statements of the specification, for comparison *)

(** [c_{ell,m} = (-1)^m binom(ell,m) binom(2 ell - 2 m, ell) / 2^ell]. *)
Definition legendre_coefficient (ell m : nat) : R :=
  (-1) ^ m * Binomial.C ell m * Binomial.C (2 * ell - 2 * m) ell / 2 ^ ell.

(** The arithmetic mean over the [N] axes of entry [i] of an array of the
    multipole [ell]. *)
Definition mean_over_axes (N : nat)
    (array : PowerSpectrumBinning -> list R)
    (Pell_all : list (list PowerSpectrumBinning)) (ell i : nat) : R :=
  sumR (fun dir => nth i (array (nth ell (nth dir Pell_all []) no_binning)) 0)
    (seq 0 N) / INR N.

End Multipoles.

(** ** Bispectrum and polyspectrum *)
Module Polyspectrum.

(** Modelled from the spec: [PolyspectrumBinning.h] and
    [BispectrumBinning.h] are not among the sources.  The result holds the
    bin positions [k], the flat tensors [P123] (or [B123]) and [N123] of
    length [n^ORDER], and the per-bin [kbin] and [pofk]. *)
Module Poly.
Record PolyspectrumBinning : Type := mkPoly {
  n : nat;
  k : list R;
  P123 : list R;
  N123 : list R;
  kbin : list R;
  pofk : list R
}.
End Poly.

Module Bi.
Record BispectrumBinning : Type := mkBi {
  n : nat;
  k : list R;
  B123 : list R;
  N123 : list R;
  kbin : list R;
  pofk : list R
}.
End Bi.

(** What the other tasks contribute to the all-reduces of the call: per
    bin to [kmean], [pofk_bin[i]] and [nk], per tuple index to
    [N123_current] and [F123_current].  All are zero in a build without
    MPI. *)
Record contributions : Type := mkContributions {
  o_kmean : nat -> R;
  o_pofk : nat -> R;
  o_nk : nat -> R;
  o_N123 : nat -> R;
  o_F123 : nat -> R
}.

(** [MPI_Allreduce(MPI_IN_PLACE, &x, 1, MPI_DOUBLE, MPI_SUM, ...)]. *)
Definition MPI_Allreduce_SUM (others x : R) : R := x + others.

(** The edges and the centre of shell [i]; [klow[i] = khigh[i-1]] is read
    back from the array the loop has just written. *)
Definition khigh (nbins : nat) (k : list R) (i : nat) : R :=
  if (i =? 0)%nat then nth 0 k 0 + (nth 1 k 0 - nth 0 k 0) / 2
  else if (i <? nbins - 1)%nat then
    nth i k 0 + (nth (i + 1) k 0 - nth i k 0) / 2
  else nth (nbins - 1) k 0.

Definition klow (nbins : nat) (k : list R) (i : nat) : R :=
  if (i =? 0)%nat then nth 0 k 0 else khigh nbins k (i - 1).

Definition k_bin (nbins : nat) (k : list R) (i : nat) : R :=
  (khigh nbins k i + klow nbins k i) / 2.

(** The digits [i / n % nbins] for [n = 1, nbins, nbins^2, ...], least
    significant first. *)
Fixpoint lsd_digits (nbins count i n : nat) : list nat :=
  match count with
  | O => []
  | S c => ((i / n) mod nbins)%nat :: lsd_digits nbins c i (n * nbins)
  end.

(** [for(ii = 1; ii < order; ii++) if(ik[ii] > ik[ii-1]) valid = false;] *)
Fixpoint valid_tuple (ik : list nat) : bool :=
  match ik with
  | a :: (b :: _) as rest => negb (a <? b)%nat && valid_tuple rest
  | _ => true
  end.

(** [index = index * nbins + ik[ii]] for [ii = 0, 1, ...], from 0. *)
Definition cell_index (nbins : nat) (ik : list nat) : nat :=
  fold_left (fun index d => (index * nbins + d)%nat) ik 0%nat.

Section Engine.

(** [grid.fftw_c2r()] followed by the reading of the owned real cells, in
    the order of [get_real_range()]. *)
Variable fftw_c2r : FFTWGrid -> list R.

(** The template parameters. *)
Variable N : nat.
Variable order : nat.

Variable others : contributions.

(** The state of the loop over the Fourier cells of one shell. *)
Record shell_state : Type := mkShell {
  grid : FFTWGrid;
  count_grid : FFTWGrid;
  kmean : R;
  pofk_sum : R;
  nk : R
}.

Definition shell_cell (kmag2_min kmag2_max : R) (st : shell_state)
    (fourier_index : nat) : shell_state :=
  let kmag2 :=
    norm2 (get_fourier_wavevector_from_index N (grid st) fourier_index) in
  if Rleb kmag2_max kmag2 || Rltb kmag2 kmag2_min then
    mkShell (set_fourier_from_index (grid st) fourier_index C0)
      (set_fourier_from_index (count_grid st) fourier_index C0)
      (kmean st) (pofk_sum st) (nk st)
  else
    mkShell (grid st)
      (set_fourier_from_index (count_grid st) fourier_index C1)
      (kmean st + sqrt kmag2)
      (pofk_sum st + norm (get_fourier_from_index (grid st) fourier_index))
      (nk st + 1).

(** [N_k[i] = density_k; N_k[i].fill_fourier_grid(0.0);] *)
Definition fill_fourier_grid_zero (g : FFTWGrid) : FFTWGrid :=
  mkGrid (Nmesh g) (Local_nx g) (Local_x_start g) (map (fun _ => C0) (cdelta g)).

(** Shell [i]: the fields [F_k[i]] and [N_k[i]] in real space, the mean
    [k] of the shell and its power. *)
Definition shell (nbins : nat) (k : list R) (density_k : FFTWGrid) (i : nat)
  : list R * list R * R * R :=
  let kmag_max := khigh nbins k i in
  let kmag_min := klow nbins k i in
  let kmag2_max := kmag_max * kmag_max in
  let kmag2_min := kmag_min * kmag_min in
  let st :=
    fold_left (shell_cell kmag2_min kmag2_max)
      (get_fourier_range density_k)
      (mkShell density_k (fill_fourier_grid_zero density_k) 0 0 0) in
  let kmean := MPI_Allreduce_SUM (o_kmean others i) (kmean st) in
  let pofk_bin := MPI_Allreduce_SUM (o_pofk others i) (pofk_sum st) in
  let nk := MPI_Allreduce_SUM (o_nk others i) (nk st) in
  let kmean_bin := if Reqb nk 0 then k_bin nbins k i else kmean / nk in
  let pofk_bin := if Reqb nk 0 then 0 else pofk_bin / nk in
  (fftw_c2r (grid st), fftw_c2r (count_grid st), kmean_bin, pofk_bin).

(** [sum over real_index of prod_ii F_k[ik[ii]].get_real_from_index(real_index)],
    over the real range of the first field. *)
Definition tuple_sum (fields : list (list R)) (ik : list nat) : R :=
  sumR (fun real_index =>
          fold_left (fun product b => product * nth real_index (nth b fields []) 0)
            ik 1)
    (seq 0 (length (nth 0 fields []))).

(** Normalize [dx^N / (2 pi)^N]. *)
Definition volume_factor (nmesh : nat) : R :=
  (1 / INR nmesh / (2 * PI)) ^ N.

(** What the loop over the tuples does at index [i]: nothing ([None]) when
    the tuple is not valid, else the pair written to [P123[i]] and
    [N123[i]]. *)
Definition tuple_entry (nmesh nbins : nat) (k : list R)
    (F_k N_k : list (list R)) (i : nat) : option (R * R) :=
  let deltak := nth 1 k 0 - nth 0 k 0 in
  let ik := rev (lsd_digits nbins order i 1) in
  let valid := valid_tuple ik in
  let ksum := sumR (k_bin nbins k) (removelast ik) in
  if negb valid then None
  else if Rltb ksum (k_bin nbins k (List.last ik 0%nat) - INR order * deltak / 2)
  then Some (0, 0)
  else
    let N123_current := MPI_Allreduce_SUM (o_N123 others i) (tuple_sum N_k ik) in
    let F123_current := MPI_Allreduce_SUM (o_F123 others i) (tuple_sum F_k ik) in
    let F123_current := F123_current * volume_factor nmesh in
    let N123_current := N123_current * volume_factor nmesh in
    Some (if Rltb 0 N123_current then F123_current / N123_current else 0,
          if Rltb 0 N123_current then N123_current else 0).

Definition tuple_step (nmesh nbins : nat) (k : list R)
    (F_k N_k : list (list R)) (st : list R * list R) (i : nat)
  : list R * list R :=
  match tuple_entry nmesh nbins k F_k N_k i with
  | None => st
  | Some (p, c) => (<[i := p]> (fst st), <[i := c]> (snd st))
  end.

(** [if(v[index] == 0.0) v[index] = v[i];] *)
Definition fill_if_zero (v : list R) (index i : nat) : list R :=
  if Reqb (nth index v 0) 0 then <[index := nth i v 0]> v else v.

(** One turn of the loop "set stuff not computed". *)
Definition fill_step (nbins : nat) (st : list R * list R) (i : nat)
  : list R * list R :=
  let ik := lsd_digits nbins order i 1 in
  if negb (valid_tuple ik) then st
  else
    let ik := merge_sort le ik in
    let index := cell_index nbins ik in
    (fill_if_zero (fst st) index i, fill_if_zero (snd st) index i).

(** The tensors after the loop over the tuples. *)
Definition integrate_tuples (nmesh nbins : nat) (k : list R)
    (F_k N_k : list (list R)) : list R * list R :=
  let nbins_tot := (nbins ^ order)%nat in
  fold_left (tuple_step nmesh nbins k F_k N_k) (seq 0 nbins_tot)
    (replicate nbins_tot 0, replicate nbins_tot 0).

(** The tensors after the symmetry loop. *)
Definition symmetry_fill (nbins : nat) (st : list R * list R)
  : list R * list R :=
  fold_left (fill_step nbins) (seq 0 (nbins ^ order)) st.

(** [static_assert(order > 1)] is the third check: an instance with
    [order <= 1] is not a program. *)
Definition compute_polyspectrum (density_k : FFTWGrid)
    (polyofk : Poly.PolyspectrumBinning) : result Poly.PolyspectrumBinning :=
  let nmesh := Nmesh density_k in
  let nbins := Poly.n polyofk in
  check! assert_that (0 <? nbins)%nat "nbins > 0" in
  check! assert_that (0 <? nmesh)%nat "Nmesh > 0" in
  check! assert_that (1 <? order)%nat "order > 1" in
  let shells := map (shell nbins (Poly.k polyofk) density_k) (seq 0 nbins) in
  let F_k := map (fun s => fst (fst (fst s))) shells in
  let N_k := map (fun s => snd (fst (fst s))) shells in
  let pofk_bin := map snd shells in
  let '(P123, N123) :=
    symmetry_fill nbins
      (integrate_tuples nmesh nbins (Poly.k polyofk) F_k N_k) in
  ret (Poly.mkPoly nbins (Poly.k polyofk) P123 N123
         (map (k_bin nbins (Poly.k polyofk)) (seq 0 nbins)) pofk_bin).

End Engine.

(** *** The bispectrum *)
Section Bispectrum.

Variable fftw_c2r : FFTWGrid -> list R.
Variable N : nat.
Variable others : contributions.

(** What the loop over the triples does at index [i]. *)
Definition triple_entry (nmesh nbins : nat) (k : list R)
    (F_k N_k : list (list R)) (pofk_bin : list R) (i : nat)
  : option (R * R) :=
  let deltak := nth 1 k 0 - nth 0 k 0 in
  let ik := lsd_digits nbins 3 i 1 in
  let ik0 := nth 0 ik 0%nat in
  let ik1 := nth 1 ik 0%nat in
  let ik2 := nth 2 ik 0%nat in
  if (ik1 <? ik0)%nat || (ik2 <? ik1)%nat then None
  else if Rltb (k_bin nbins k ik0 + k_bin nbins k ik1)
            (k_bin nbins k ik2 - 3 * deltak / 2)
  then Some (0, 0)
  else
    let N123_current :=
      MPI_Allreduce_SUM (o_N123 others i) (tuple_sum N_k [ik0; ik1; ik2]) in
    let F123_current :=
      MPI_Allreduce_SUM (o_F123 others i) (tuple_sum F_k [ik0; ik1; ik2]) in
    let F123_current := F123_current * volume_factor N nmesh in
    let N123_current := N123_current * volume_factor N nmesh in
    let B := if Rltb 0 N123_current then F123_current / N123_current else 0 in
    let C := if Rltb 0 N123_current then N123_current else 0 in
    let norm :=
      nth ik0 pofk_bin 0 * nth ik1 pofk_bin 0
      + nth ik1 pofk_bin 0 * nth ik2 pofk_bin 0
      + nth ik2 pofk_bin 0 * nth ik0 pofk_bin 0 in
    Some (if Rltb 0 norm then B / norm else B, C).

Definition triple_step (nmesh nbins : nat) (k : list R)
    (F_k N_k : list (list R)) (pofk_bin : list R) (st : list R * list R)
    (i : nat) : list R * list R :=
  match triple_entry nmesh nbins k F_k N_k pofk_bin i with
  | None => st
  | Some (b, c) => (<[i := b]> (fst st), <[i := c]> (snd st))
  end.

(** The six cells of the permutations of the sorted triple. *)
Definition permuted_cells (nbins : nat) (inds : list nat) : list nat :=
  let i0 := nth 0 inds 0%nat in
  let i1 := nth 1 inds 0%nat in
  let i2 := nth 2 inds 0%nat in
  [((i0 * nbins + i1) * nbins + i2)%nat;
   ((i0 * nbins + i2) * nbins + i1)%nat;
   ((i1 * nbins + i2) * nbins + i0)%nat;
   ((i1 * nbins + i0) * nbins + i2)%nat;
   ((i2 * nbins + i0) * nbins + i1)%nat;
   ((i2 * nbins + i1) * nbins + i0)%nat].

(** The body of the three nested loops "set the values we didn't compute
    by using symmetry", for one [(i, j, k)]. *)
Definition bispectrum_fill_step (nbins : nat) (B123 : list R)
    (ijk : nat * nat * nat) : list R :=
  let '(i, j, k) := ijk in
  let index := ((i * nbins + j) * nbins + k)%nat in
  let inds := merge_sort le [i; j; k] in
  fold_left (fun B target => fill_if_zero B target index)
    (permuted_cells nbins inds) B123.

(** [(i, j, k)] in the order of the three nested loops. *)
Definition triples (nbins : nat) : list (nat * nat * nat) :=
  i ← seq 0 nbins; j ← seq 0 nbins; k ← seq 0 nbins; [(i, j, k)].

Definition bispectrum_symmetry_fill (nbins : nat) (B123 : list R) : list R :=
  fold_left (bispectrum_fill_step nbins) (triples nbins) B123.

Definition integrate_triples (nmesh nbins : nat) (k : list R)
    (F_k N_k : list (list R)) (pofk_bin : list R) : list R * list R :=
  let nbins_tot := (nbins ^ 3)%nat in
  fold_left (triple_step nmesh nbins k F_k N_k pofk_bin) (seq 0 nbins_tot)
    (replicate nbins_tot 0, replicate nbins_tot 0).

Definition compute_bispectrum (density_k : FFTWGrid)
    (bofk : Bi.BispectrumBinning) : result Bi.BispectrumBinning :=
  let nmesh := Nmesh density_k in
  let nbins := Bi.n bofk in
  check! assert_that (0 <? nbins)%nat "nbins > 0" in
  check! assert_that (0 <? nmesh)%nat "Nmesh > 0" in
  let shells :=
    map (shell fftw_c2r N others nbins (Bi.k bofk) density_k) (seq 0 nbins) in
  let F_k := map (fun s => fst (fst (fst s))) shells in
  let N_k := map (fun s => snd (fst (fst s))) shells in
  let pofk_bin := map snd shells in
  let '(B123, N123) :=
    integrate_triples nmesh nbins (Bi.k bofk) F_k N_k pofk_bin in
  let B123 := bispectrum_symmetry_fill nbins B123 in
  ret (Bi.mkBi nbins (Bi.k bofk) B123 N123
         (map (k_bin nbins (Bi.k bofk)) (seq 0 nbins)) pofk_bin).

End Bispectrum.

(** *** The statements of the specification, for comparison *)

(** The tuple [(i1, ..., in)] of the cell [i] of a flat tensor indexed as
    [i1 nbins^(n-1) + ... + in]. *)
Definition tuple_of_cell (nbins order i : nat) : list nat :=
  rev (lsd_digits nbins order i 1).

(** The cell of the triple [(x, y, z)] in a tensor of order 3. *)
Definition cell3 (nbins x y z : nat) : nat := ((x * nbins + y) * nbins + z)%nat.

(** A canonical tuple: [i1 <= i2 <= ... <= in]. *)
Fixpoint canonical (ik : list nat) : bool :=
  match ik with
  | a :: (b :: _) as rest => (a <=? b)%nat && canonical rest
  | _ => true
  end.

(** The closable-polygon test on a canonical tuple:
    [sum_{a<n} k_{i_a} >= k_{i_n} - n deltak / 2]. *)
Definition closable (nbins order : nat) (k : list R) (ik : list nat) : bool :=
  Rleb (k_bin nbins k (List.last ik 0%nat)
        - INR order * (nth 1 k 0 - nth 0 k 0) / 2)
    (sumR (k_bin nbins k) (removelast ik)).

End Polyspectrum.


(** ** The multipole Q-term in real space *)
Module QTerm.
Section QTerm.

(** The template parameter. *)
Variable N : nat.

(** Modelled from the spec: [FML/FFTWGrid/FFTWGrid.h] is not among the
    sources.  The real view of a task is the array of its owned real
    cells, in the order of [get_real_range()];
    [get_real_position(get_coord_from_index(real_index))] is the position
    of a cell in the box, a vector of [N] doubles. *)
Variable get_real_position : nat -> list R.

(** [pos[idim] -= origin[idim]; norm += pos[idim] * pos[idim];] for
    [idim < N], then [norm = sqrt(norm)] and [pos[idim] /= norm]. *)
Definition shifted (origin pos : list R) : list R :=
  imap (fun idim x => if (idim <? N)%nat then x - nth idim origin 0 else x)
    pos.

Definition norm_of (pos : list R) : R :=
  sqrt (sumR (fun idim => nth idim pos 0 * nth idim pos 0) (seq 0 N)).

Definition unit_direction (origin pos : list R) : list R :=
  let pos := shifted origin pos in
  let norm := norm_of pos in
  imap (fun idim x => if (idim <? N)%nat then x / norm else x) pos.

(** [for(auto ii : Qindex) value *= pos[ii];] an entry of [Qindex] is an
    index into [pos]; the statements below are for entries below [N]. *)
Definition times_components (pos : list R) (Qindex : list nat) (value : R)
  : R :=
  fold_left (fun value ii => value * nth ii pos 0) Qindex value.

(** One turn of the loop over the real cells of [density_real]. *)
Definition Q_cell (density_real : list R) (Qindex : list nat)
    (origin : list R) (Q_real : list R) (real_index : nat) : list R :=
  let pos := unit_direction origin (get_real_position real_index) in
  let value := nth real_index density_real 0 in
  let value := times_components pos Qindex value in
  <[real_index := value]> Q_real.

(** The call returns the real cells of [Q_real] as it leaves them. *)
Definition compute_multipole_Q_term (density_real Q_real : list R)
    (Qindex : list nat) (origin : list R) : result (list R) :=
  check! assert_that (0 <? length Qindex)%nat "Qindex.size() > 0" in
  check! assert_that (length origin =? N)%nat "origin.size() == N" in
  ret (fold_left (Q_cell density_real Qindex origin)
         (seq 0 (length density_real)) Q_real).

End QTerm.
End QTerm.

(** ** Gadget snapshot files: sections and the header *)
Module Gadget.

Definition byte : Type := Init.Byte.byte.

(** How a call ends.  [throw_error(errormessage)] throws
    [std::runtime_error(errormessage)] (in a build with MPI it prints the
    message and aborts the run); [std::vector<char>(n)] throws
    [std::length_error] when [n] exceeds [max_size()]; and the code never
    tests the stream after [fp.read], so a read past the end of the file
    lets the call go on with a variable that was never set. *)
Inductive outcome (A : Type) : Type :=
| Returns (a : A)
| Throws (errormessage : string)
| LengthError
| ReadsUnset.
Arguments Returns {A} a.
Arguments Throws {A} errormessage.
Arguments LengthError {A}.
Arguments ReadsUnset {A}.

Definition and_then {A B} (m : outcome A) (k : A -> outcome B) : outcome B :=
  match m with
  | Returns a => k a
  | Throws e => Throws e
  | LengthError => LengthError
  | ReadsUnset => ReadsUnset
  end.

Notation "'run!' x ':=' m 'in' k" := (and_then m (fun x => k))
  (at level 10, x name, m at level 100, k at level 200).

(** The end of line that closes every message. *)
Definition nl : string := String (Ascii.ascii_of_nat 10) EmptyString.

(** [std::ifstream]: whether it is open and the bytes from the read
    position on; [std::ofstream]: whether it is open and the bytes written
    so far. *)
Record ifstream : Type := mkIfstream { is_open : bool; unread : list byte }.
Record ofstream : Type := mkOfstream { out_is_open : bool; written : list byte }.

(** [fp.read(s, n)]: the next [n] bytes, when the file has them. *)
Definition read (n : nat) (fp : ifstream) : outcome (list byte * ifstream) :=
  if (n <=? length (unread fp))%nat then
    Returns (take n (unread fp), mkIfstream (is_open fp) (drop n (unread fp)))
  else ReadsUnset.

(** [fp.write(s, n)] *)
Definition write (s : list byte) (fp : ofstream) : ofstream :=
  mkOfstream (out_is_open fp) (written fp ++ s).

(** The object representation of an [int]: 32 bits, two's complement,
    least significant byte first (the model fixes the byte order of the
    host; the code reads and writes in the order of the host it runs on). *)
Definition int_bytes (v : Z) : list byte := le_split 4 v.
Definition int_of_bytes (bs : list byte) : Z :=
  let u := le_combine bs in
  if (u <? 2 ^ 31)%Z then u else (u - 2 ^ 32)%Z.

(** [size_t(v)] for an [int] [v]: the value modulo [2^64]. *)
Definition to_size_t (v : Z) : Z := (v mod 2 ^ 64)%Z.
(** [(unsigned int) v]: the value modulo [2^32]. *)
Definition to_unsigned_int (v : Z) : Z := (v mod 2 ^ 32)%Z.

(** An [int] is read raw from the next four bytes and, when the reader
    swaps, passed through [swap_endian]. *)
Definition read_int (swap_endian : Z -> Z) (endian_swap : bool)
    (fp : ifstream) : outcome (Z * ifstream) :=
  run! r := read 4 fp in
  let v := int_of_bytes (fst r) in
  Returns (if endian_swap then swap_endian v else v, snd r).

Section Reader.

(** [swap_endian] of [GadgetUtils.h], which is not among the sources, on
    an [int]. *)
Variable swap_endian : Z -> Z.

(** [GadgetReader::read_section]; [endian_swap] is the member of the
    reader.  The call returns the stream and the buffer as it leaves
    them. *)
Definition read_section (endian_swap : bool) (fp : ifstream)
    (buffer : list byte) : outcome (ifstream * list byte) :=
  if negb (is_open fp) then
    Throws ("[GadgetReader::read_section] File is not open" ++ nl)
  else
    run! r := read_int swap_endian endian_swap fp in
    let bytes_start := fst r in
    let fp := snd r in
    run! buffer :=
      (if (0 <? length buffer)%nat then
         if (Z.of_nat (length buffer) <? to_size_t bytes_start)%Z then
           Throws ("[GadgetReader::read_section] Buffersize is too small" ++ nl)
         else Returns buffer
       else
         if (bytes_start <? 0)%Z then LengthError
         else Returns (replicate (Z.to_nat bytes_start) Byte.x00)) in
    run! r := read (Z.to_nat bytes_start) fp in
    let buffer := fst r ++ drop (length (fst r)) buffer in
    let fp := snd r in
    run! r := read_int swap_endian endian_swap fp in
    let bytes_end := fst r in
    let fp := snd r in
    if negb (bytes_start =? bytes_end)%Z then
      Throws ("[GadgetReader::read_section] Error in file BytesStart != ByteEnd!" ++ nl)
    else Returns (fp, buffer).

End Reader.

(** [GadgetWriter::write_section]; [bytes] is an [int]. *)
Definition write_section (fp : ofstream) (buffer : list byte) (bytes : Z)
  : outcome ofstream :=
  if negb (out_is_open fp) then
    Throws ("[GadgetWriter::write_section] File is not open" ++ nl)
  else if (Z.of_nat (length buffer) <? to_size_t bytes)%Z then
    Throws ("[GadgetWriter::write_section] Buffersize too small" ++ nl)
  else
    let fp := write (int_bytes bytes) fp in
    let fp := write (take (Z.to_nat bytes) buffer) fp in
    Returns (write (int_bytes bytes) fp).

(** The fields of [GadgetHeader] that this file reads or writes; the
    struct is declared in [GadgetUtils.h].  [npart], [npartTotal] and
    [npartTotalHighWord] are arrays of [unsigned int], [mass] is an array
    of [double], the flags and [num_files] are [int]. *)
Record GadgetHeader : Type := mkHeader {
  npart : list Z;
  mass : list R;
  time : R;
  redshift : R;
  flag_sfr : Z;
  flag_feedback : Z;
  npartTotal : list Z;
  flag_cooling : Z;
  num_files : Z;
  BoxSize : R;
  Omega0 : R;
  OmegaLambda : R;
  HubbleParam : R;
  flag_stellarage : Z;
  flag_metals : Z;
  npartTotalHighWord : list Z;
  flag_entropy_instead_u : Z
}.

(** What [print_header_info] prints as [npartTotal]:
    [(size_t(header.npartTotalHighWord[1]) << 32) + header.npartTotal[1]],
    in the arithmetic of [size_t]. *)
Definition printed_npartTotal (header : GadgetHeader) : Z :=
  (((Z.shiftl (to_size_t (nth 1 (npartTotalHighWord header) 0%Z)) 32)
      mod 2 ^ 64
    + nth 1 (npartTotal header) 0%Z) mod 2 ^ 64)%Z.

Section Writer.

(** Constants and the layout of the header, from [GadgetUtils.h]. *)
Variable MplMpl_over_H0Msunh : R.
Variable HubbleLengthInMpch : R.
(** [sizeof(header)] and the object representation of the header. *)
Variable sizeof_header : Z.
Variable header_bytes : GadgetHeader -> list byte.

(** The header that [write_header] leaves in the writer; [TotNumPart] is a
    [size_t] and [NumPart] an [unsigned int]. *)
Definition filled_header (header : GadgetHeader) (NumPart TotNumPart : Z)
    (NumberOfFilesToWrite : Z) (aexp Boxsize OmegaM OmegaLambda' HubbleParam' : R)
  : GadgetHeader :=
  mkHeader
    (<[1%nat := NumPart]> (npart header))
    (<[1%nat := 3 * OmegaM * MplMpl_over_H0Msunh
                * (Boxsize / HubbleLengthInMpch) ^ 3
                / IZR TotNumPart / 10 ^ 10]> (mass header))
    aexp
    (1 / aexp - 1)
    0
    0
    (<[1%nat := to_unsigned_int TotNumPart]> (npartTotal header))
    0
    NumberOfFilesToWrite
    Boxsize
    OmegaM
    OmegaLambda'
    HubbleParam'
    0
    0
    (<[1%nat := to_unsigned_int (Z.shiftr TotNumPart 32)]>
       (npartTotalHighWord header))
    0.

(** [GadgetWriter::write_header]: the header of the writer and the stream
    as the call leaves them. *)
Definition write_header (header : GadgetHeader) (fp : ofstream)
    (NumPart TotNumPart : Z) (NumberOfFilesToWrite : Z)
    (aexp Boxsize OmegaM OmegaLambda' HubbleParam' : R)
  : outcome (GadgetHeader * ofstream) :=
  if negb (out_is_open fp) then
    Throws ("[GadgetWriter::write_header] File is not open" ++ nl)
  else
    let header :=
      filled_header header NumPart TotNumPart NumberOfFilesToWrite
        aexp Boxsize OmegaM OmegaLambda' HubbleParam' in
    let bytes := sizeof_header in
    let fp := write (int_bytes bytes) fp in
    let fp := write (take (Z.to_nat bytes) (header_bytes header)) fp in
    Returns (header, write (int_bytes bytes) fp).

End Writer.

End Gadget.

(** ** What the loops amount to, for comparison *)

(** The grid whose amplitude at every owned cell is that of [g] times
    [filter(|k|)]. *)
Definition apply_filter (N : nat) (filter : R -> R) (g : FFTWGrid) : FFTWGrid :=
  mkGrid (Nmesh g) (Local_nx g) (Local_x_start g)
    (imap (fun index value =>
             scale value
               (filter (snd (get_fourier_wavevector_and_norm_by_index N g index))))
       (cdelta g)).

(** A particle of the unit box: every coordinate is in [[0,1)]. *)
Definition in_unit_box (p : Particle) : Prop :=
  Forall (fun x => 0 <= x < 1) (get_pos p).

(** The test of the loop over the Fourier cells of a shell, negated: the
    cell is kept when not [kmag2 >= kmag2_max or kmag2 < kmag2_min]. *)
Definition in_range (kmag2_min kmag2_max kmag2 : R) : bool :=
  negb (Rleb kmag2_max kmag2 || Rltb kmag2 kmag2_min).

(** Shell [i] of a binning with the positions [k]. *)
Definition in_shell (nbins : nat) (k : list R) (i : nat) (kmag2 : R) : bool :=
  in_range
    (Polyspectrum.klow nbins k i * Polyspectrum.klow nbins k i)
    (Polyspectrum.khigh nbins k i * Polyspectrum.khigh nbins k i)
    kmag2.

(** Bin positions that start at a non-negative [k] and increase. *)
Definition increasing_bins (nbins : nat) (k : list R) : Prop :=
  0 <= nth 0 k 0
  /\ forall a, (a + 1 < nbins)%nat -> nth a k 0 < nth (a + 1) k 0.

(** Whether the owned cell [ind] of [g] has [|k|^2] in the range. *)
Definition inside_shell (N : nat) (kmag2_min kmag2_max : R) (g : FFTWGrid)
    (ind : nat) : bool :=
  in_range kmag2_min kmag2_max
    (norm2 (get_fourier_wavevector_from_index N g ind)).

(** The grid [g] with the amplitudes outside the range set to zero, and
    the grid that holds 1 inside the range and 0 outside. *)
Definition masked_grid (N : nat) (kmag2_min kmag2_max : R) (g : FFTWGrid)
  : FFTWGrid :=
  mkGrid (Nmesh g) (Local_nx g) (Local_x_start g)
    (imap (fun ind x =>
             if inside_shell N kmag2_min kmag2_max g ind then x else C0)
       (cdelta g)).

Definition indicator_grid (N : nat) (kmag2_min kmag2_max : R) (g : FFTWGrid)
  : FFTWGrid :=
  mkGrid (Nmesh g) (Local_nx g) (Local_x_start g)
    (imap (fun ind (_ : C) =>
             if inside_shell N kmag2_min kmag2_max g ind then C1 else C0)
       (cdelta g)).

(** The section that [write_section] emits for a buffer and a length. *)
Definition section_of (buffer : list Gadget.byte) (bytes : Z)
  : list Gadget.byte :=
  Gadget.int_bytes bytes ++ take (Z.to_nat bytes) buffer
    ++ Gadget.int_bytes bytes.
(** ** Concrete inputs on which the statements below are exercised *)
Module Inputs.

(** A one-task grid with [Nmesh = 2] in two dimensions: two planes of two
    packed cells each. *)
Definition grid2 : FFTWGrid :=
  mkGrid 2 2 0 [mkC 1 0; mkC 0 1; mkC 2 0; mkC 0 0].

(** The constructor of a one-task grid in two dimensions: all [Ngrid]
    planes are local and the Fourier cells start at zero. *)
Definition FFTWGrid_new2 (Ngrid nleft nright : nat) : FFTWGrid :=
  mkGrid Ngrid Ngrid 0 (replicate (Ngrid * (Ngrid / 2 + 1)) C0).

(** Two particles at rest in the unit box. *)
Definition part2 : list Particle :=
  [mkParticle [0; 0] [0; 0]; mkParticle [1 / 2; 1 / 2] [0; 0]].

(** A binning with two bins over [0, 10]. *)
Definition pofk2 : PowerSpectrumBinning :=
  mkBinning 2 0 10 (fun k => if Rltb k 5 then Some 0%nat else Some 1%nat)
    [0; 0] [0; 0] [0; 0].

(** Stand-ins for the functions that are not among the sources: the
    scatter puts the first coordinate of the first particle in cell 0, the
    transform and the deconvolution leave the grid as it is, and the
    assignment needs one slice on each side. *)
Definition particles_to_grid0 (part : list Particle) (NumPartTotal : nat)
    (g : FFTWGrid) (method : string) : FFTWGrid :=
  match part with
  | p :: _ => set_fourier_from_index g 0 (of_real (nth 0 (get_pos p) 0))
  | [] => g
  end.
Definition fftw_r2c0 (g : FFTWGrid) : FFTWGrid := g.
Definition deconvolve0 (g : FFTWGrid) (method : string) : FFTWGrid := g.
Definition slices0 (method : string) : nat * nat := (1%nat, 1%nat).
Definition normalize0 (b : PowerSpectrumBinning) : PowerSpectrumBinning := b.
Definition communicate0 (part : list Particle) : list Particle := part.

(** Three normalised moments [<|delta|^2 mu^m>], [m = 0, 1, 2], on two
    bins. *)
Definition moments3 : list PowerSpectrumBinning :=
  [mkBinning 2 0 10 (fun _ => None) [1; 6] [4; 8] [3; 5];
   mkBinning 2 0 10 (fun _ => None) [1; 6] [0; 1] [3; 5];
   mkBinning 2 0 10 (fun _ => None) [1; 6] [2; 3] [3; 5]].

(** A polyspectrum of order 3 on two shells.  The field is the 2 x 2 grid
    ([N = 2], [Nmesh = 2]) whose four Fourier amplitudes are 1; with the bin
    positions [0] and [4 pi] the shells are [[0, 2 pi)], which holds the
    [k = 0] mode, and [[2 pi, 4 pi)], which holds the three others.  The
    shell fields in real space are then [1, 1, 1, 1] and [3, -1, -1, -1],
    both for [F_k] and for [N_k]. *)
Definition k2 : list R := [0; 4 * PI].
Definition shell_fields2 : list (list R) := [[1; 1; 1; 1]; [3; -1; -1; -1]].
Definition no_others : Polyspectrum.contributions :=
  Polyspectrum.mkContributions
    (fun _ => 0) (fun _ => 0) (fun _ => 0) (fun _ => 0) (fun _ => 0).

(** That grid, the inverse transform of a 2 x 2 grid (all four modes are
    their own conjugates, the real cell [(n0, n1)] is the sum of the
    amplitudes [(j0, j1)] with the signs [(-1)^(j0 n0 + j1 n1)]), and the
    binning handed to the call. *)
Definition grid_ones : FFTWGrid := mkGrid 2 2 0 [C1; C1; C1; C1].
Definition fftw_c2r_2x2 (g : FFTWGrid) : list R :=
  let a := Re (get_fourier_from_index g 0) in
  let b := Re (get_fourier_from_index g 1) in
  let c := Re (get_fourier_from_index g 2) in
  let d := Re (get_fourier_from_index g 3) in
  [a + b + c + d; a - b + c - d; a + b - c - d; a - b - c + d].
Definition polyofk2 : Polyspectrum.Poly.PolyspectrumBinning :=
  Polyspectrum.Poly.mkPoly 2 k2 [] [] [] [].

(** The two tensors at the end of [compute_polyspectrum] for them. *)
Definition tensors2 : list R * list R :=
  Polyspectrum.symmetry_fill 3 2
    (Polyspectrum.integrate_tuples 2 3 no_others 2 2 k2
       shell_fields2 shell_fields2).

End Inputs.


(** ** More concrete inputs *)
Module Inputs2.

(** A real grid of two cells in two dimensions, at [(0, 0)] and
    [(1/2, 0)]. *)
Definition cell_positions2 (real_index : nat) : list R :=
  [INR real_index / 2; 0].

(** The bispectrum binning on the two shells of [Inputs.k2]. *)
Definition bofk2 : Polyspectrum.Bi.BispectrumBinning :=
  Polyspectrum.Bi.mkBi 2 Inputs.k2 [] [] [] [].

(** A bispectrum binning on three shells of unequal width: the centres
    are [1/4], [3] and [31/4] and [deltak = 1]. *)
Definition bofk3 : Polyspectrum.Bi.BispectrumBinning :=
  Polyspectrum.Bi.mkBi 3 [0; 1; 10] [] [] [] [].

(** A header whose arrays of six entries are all zero. *)
Definition header0 : Gadget.GadgetHeader :=
  Gadget.mkHeader (replicate 6 0%Z) (replicate 6 0) 0 0 0 0
    (replicate 6 0%Z) 0 0 0 0 0 0 0 0 (replicate 6 0%Z) 0.

End Inputs2.

(** ** Concrete inputs for the binning and for the interlaced estimator *)
Module Inputs3.

(** A one-task grid with an odd mesh, [Nmesh = 3] in two dimensions: three
    planes of [3/2 + 1 = 2] packed cells each, with the amplitude 1 on the
    plane [c = 0] and the amplitude 2 on the plane [c = 1].  The full
    3 x 3 grid has nine modes; the six stored cells stand for them, each
    cell of the plane [c = 1] for itself and for its conjugate, which is
    not stored. *)
Definition grid3 : FFTWGrid :=
  mkGrid 3 3 0 [C1; mkC 2 0; C1; mkC 2 0; C1; mkC 2 0].

(** A binning with one bin over [[0, 100)]; every mode of [grid3] has
    [|k| <= 2 sqrt(2) pi] and falls in it. *)
Definition one_bin : PowerSpectrumBinning :=
  mkBinning 1 0 100
    (fun k => if Rleb 0 k && Rltb k 100 then Some 0%nat else None)
    [0] [0] [0].

(** One particle at [(1/4, 1/2)], at rest. *)
Definition part1 : list Particle := [mkParticle [1 / 4; 1 / 2] [0; 0]].

(** A stand-in for the scatter that is not among the sources: it puts the
    first two coordinates of the first particle in the cells 0 and 1. *)
Definition particles_to_grid1 (part : list Particle) (NumPartTotal : nat)
    (g : FFTWGrid) (method : string) : FFTWGrid :=
  match part with
  | p :: _ =>
      set_fourier_from_index
        (set_fourier_from_index g 0 (of_real (nth 0 (get_pos p) 0)))
        1 (of_real (nth 1 (get_pos p) 0))
  | [] => g
  end.

(** The unit round-off of a double, [2^-53], and a rounding that moves
    every result up by that relative error. *)
Definition unit_roundoff : R := 1 / 9007199254740992.
Definition round_up (x : R) : R := x * (1 + unit_roundoff).

End Inputs3.
(* ================================================================== *)
(** * Part II: properties                                               *)
(* ================================================================== *)

#[local] Set Default Proof Using "Type".

(** ** Loops over lists and over the cells of a grid *)
Section Loops.

Lemma sumR_from {A} (f : A -> R) (l : list A) (x : R) :
  fold_left (fun acc a => acc + f a) l x = x + sumR f l.
Proof.
  unfold sumR. revert x.
  induction l as [|a l IH]; intros x; simpl.
  - lra.
  - rewrite IH, (IH (0 + f a)). lra.
Qed.

Lemma sumR_nil {A} (f : A -> R) : sumR f [] = 0.
Proof. reflexivity. Qed.

Lemma sumR_cons {A} (f : A -> R) (a : A) (l : list A) :
  sumR f (a :: l) = f a + sumR f l.
Proof. unfold sumR at 1. simpl. rewrite sumR_from. lra. Qed.

Lemma sumR_app {A} (f : A -> R) (l1 l2 : list A) :
  sumR f (l1 ++ l2) = sumR f l1 + sumR f l2.
Proof.
  induction l1 as [|a l1 IH]; simpl.
  - rewrite sumR_nil. lra.
  - rewrite !sumR_cons, IH. lra.
Qed.

Lemma sumR_ext {A} (f g : A -> R) (l : list A) :
  (forall a, In a l -> f a = g a) -> sumR f l = sumR g l.
Proof.
  induction l as [|a l IH]; intros H; [reflexivity|].
  rewrite !sumR_cons, IH, (H a); auto using in_eq, in_cons.
Qed.

Lemma sumR_zero {A} (f : A -> R) (l : list A) :
  (forall a, In a l -> f a = 0) -> sumR f l = 0.
Proof.
  induction l as [|a l IH]; intros H; [reflexivity|].
  rewrite sumR_cons, IH, (H a); auto using in_eq, in_cons. lra.
Qed.

Lemma sumR_scal {A} (c : R) (f : A -> R) (l : list A) :
  sumR (fun a => c * f a) l = c * sumR f l.
Proof.
  induction l as [|a l IH]; [rewrite !sumR_nil; lra|].
  rewrite !sumR_cons, IH. lra.
Qed.

Lemma own_cell_step_length {A} (h : nat -> A -> option A) l i :
  length (own_cell_step h l i) = length l.
Proof.
  unfold own_cell_step. destruct (l !! i) as [x|]; [|reflexivity].
  destruct (h i x); [apply length_insert | reflexivity].
Qed.

Lemma own_cell_step_other {A} (h : nat -> A -> option A) l i j :
  i <> j -> own_cell_step h l i !! j = l !! j.
Proof.
  intros Hne. unfold own_cell_step. destruct (l !! i) as [x|]; [|reflexivity].
  destruct (h i x); [now apply list_lookup_insert_ne | reflexivity].
Qed.

Lemma fold_own_cell_length {A} (h : nat -> A -> option A) s l :
  length (fold_left (own_cell_step h) s l) = length l.
Proof.
  revert l. induction s as [|i s IH]; intros l; simpl; [reflexivity|].
  now rewrite IH, own_cell_step_length.
Qed.

Lemma fold_own_cell_other {A} (h : nat -> A -> option A) s l j :
  ~ In j s -> fold_left (own_cell_step h) s l !! j = l !! j.
Proof.
  revert l. induction s as [|i s IH]; intros l Hj; simpl; [reflexivity|].
  rewrite IH by (intros ?; apply Hj; now right).
  apply own_cell_step_other. intros ->. apply Hj. now left.
Qed.

Lemma fold_own_cell {A} (h : nat -> A -> option A) (l : list A) (k j : nat) :
  fold_left (own_cell_step h) (seq 0 k) l !! j
  = if decide (j < k)%nat
    then (fun x => default x (h j x)) <$> (l !! j)
    else l !! j.
Proof.
  induction k as [|k IH].
  - simpl. destruct (decide (j < 0)%nat); [lia | reflexivity].
  - rewrite seq_S, fold_left_app. simpl.
    set (l' := fold_left _ (seq 0 k) l) in *.
    assert (Hkk : l' !! k = l !! k).
    { apply fold_own_cell_other. rewrite in_seq. lia. }
    destruct (decide (j = k)) as [->|Hne].
    + destruct (decide (k < S k)%nat); [|lia].
      unfold own_cell_step. rewrite Hkk.
      destruct (l !! k) as [x|] eqn:Hx; simpl.
      * destruct (h k x) as [v|] eqn:Hh; simpl.
        -- apply list_lookup_insert_eq.
           apply lookup_lt_Some in Hx. subst l'.
           now rewrite fold_own_cell_length.
        -- now rewrite Hkk.
      * now rewrite Hkk.
    + rewrite own_cell_step_other by auto. rewrite IH.
      destruct (decide (j < k)%nat), (decide (j < S k)%nat);
        try lia; reflexivity.
Qed.

Lemma wavevector_same_header N g g' ind :
  same_header g g' ->
  get_fourier_wavevector_from_index N g' ind
  = get_fourier_wavevector_from_index N g ind.
Proof.
  intros (H1 & H2 & H3).
  unfold get_fourier_wavevector_from_index, fourier_coord.
  now rewrite H1, H3.
Qed.

(** An in-place loop over the Fourier cells whose turn replaces the cell by
    a function of the header, the index and the cell. *)
Lemma fold_cells (F : FFTWGrid -> nat -> C -> C) (g : FFTWGrid) :
  (forall g1 g2 i x, same_header g1 g2 -> F g2 i x = F g1 i x) ->
  let g' :=
    fold_left
      (fun g i => set_fourier_from_index g i
                    (F g i (get_fourier_from_index g i)))
      (get_fourier_range g) g in
  same_header g g'
  /\ cdelta g' = imap (F g) (cdelta g).
Proof.
  intros HF. cbv zeta.
  set (body := fun g i => set_fourier_from_index g i
                            (F g i (get_fourier_from_index g i))).
  assert (Hgen : forall s g0, same_header g g0 ->
    same_header g (fold_left body s g0)
    /\ cdelta (fold_left body s g0)
       = fold_left (own_cell_step (fun i x => Some (F g i x))) s (cdelta g0)).
  { induction s as [|i s IHs]; intros g0 H0; simpl; [now split|].
    assert (Hh : same_header g (body g0 i)).
    { destruct H0 as (?&?&?). repeat split; simpl; assumption. }
    destruct (IHs _ Hh) as [Hs Hc]. split; [exact Hs|].
    rewrite Hc. f_equal. simpl.
    unfold get_fourier_from_index, own_cell_step.
    destruct (cdelta g0 !! i) as [x|] eqn:Hx; simpl.
    - now rewrite (HF g g0).
    - apply list_insert_ge. now apply lookup_ge_None. }
  destruct (Hgen (get_fourier_range g) g) as [Hs Hc].
  { repeat split. }
  split; [exact Hs|].
  rewrite Hc. unfold get_fourier_range.
  apply list_eq. intros j.
  rewrite (fold_own_cell (fun i x => Some (F g i x))).
  rewrite list_lookup_imap.
  destruct (decide (j < length (cdelta g))%nat) as [Hj|Hj].
  - now destruct (cdelta g !! j).
  - rewrite lookup_ge_None_2 by lia. reflexivity.
Qed.

End Loops.

(** ** The power-spectrum estimators *)
Section PowerSpectrumFacts.
Import PowerSpectrum.
Import Doubles.

Variable normalize : PowerSpectrumBinning -> PowerSpectrumBinning.
Variable FFTWGrid_new : nat -> nat -> nat -> FFTWGrid.
Variable particles_to_grid :
  list Particle -> nat -> FFTWGrid -> string -> FFTWGrid.
Variable fftw_r2c : FFTWGrid -> FFTWGrid.
Variable deconvolve_window_function_fourier : FFTWGrid -> string -> FFTWGrid.
Variable get_extra_slices_needed_for_density_assignment : string -> nat * nat.
Variable ThisTask : nat.
Variable N : nat.

Lemma Rltb_true x y : x < y -> Rltb x y = true.
Proof. intros H. unfold Rltb. destruct (Rlt_dec x y); [reflexivity | lra]. Qed.

Lemma Rltb_false x y : y <= x -> Rltb x y = false.
Proof. intros H. unfold Rltb. destruct (Rlt_dec x y); [lra | reflexivity]. Qed.

Lemma Rleb_true x y : x <= y -> Rleb x y = true.
Proof. intros H. unfold Rleb. destruct (Rle_dec x y); [reflexivity | lra]. Qed.

Lemma Rleb_false x y : y < x -> Rleb x y = false.
Proof. intros H. unfold Rleb. destruct (Rle_dec x y); [lra | reflexivity]. Qed.

(** The coordinate along the packed axis is what the loop calls
    [last_coord]. *)
Lemma packed_coord_mod (g : FFTWGrid) (ind : nat) :
  packed_coord N g ind = (ind mod (Nmesh g / 2 + 1))%nat.
Proof.
  unfold packed_coord, fourier_coord.
  destruct (middle_coords _ _ _) as [mid top].
  rewrite app_comm_cons. apply last_last.
Qed.

Lemma packed_coord_le (g : FFTWGrid) (ind : nat) :
  (packed_coord N g ind <= Nmesh g / 2)%nat.
Proof.
  rewrite packed_coord_mod.
  pose proof (Nat.mod_upper_bound ind (Nmesh g / 2 + 1)). lia.
Qed.

Lemma Reqb_true x y : x = y -> Reqb x y = true.
Proof. intros H. unfold Reqb. destruct (Req_dec_T x y); [reflexivity | lra]. Qed.

(** The weight of the specification in terms of integers: 2 when
    [0 < c] and [2 c < Nmesh], and 1 otherwise; every stored plane is an
    interior plane, the DC plane or the Nyquist plane. *)
Lemma spec_weight_value (g : FFTWGrid) (ind : nat) :
  let c := packed_coord N g ind in
  spec_weight N g ind
  = Some (if (0 <? c)%nat && (2 * c <? Nmesh g)%nat then 2 else 1).
Proof.
  cbv zeta. unfold spec_weight.
  pose proof (packed_coord_le g ind) as Hle.
  set (c := packed_coord N g ind) in *.
  assert (Hhalf : (2 * c <= Nmesh g)%nat).
  { pose proof (Nat.Div0.mul_div_le (Nmesh g) 2). lia. }
  assert (Hc : INR (2 * c) = 2 * INR c).
  { rewrite mult_INR. simpl. lra. }
  destruct (Nat.ltb_spec 0 c) as [H0|H0]; cbn [andb].
  - rewrite Rltb_true by (apply (lt_INR 0); exact H0).
    destruct (Nat.ltb_spec (2 * c) (Nmesh g)) as [H1|H1]; cbn [andb].
    + apply lt_INR in H1. rewrite Hc in H1.
      now rewrite Rltb_true by lra.
    + assert (Heq : (2 * c = Nmesh g)%nat) by lia.
      apply (f_equal INR) in Heq. rewrite Hc in Heq.
      rewrite Rltb_false by lra.
      rewrite (Reqb_true (INR c) (INR (Nmesh g) / 2)) by lra.
      now rewrite orb_true_r.
  - assert (c = 0%nat) as -> by lia. cbn [INR].
    rewrite Rltb_false by lra. cbn [andb].
    now rewrite Reqb_true.
Qed.

(** On a mesh of even size the weight of the loop is the weight of the
    specification, for every cell. *)
Lemma mode_weight_even_mesh (g : FFTWGrid) (ind : nat) :
  (Nmesh g mod 2 = 0)%nat ->
  spec_weight N g ind = Some (mode_weight (Nmesh g) ind).
Proof.
  intros Heven. rewrite spec_weight_value. cbv zeta. unfold mode_weight.
  rewrite <- packed_coord_mod.
  set (c := packed_coord N g ind).
  pose proof (Nat.div_mod_eq (Nmesh g) 2) as Hdiv.
  do 2 f_equal. f_equal.
  destruct (Nat.ltb_spec (2 * c) (Nmesh g)), (Nat.ltb_spec c (Nmesh g / 2));
    try reflexivity; lia.
Qed.

(** On a mesh of odd size the last stored plane, [c = (Nmesh - 1) / 2], is
    an interior plane: its conjugate is not stored and [c < Nmesh / 2].
    The specification gives it the weight 2, the loop the weight 1. *)
Lemma mode_weight_odd_mesh (g : FFTWGrid) (ind : nat) :
  (Nmesh g mod 2 = 1)%nat -> (3 <= Nmesh g)%nat ->
  packed_coord N g ind = (Nmesh g / 2)%nat ->
  0 < INR (packed_coord N g ind) < INR (Nmesh g) / 2
  /\ spec_weight N g ind = Some 2
  /\ mode_weight (Nmesh g) ind = 1.
Proof.
  intros Hodd Hmesh Hc.
  pose proof (Nat.div_mod_eq (Nmesh g) 2) as Hdiv.
  assert (H0 : (0 < Nmesh g / 2)%nat) by lia.
  assert (H1 : (2 * (Nmesh g / 2) < Nmesh g)%nat) by lia.
  split; [|split].
  - rewrite Hc. split.
    + apply (lt_INR 0). exact H0.
    + apply lt_INR in H1. rewrite mult_INR in H1.
      change (INR 2) with (1 + 1) in H1. lra.
  - rewrite spec_weight_value. cbv zeta. rewrite Hc.
    apply Nat.ltb_lt in H0, H1. now rewrite H0, H1.
  - unfold mode_weight. rewrite <- packed_coord_mod, Hc.
    now rewrite Nat.ltb_irrefl, andb_false_r.
Qed.

Lemma fold_left_ext {A B} (f g : A -> B -> A) (l : list B) (a : A) :
  (forall a b, f a b = g a b) -> fold_left f l a = fold_left g l a.
Proof.
  intros H. revert a. induction l as [|b l IH]; intros a; simpl;
    [reflexivity | now rewrite H, IH].
Qed.

(** What the binning loop has accumulated in bin [b] before the
    normalisation: the weights, the weighted [|delta|^2] and the weighted
    [|k|] of the owned cells whose [|k|] falls in that bin. *)
Lemma fold_add_to_bin (k v w : nat -> R) (cells : list nat)
    (p : PowerSpectrumBinning) (b : nat) :
  let r := fold_left (fun p ind => add_to_bin p (k ind) (v ind) (w ind)) cells p in
  let hits (f : nat -> R) :=
    sumR (fun ind => if decide (bin_of p (k ind) = Some b) then f ind else 0)
      cells in
  n r = n p /\ bin_of r = bin_of p
  /\ ((b < n p)%nat ->
      pofk r !! b = (fun x => x + hits (fun ind => w ind * v ind)) <$> pofk p !! b
      /\ count r !! b = (fun x => x + hits w) <$> count p !! b
      /\ kbin r !! b = (fun x => x + hits (fun ind => w ind * k ind)) <$> kbin p !! b).
Proof.
  cbv zeta. revert p. induction cells as [|ind cells IH]; intros p;
    cbn [fold_left].
  - split; [reflexivity|]. split; [reflexivity|]. intros _.
    rewrite !sumR_nil.
    repeat split;
      match goal with |- ?l !! b = _ => destruct (l !! b) end;
      cbn; try reflexivity; f_equal; lra.
  - destruct (IH (add_to_bin p (k ind) (v ind) (w ind))) as (Hn & Hb & Hsum).
    assert (Hn1 : n (add_to_bin p (k ind) (v ind) (w ind)) = n p
                  /\ bin_of (add_to_bin p (k ind) (v ind) (w ind)) = bin_of p).
    { unfold add_to_bin. destruct (bin_of p (k ind)) as [i|]; [|auto].
      destruct (i <? n p)%nat; auto. }
    destruct Hn1 as [Hn1 Hb1].
    split; [now rewrite Hn|]. split; [now rewrite Hb|].
    intros Hbn. rewrite Hn1 in Hsum. destruct (Hsum Hbn) as (Hp & Hc & Hk).
    rewrite Hp, Hc, Hk, !Hb1, !sumR_cons. clear Hp Hc Hk Hsum IH.
    unfold add_to_bin.
    destruct (bin_of p (k ind)) as [i|] eqn:Hi.
    + destruct (Nat.ltb_spec i (n p)) as [Hlt|Hge].
      * cbn [pofk count kbin]. destruct (decide (Some i = Some b)) as [Heq|Hne].
        -- injection Heq as ->. rewrite !list_lookup_alter_eq.
           repeat split;
             match goal with |- context [?l !! b] => destruct (l !! b) end;
             cbn; try reflexivity; f_equal; lra.
        -- assert (i <> b) by congruence.
           rewrite !list_lookup_alter_ne by assumption.
           repeat split;
             match goal with |- context [?l !! b] => destruct (l !! b) end;
             cbn; try reflexivity; f_equal; lra.
      * destruct (decide (Some i = Some b)) as [Heq|Hne];
          [injection Heq as ->; lia|].
        repeat split;
          match goal with |- context [?l !! b] => destruct (l !! b) end;
          cbn; try reflexivity; f_equal; lra.
    + destruct (decide (None = Some b)) as [Heq|Hne]; [discriminate|].
      repeat split;
        match goal with |- context [?l !! b] => destruct (l !! b) end;
        cbn; try reflexivity; f_equal; lra.
Qed.

Lemma bin_up_loop_totals (g : FFTWGrid) (pofk0 : PowerSpectrumBinning)
    (b : nat) :
  (b < n pofk0)%nat -> (b < length (pofk pofk0))%nat ->
  (b < length (count pofk0))%nat ->
  let kmag ind := snd (get_fourier_wavevector_and_norm_by_index N g ind) in
  let hits (f : nat -> R) :=
    sumR (fun ind => if decide (bin_of pofk0 (kmag ind) = Some b)
                     then f ind else 0)
      (seq 0 (ntot_fourier N g)) in
  pofk (bin_up_loop N g pofk0) !! b
  = Some (hits (fun ind => mode_weight (Nmesh g) ind
                           * norm (get_fourier_from_index g ind)))
  /\ count (bin_up_loop N g pofk0) !! b
     = Some (hits (fun ind => mode_weight (Nmesh g) ind)).
Proof.
  intros Hb Hlp Hlc. cbv zeta. unfold bin_up_loop.
  rewrite (fold_left_ext (bin_up_cell N g)
             (fun p ind =>
                add_to_bin p
                  (snd (get_fourier_wavevector_and_norm_by_index N g ind))
                  (norm (get_fourier_from_index g ind))
                  (mode_weight (Nmesh g) ind))).
  - destruct (fold_add_to_bin
                (fun ind => snd (get_fourier_wavevector_and_norm_by_index N g ind))
                (fun ind => norm (get_fourier_from_index g ind))
                (fun ind => mode_weight (Nmesh g) ind)
                (seq 0 (ntot_fourier N g)) (reset pofk0) b)
      as (_ & _ & Hsum).
    cbv zeta in Hsum. destruct (Hsum Hb) as (Hp & Hc & _).
    rewrite Hp, Hc. cbn [reset pofk count bin_of].
    unfold zeroed. rewrite !list_lookup_fmap.
    destruct (lookup_lt_is_Some_2 (pofk pofk0) b Hlp) as [x Hx].
    destruct (lookup_lt_is_Some_2 (count pofk0) b Hlc) as [y Hy].
    rewrite Hx, Hy. cbn [fmap option_fmap option_map].
    split; f_equal; lra.
  - intros p ind. unfold bin_up_cell.
    now destruct (get_fourier_wavevector_and_norm_by_index N g ind).
Qed.

(** The same totals for the binning as the specification words it. *)
Lemma spec_bin_up_totals (g : FFTWGrid) (pofk0 : PowerSpectrumBinning)
    (b : nat) :
  (b < n pofk0)%nat -> (b < length (pofk pofk0))%nat ->
  (b < length (count pofk0))%nat ->
  let kmag ind := snd (get_fourier_wavevector_and_norm_by_index N g ind) in
  let weight ind :=
    if (0 <? packed_coord N g ind)%nat
       && (2 * packed_coord N g ind <? Nmesh g)%nat then 2 else 1 in
  let hits (f : nat -> R) :=
    sumR (fun ind => if decide (bin_of pofk0 (kmag ind) = Some b)
                     then f ind else 0)
      (get_fourier_range g) in
  pofk (spec_bin_up N g pofk0) !! b
  = Some (hits (fun ind => weight ind * norm (get_fourier_from_index g ind)))
  /\ count (spec_bin_up N g pofk0) !! b = Some (hits weight).
Proof.
  intros Hb Hlp Hlc. cbv zeta. unfold spec_bin_up.
  rewrite (fold_left_ext (spec_bin_up_cell N g)
             (fun p ind =>
                add_to_bin p
                  (snd (get_fourier_wavevector_and_norm_by_index N g ind))
                  (norm (get_fourier_from_index g ind))
                  (if (0 <? packed_coord N g ind)%nat
                      && (2 * packed_coord N g ind <? Nmesh g)%nat
                   then 2 else 1))).
  - destruct (fold_add_to_bin
                (fun ind => snd (get_fourier_wavevector_and_norm_by_index N g ind))
                (fun ind => norm (get_fourier_from_index g ind))
                (fun ind =>
                   if (0 <? packed_coord N g ind)%nat
                      && (2 * packed_coord N g ind <? Nmesh g)%nat
                   then 2 else 1)
                (get_fourier_range g) (reset pofk0) b)
      as (_ & _ & Hsum).
    cbv zeta in Hsum. destruct (Hsum Hb) as (Hp & Hc & _).
    rewrite Hp, Hc. cbn [reset pofk count bin_of].
    unfold zeroed. rewrite !list_lookup_fmap.
    destruct (lookup_lt_is_Some_2 (pofk pofk0) b Hlp) as [x Hx].
    destruct (lookup_lt_is_Some_2 (count pofk0) b Hlc) as [y Hy].
    rewrite Hx, Hy. cbn [fmap option_fmap option_map].
    split; f_equal; lra.
  - intros p ind. unfold spec_bin_up_cell.
    pose proof (spec_weight_value g ind) as Hw. cbv zeta in Hw.
    now rewrite Hw.
Qed.

(** With a mesh of even size, and a grid that stores the cells the loop
    visits, [bin_up_power_spectrum] returns the normalised binning of the
    specification. *)
Lemma bin_up_power_spectrum_even_mesh (g : FFTWGrid)
    (pofk : PowerSpectrumBinning) :
  (0 < Nmesh g)%nat -> (1 <= n pofk)%nat ->
  kmin pofk < kmax pofk -> 0 <= kmin pofk ->
  (Nmesh g mod 2 = 0)%nat -> length (cdelta g) = ntot_fourier N g ->
  bin_up_power_spectrum normalize N g pofk
  = inr (normalize (spec_bin_up N g pofk)).
Proof.
  intros Hmesh Hn Hk Hk0 Heven Hlen.
  unfold bin_up_power_spectrum, bin_up_loop, spec_bin_up, get_fourier_range.
  replace (0 <? Nmesh g)%nat with true by (symmetry; now apply Nat.ltb_lt).
  replace (0 <? n pofk)%nat with true
    by (symmetry; apply Nat.ltb_lt; lia).
  rewrite Rltb_true, Rleb_true by assumption. cbn [andb assert_mpi bind].
  unfold ret. rewrite Hlen. do 2 f_equal.
  apply fold_left_ext. intros p ind.
  unfold bin_up_cell, spec_bin_up_cell.
  rewrite (mode_weight_even_mesh g ind Heven).
  now destruct (get_fourier_wavevector_and_norm_by_index N g ind).
Qed.

(** Whatever the mesh, the call passes its two assertions and returns the
    normalised result of the loop. *)
Lemma bin_up_power_spectrum_returns (g : FFTWGrid)
    (pofk : PowerSpectrumBinning) :
  (0 < Nmesh g)%nat -> (1 <= n pofk)%nat ->
  kmin pofk < kmax pofk -> 0 <= kmin pofk ->
  bin_up_power_spectrum normalize N g pofk
  = inr (normalize (bin_up_loop N g pofk)).
Proof.
  intros Hmesh Hn Hk Hk0. unfold bin_up_power_spectrum.
  replace (0 <? Nmesh g)%nat with true by (symmetry; now apply Nat.ltb_lt).
  replace (0 <? n pofk)%nat with true
    by (symmetry; apply Nat.ltb_lt; lia).
  rewrite Rltb_true, Rleb_true by assumption. reflexivity.
Qed.

(** *** Direct summation *)

Lemma cexp_phase (theta : R) :
  cexp (scale Ci theta) = mkC (cos theta) (sin theta).
Proof.
  unfold cexp, scale, Ci. cbn [Re Im].
  rewrite Rmult_0_l, exp_0, !Rmult_1_l. reflexivity.
Qed.


Lemma middle_coords_zero (nmesh m : nat) :
  middle_coords nmesh m 0 = (replicate m 0%nat, 0%nat).
Proof.
  induction m as [|m IH]; [reflexivity|].
  cbn [middle_coords]. rewrite Nat.Div0.div_0_l, IH, Nat.Div0.mod_0_l.
  reflexivity.
Qed.

Lemma wavevector_of_zero_coord (nmesh : nat) (coord : list nat) :
  Forall (fun j => j = 0%nat) coord ->
  Forall (fun k => k = 0) (wavevector_of_coord nmesh coord).
Proof.
  induction 1 as [|j rest Hj Hrest IH]; [constructor|].
  subst j. cbn [wavevector_of_coord].
  destruct rest as [|j' rest'].
  - constructor; [cbn [INR]; lra | constructor].
  - constructor; [|exact IH].
    unfold signed_mode. cbn [Nat.leb INR]. lra.
Qed.

(** At local index 0 of the task whose slab starts at plane 0 the
    wavevector is zero. *)
Lemma wavevector_at_origin (g : FFTWGrid) :
  Local_x_start g = 0%nat ->
  Forall (fun k => k = 0) (get_fourier_wavevector_from_index N g 0).
Proof.
  intros Hx. unfold get_fourier_wavevector_from_index, fourier_coord.
  rewrite Nat.Div0.div_0_l, Nat.Div0.mod_0_l, middle_coords_zero, Hx.
  apply wavevector_of_zero_coord.
  constructor; [reflexivity|].
  apply Forall_app. split.
  - apply Forall_rev. apply Forall_forall. intros x Hin.
    apply elem_of_replicate in Hin. apply Hin.
  - repeat constructor.
Qed.

Lemma nth_of_zero (l : list R) (i : nat) :
  Forall (fun k => k = 0) l -> nth i l 0 = 0.
Proof.
  intros H. revert i. induction H as [|k l Hk Hl IH]; intros [|i]; cbn [nth];
    auto.
Qed.

Lemma dot_zero_l (kvec x : list R) :
  Forall (fun k => k = 0) kvec -> dot N kvec x = 0.
Proof.
  intros H. unfold dot. apply sumR_zero. intros idim _.
  rewrite (nth_of_zero kvec idim H). lra.
Qed.

Lemma direct_summation_phase (kx : R) :
  cexp (scale Ci (- kx)) = mkC (cos kx) (- sin kx).
Proof. now rewrite cexp_phase, cos_neg, sin_neg. Qed.

(** What the loop over the Fourier cells leaves in each owned cell. *)
Lemma direct_summation_cells (Ngrid : nat) (part : list Particle) (ind : nat) :
  let fresh := FFTWGrid_new Ngrid 1 1 in
  (ind < length (cdelta fresh))%nat ->
  cdelta (direct_summation_grid FFTWGrid_new ThisTask N Ngrid part) !! ind
  = Some (code_direct_delta N ThisTask fresh part ind).
Proof.
  intros fresh Hind. unfold direct_summation_grid. fold fresh.
  pose proof (fold_cells
    (fun g i (_ : C) =>
       code_direct_delta N ThisTask g part i) fresh) as Hfold.
  cbv zeta in Hfold. destruct Hfold as [_ Hc].
  { intros ga gb i x Hh. unfold code_direct_delta.
    now rewrite (wavevector_same_header N ga gb). }
  rewrite <- (fold_left_ext
    (fun g i => set_fourier_from_index g i (code_direct_delta N ThisTask g part i))
    (direct_summation_cell ThisTask N part (1 / INR (length part)))) in *.
  - rewrite Hc, list_lookup_imap.
    destruct (lookup_lt_is_Some_2 (cdelta fresh) ind Hind) as [x Hx].
    now rewrite Hx.
  - intros g i. unfold direct_summation_cell, code_direct_delta, phase_sum.
    cbv zeta. do 2 f_equal.
    assert (Hsum :
      mkC (sumR (fun p => Re (cexp (scale Ci
              (- dot N (get_fourier_wavevector_from_index N g i) (get_pos p)))))
             part)
          (sumR (fun p => Im (cexp (scale Ci
              (- dot N (get_fourier_wavevector_from_index N g i) (get_pos p)))))
             part)
      = mkC (sumR (fun p => cos (dot N (get_fourier_wavevector_from_index N g i)
                                   (get_pos p))) part)
            (sumR (fun p => - sin (dot N (get_fourier_wavevector_from_index N g i)
                                     (get_pos p))) part)).
    { f_equal; apply sumR_ext; intros p _;
        now rewrite direct_summation_phase. }
    now rewrite Hsum.
Qed.

(** The rest of the call: the grid is binned and [1/NumPart] is taken from
    every bin. *)
Lemma direct_summation_binning (Ngrid : nat) (part : list Particle)
    (pofk0 : PowerSpectrumBinning) :
  (0 < Ngrid)%nat ->
  compute_power_spectrum_direct_summation normalize FFTWGrid_new ThisTask N
    Ngrid part pofk0
  = (let! binned :=
       bin_up_power_spectrum normalize N
         (direct_summation_grid FFTWGrid_new ThisTask N Ngrid part) pofk0 in
     ret (subtract_shot_noise (1 / INR (length part)) binned)).
Proof.
  intros H. unfold compute_power_spectrum_direct_summation.
  apply Nat.ltb_lt in H. now rewrite H.
Qed.

Lemma subtract_shot_noise_bins (s : R) (b : PowerSpectrumBinning) (i : nat) (x : R) :
  (i < n b)%nat -> pofk b !! i = Some x ->
  pofk (subtract_shot_noise s b) !! i = Some (x - s)
  /\ kbin (subtract_shot_noise s b) = kbin b
  /\ count (subtract_shot_noise s b) = count b.
Proof.
  intros Hi Hx. unfold subtract_shot_noise, set_pofk. cbn [pofk kbin count].
  rewrite list_lookup_imap, Hx. apply Nat.ltb_lt in Hi.
  cbn [fmap option_fmap option_map]. now rewrite Hi.
Qed.

Lemma sumR_const {A} (c : R) (l : list A) :
  sumR (fun _ => c) l = INR (length l) * c.
Proof.
  induction l as [|a l IH]; [rewrite sumR_nil; cbn [length INR]; lra|].
  rewrite sumR_cons, IH. cbn [length]. rewrite S_INR. lra.
Qed.

Lemma phase_sum_at_origin (kvec : list R) (part : list Particle) :
  Forall (fun k => k = 0) kvec ->
  phase_sum N kvec part = mkC (INR (length part)) 0.
Proof.
  intros H. unfold phase_sum. f_equal.
  - rewrite (sumR_ext _ (fun _ => 1)).
    + rewrite sumR_const. lra.
    + intros p _. rewrite dot_zero_l by assumption. apply cos_0.
  - apply sumR_zero. intros p _. rewrite dot_zero_l by assumption.
    rewrite sin_0. lra.
Qed.

(** The amplitude at the [k = 0] index of the task that owns it: the code
    leaves [(NumPart - 1) / NumPart], the specification's wording gives 0. *)
Lemma direct_summation_DC (g : FFTWGrid) (part : list Particle) :
  Local_x_start g = 0%nat -> part <> [] ->
  code_direct_delta N 0 g part 0 = mkC (1 - 1 / INR (length part)) 0
  /\ spec_direct_delta N 0 g part 0 = mkC 0 0.
Proof.
  intros Hx Hpart.
  assert (Hn : INR (length part) <> 0).
  { apply not_0_INR. destruct part; [contradiction | discriminate]. }
  unfold code_direct_delta, spec_direct_delta.
  rewrite phase_sum_at_origin by now apply wavevector_at_origin.
  cbn [Nat.eqb andb]. unfold sub, scale, of_real. cbn [Re Im].
  split; f_equal; field; assumption.
Qed.

(** *** Interlacing *)

(** In exact arithmetic the shift back undoes the shift, the periodic wrap
    included. *)
Lemma shift_roundtrip (shift : R) (p : Particle) :
  Forall (fun x => 0 <= x < 1) (get_pos p) ->
  shift_back N exact shift (shift_forward N exact shift p) = p.
Proof.
  destruct p as [pos vel].
  unfold shift_back, shift_forward, set_pos, shift_positions,
    unshift_positions.
  cbn [get_pos get_vel exact rounded fadd fsub fle flt one zero].
  intros Hpos. f_equal.
  apply list_eq. intros i. rewrite !list_lookup_imap.
  destruct (pos !! i) as [x|] eqn:Hx; [|reflexivity].
  cbn [fmap option_fmap option_map]. f_equal.
  pose proof (proj1 (Forall_lookup _ _) Hpos i x Hx) as Hr. cbv beta in Hr.
  destruct (i <? N)%nat; [|reflexivity].
  destruct (i =? 0)%nat; [lra|]. cbv zeta.
  destruct (Rle_dec 1 (x + shift)) as [Hw|Hw].
  - rewrite Rleb_true, Rltb_true by lra. lra.
  - rewrite Rleb_false, Rltb_false by lra. lra.
Qed.

(** **** With rounding

    The standard model of floating-point arithmetic: the computed result
    of an operation is its exact result moved by a relative error of at
    most [u].  [rnd] is such a rounding; for a double, rounded to nearest,
    [u = 2^-53].  The model holds for the quotient, the sums and the
    differences that the two loops form: none overflows, and a sum or a
    difference of two doubles that falls among the subnormal numbers is
    exact. *)
Section Rounding.

Variable rnd : R -> R.
Variable u : R.
Hypothesis u_small : 0 <= u <= 1 / 16.
Hypothesis rnd_model : forall v : R, Rabs (rnd v - v) <= u * Rabs v.

Lemma rnd_near (v B : R) :
  Rabs v <= B -> - (u * B) <= rnd v - v <= u * B.
Proof using u_small rnd_model.
  intros HB. pose proof (rnd_model v) as Hv.
  assert (Hle : Rabs (rnd v - v) <= u * B).
  { apply Rle_trans with (u * Rabs v); [exact Hv|].
    apply Rmult_le_compat_l; [lra | exact HB]. }
  unfold Rabs in Hle. destruct (Rcase_abs (rnd v - v)); lra.
Qed.

Lemma Rabs_bound (v B : R) : - B <= v <= B -> Rabs v <= B.
Proof. intros H. apply Rabs_le. exact H. Qed.

(** [shift = 1.0/double(2*Ngrid)] lies between 0 and 1. *)
Lemma interlacing_shift_range (Ngrid : nat) :
  (0 < Ngrid)%nat -> 0 <= interlacing_shift (rounded rnd) Ngrid <= 1.
Proof using u_small rnd_model.
  intros Hgrid. unfold interlacing_shift.
  cbn [rounded fdiv one of_int].
  assert (Hn : 2 <= INR (2 * Ngrid)).
  { apply (le_INR 2). lia. }
  set (n2 := INR (2 * Ngrid)) in *.
  pose proof (rnd_near n2 n2 ltac:(rewrite Rabs_pos_eq; lra)) as Hr.
  set (r := rnd n2) in *.
  assert (Hun : u * n2 <= 1 / 16 * n2).
  { apply Rmult_le_compat_r; lra. }
  assert (Hr1 : 15 / 8 <= r) by lra.
  set (t := 1 / r).
  assert (Ht : 0 < t <= 8 / 15).
  { subst t. split.
    - apply Rdiv_lt_0_compat; lra.
    - apply (Rmult_le_reg_r r); [lra|]. unfold Rdiv.
      rewrite Rmult_assoc, Rinv_l by lra. lra. }
  pose proof (rnd_near t t ltac:(rewrite Rabs_pos_eq; lra)) as Hs.
  assert (Hut : 0 <= u * t <= 1 / 16 * t).
  { split; [apply Rmult_le_pos; lra | apply Rmult_le_compat_r; lra]. }
  lra.
Qed.

(** The first coordinate, which is not wrapped. *)
Lemma coordinate_roundtrip_first (s x : R) :
  0 <= s <= 1 -> 0 <= x < 1 ->
  Rabs (rnd (rnd (x + s) - s) - x) <= 8 * u.
Proof using u_small rnd_model.
  intros Hs Hx.
  pose proof (rnd_near (x + s) 2 ltac:(apply Rabs_bound; lra)) as H1.
  set (x1 := rnd (x + s)) in *.
  pose proof (rnd_near (x1 - s) 2 ltac:(apply Rabs_bound; lra)) as H2.
  apply Rabs_bound. lra.
Qed.

(** The other coordinates: the shift with its wrap, then the shift back
    with its wrap.  The result is near the coordinate itself or, when one
    wrap is taken without the other, near the same point one period
    away; that happens only within the rounding error of an edge of the
    box. *)
Lemma coordinate_roundtrip_wrapped (s x : R) :
  0 <= s <= 1 -> 0 <= x < 1 ->
  let x1 := rnd (x + s) in
  let x1' := if Rleb 1 x1 then rnd (x1 - 1) else x1 in
  let x2 := rnd (x1' - s) in
  let y := if Rltb x2 0 then rnd (x2 + 1) else x2 in
  Rabs (y - x) <= 8 * u
  \/ (1 - 8 * u <= x /\ Rabs (y - (x - 1)) <= 8 * u)
  \/ (x <= 8 * u /\ Rabs (y - (x + 1)) <= 8 * u).
Proof using u_small rnd_model.
  intros Hs Hx. cbv zeta.
  pose proof (rnd_near (x + s) 2 ltac:(apply Rabs_bound; lra)) as H1.
  set (x1 := rnd (x + s)) in *.
  destruct (Rle_dec 1 x1) as [Hw|Hw].
  - rewrite Rleb_true by lra.
    pose proof (rnd_near (x1 - 1) 2 ltac:(apply Rabs_bound; lra)) as H2.
    set (x1' := rnd (x1 - 1)) in *.
    pose proof (rnd_near (x1' - s) 2 ltac:(apply Rabs_bound; lra)) as H3.
    set (x2 := rnd (x1' - s)) in *.
    destruct (Rlt_dec x2 0) as [Hb|Hb].
    + rewrite Rltb_true by lra.
      pose proof (rnd_near (x2 + 1) 2 ltac:(apply Rabs_bound; lra)) as H4.
      left. apply Rabs_bound. lra.
    + rewrite Rltb_false by lra.
      right. left. split; [lra | apply Rabs_bound; lra].
  - rewrite Rleb_false by lra.
    pose proof (rnd_near (x1 - s) 2 ltac:(apply Rabs_bound; lra)) as H3.
    set (x2 := rnd (x1 - s)) in *.
    destruct (Rlt_dec x2 0) as [Hb|Hb].
    + rewrite Rltb_true by lra.
      pose proof (rnd_near (x2 + 1) 2 ltac:(apply Rabs_bound; lra)) as H4.
      right. right. split; [lra | apply Rabs_bound; lra].
    + rewrite Rltb_false by lra.
      left. apply Rabs_bound. lra.
Qed.

(** C9. With positions in the unit box and every addition and subtraction
    rounded with a relative error of at most [u] (a double has
    [u = 2^-53]), the particles that [compute_power_spectrum_interlacing]
    leaves behind are the particles it was given up to rounding: as many
    particles, the same velocities, the coordinates beyond the dimension
    untouched, the first coordinate within [8 u] of its value on entry,
    and every other coordinate within [8 u] of its value on entry or, for
    a coordinate within [8 u] of an edge of the box, of that value moved
    by one period of the box.  The shift by [1/(2 Ngrid)] made for the
    second scatter is undone, the periodic wrap included, but not bit for
    bit. *)
Theorem interlacing_restores_positions_up_to_rounding (Ngrid : nat)
    (part : list Particle) (NumPartTotal : nat) (pofk : PowerSpectrumBinning)
    (method : string) :
  (0 < Ngrid)%nat ->
  Forall (fun p => Forall (fun x => 0 <= x < 1) (get_pos p)) part ->
  let part' :=
    fst (compute_power_spectrum_interlacing normalize FFTWGrid_new
           particles_to_grid fftw_r2c deconvolve_window_function_fourier
           get_extra_slices_needed_for_density_assignment N (rounded rnd)
           Ngrid part NumPartTotal pofk method) in
  length part' = length part
  /\ forall (i idim : nat) (p : Particle) (x : R),
       part !! i = Some p -> get_pos p !! idim = Some x ->
       exists (p' : Particle) (y : R),
         part' !! i = Some p' /\ get_vel p' = get_vel p
         /\ length (get_pos p') = length (get_pos p)
         /\ get_pos p' !! idim = Some y
         /\ ((N <= idim)%nat -> y = x)
         /\ (idim = 0%nat -> Rabs (y - x) <= 8 * u)
         /\ (Rabs (y - x) <= 8 * u
             \/ (1 - 8 * u <= x /\ Rabs (y - (x - 1)) <= 8 * u)
             \/ (x <= 8 * u /\ Rabs (y - (x + 1)) <= 8 * u)).
Proof using u_small rnd_model.
  intros Hgrid Hbox part'. subst part'.
  unfold compute_power_spectrum_interlacing, interlacing_grids.
  destruct (get_extra_slices_needed_for_density_assignment method)
    as [nleft nright].
  cbn [fst part_final].
  pose proof (interlacing_shift_range Ngrid Hgrid) as Hs.
  set (s := interlacing_shift (rounded rnd) Ngrid) in *.
  split; [now rewrite !length_map|].
  intros i idim p x Hp Hx.
  exists (shift_back N (rounded rnd) s (shift_forward N (rounded rnd) s p)).
  rewrite !list_lookup_fmap, Hp. cbn [fmap option_fmap option_map].
  unfold shift_back, shift_forward, set_pos, shift_positions,
    unshift_positions.
  cbn [get_pos get_vel rounded fadd fsub fle flt one zero].
  rewrite !list_lookup_imap, Hx. cbn [fmap option_fmap option_map].
  rewrite !length_imap.
  assert (Hr : 0 <= x < 1).
  { pose proof (proj1 (Forall_lookup _ _) Hbox i p Hp) as Hpos.
    cbv beta in Hpos.
    exact (proj1 (Forall_lookup _ _) Hpos idim x Hx). }
  assert (Hzero : Rabs (x - x) <= 8 * u).
  { replace (x - x) with 0 by lra. rewrite Rabs_R0. lra. }
  destruct (Nat.ltb_spec idim N) as [Hlt|Hge].
  - destruct (Nat.eqb_spec idim 0) as [H0|H0].
    + pose proof (coordinate_roundtrip_first s x Hs Hr) as Hfirst.
      eexists. split; [reflexivity|]. split; [reflexivity|].
      split; [reflexivity|]. split; [reflexivity|].
      split; [lia|]. split; [intros _; exact Hfirst | left; exact Hfirst].
    + pose proof (coordinate_roundtrip_wrapped s x Hs Hr) as Hwrap.
      cbv zeta in Hwrap.
      eexists. split; [reflexivity|]. split; [reflexivity|].
      split; [reflexivity|]. split; [reflexivity|].
      split; [lia|]. split; [lia | exact Hwrap].
  - exists x. split; [reflexivity|]. split; [reflexivity|].
    split; [reflexivity|]. split; [reflexivity|].
    split; [reflexivity|]. split; [intros _; exact Hzero | left; exact Hzero].
Qed.

End Rounding.

(** **** The mean of the two grids *)

Lemma sumR_seq_succ (f : nat -> R) (a len : nat) :
  sumR f (seq (S a) len) = sumR (fun i => f (S i)) (seq a len).
Proof.
  revert a. induction len as [|len IH]; intros a; [reflexivity|].
  cbn [seq]. now rewrite !sumR_cons, IH.
Qed.

(** The sum that the loop over [idim < N] accumulates is the sum of the
    components when the wavevector has [N] of them. *)
Lemma ksum_of_components (kvec : list R) :
  length kvec = N -> ksum_of N kvec = spec_ksum kvec.
Proof.
  intros <-. unfold ksum_of, spec_ksum.
  induction kvec as [|k kvec IH]; [reflexivity|].
  cbn [length seq fold_right]. rewrite sumR_cons, sumR_seq_succ.
  cbn [nth]. now rewrite IH.
Qed.

Lemma middle_coords_length (nmesh m q : nat) :
  length (fst (middle_coords nmesh m q)) = m.
Proof.
  revert q. induction m as [|m IH]; intros q; [reflexivity|].
  cbn [middle_coords]. specialize (IH (q / nmesh)%nat).
  destruct (middle_coords nmesh m (q / nmesh)) as [cs top].
  cbn [fst length] in *. now rewrite IH.
Qed.

Lemma wavevector_of_coord_length (nmesh : nat) (coord : list nat) :
  length (wavevector_of_coord nmesh coord) = length coord.
Proof.
  induction coord as [|j rest IH]; [reflexivity|].
  cbn [wavevector_of_coord]. destruct rest as [|j' rest']; [reflexivity|].
  cbn [length] in *. now rewrite IH.
Qed.

(** A wavevector has [N] components. *)
Lemma wavevector_length (g : FFTWGrid) (ind : nat) :
  (2 <= N)%nat -> length (get_fourier_wavevector_from_index N g ind) = N.
Proof.
  intros HN. unfold get_fourier_wavevector_from_index, fourier_coord.
  rewrite wavevector_of_coord_length.
  pose proof (middle_coords_length (Nmesh g) (N - 2)
                (ind / (Nmesh g / 2 + 1))) as Hmid.
  destruct (middle_coords _ _ _) as [mid top]. cbn [fst] in Hmid.
  cbn [length]. rewrite length_app, length_rev, Hmid. cbn [length]. lia.
Qed.

Lemma interlace_phase (ksum : R) (Ngrid : nat) :
  cexp (scale (scale Ci ksum) (1 / INR (2 * Ngrid)))
  = mkC (cos (ksum / (2 * INR Ngrid))) (sin (ksum / (2 * INR Ngrid))).
Proof.
  replace (scale (scale Ci ksum) (1 / INR (2 * Ngrid)))
    with (scale Ci (ksum / (2 * INR Ngrid))).
  - apply cexp_phase.
  - unfold scale, Ci. cbn [Re Im]. rewrite mult_INR.
    replace (INR 2) with 2 by (simpl; lra).
    f_equal; unfold Rdiv; ring.
Qed.

Lemma interlace_cell_spec (Ngrid : nat) (g2 g : FFTWGrid) (ind : nat) :
  (2 <= N)%nat ->
  divr
    (add (get_fourier_from_index g ind)
       (mul (cexp (scale (scale Ci
                            (ksum_of N (get_fourier_wavevector_from_index N g ind)))
                     (1 / INR (2 * Ngrid))))
          (get_fourier_from_index g2 ind))) 2
  = spec_interlaced_delta N Ngrid g g2 ind.
Proof.
  intros HN. rewrite interlace_phase. unfold spec_interlaced_delta.
  rewrite (ksum_of_components _ (wavevector_length g ind HN)).
  set (z := add _ _). unfold divr, scale. f_equal; lra.
Qed.

(** C5. In dimension [N >= 2], with doubles read as real numbers,
    [compute_power_spectrum_interlacing] scatters the particles twice, the
    second time with every position component moved by [+1/(2 Ngrid)]
    (less 1 on the axes after the first when that reaches 1, the periodic
    wrap, and with the velocities as they were); after the two
    forward transforms every owned Fourier cell of the first grid holds
    [(1/2) (G1(k) + exp(i (sum_j k_j) / (2 Ngrid)) G2(k))], where the
    [k_j] are the components of the wavevector of the cell; the window is
    then deconvolved once, on that grid, and the result is binned. *)
Theorem interlacing_mean_of_two_grids (Ngrid : nat) (part : list Particle)
    (NumPartTotal : nat) (pofk : PowerSpectrumBinning) (method : string) :
  (0 < Ngrid)%nat -> (2 <= N)%nat ->
  let slices := get_extra_slices_needed_for_density_assignment method in
  let fresh := FFTWGrid_new Ngrid (fst slices) (snd slices + 1) in
  let shift := 1 / (2 * INR Ngrid) in
  let st :=
    interlacing_grids FFTWGrid_new particles_to_grid fftw_r2c
      get_extra_slices_needed_for_density_assignment N exact
      Ngrid part NumPartTotal method in
  G1 st = fftw_r2c (particles_to_grid part NumPartTotal fresh method)
  /\ G2 st
     = fftw_r2c (particles_to_grid (part_shifted st) NumPartTotal fresh method)
  /\ length (part_shifted st) = length part
  /\ (forall (i idim : nat) (p : Particle) (x : R),
        part !! i = Some p -> get_pos p !! idim = Some x -> (idim < N)%nat ->
        exists p' x',
          part_shifted st !! i = Some p' /\ get_pos p' !! idim = Some x'
          /\ get_vel p' = get_vel p
          /\ (idim = 0%nat \/ x + shift < 1 -> x' = x + shift)
          /\ (idim <> 0%nat -> 1 <= x + shift -> x' = x + shift - 1))
  /\ (forall ind : nat, (ind < length (cdelta (G1 st)))%nat ->
        cdelta (G_mean st) !! ind
        = Some (spec_interlaced_delta N Ngrid (G1 st) (G2 st) ind))
  /\ snd (compute_power_spectrum_interlacing normalize FFTWGrid_new
            particles_to_grid fftw_r2c deconvolve_window_function_fourier
            get_extra_slices_needed_for_density_assignment N exact
            Ngrid part NumPartTotal pofk method)
     = (let! binned :=
          bin_up_power_spectrum normalize N
            (deconvolve_window_function_fourier (G_mean st) method) pofk in
        ret (subtract_shot_noise (1 / INR NumPartTotal) binned)).
Proof.
  intros _ HN slices fresh shift st.
  assert (Hshift : 1 / INR (2 * Ngrid) = shift).
  { subst shift. rewrite mult_INR. now replace (INR 2) with 2 by (simpl; lra). }
  subst st. unfold compute_power_spectrum_interlacing, interlacing_grids.
  change (interlacing_shift exact Ngrid) with (1 / INR (2 * Ngrid)).
  subst fresh slices.
  destruct (get_extra_slices_needed_for_density_assignment method)
    as [nleft nright].
  cbn [fst snd G1 G2 G_mean part_shifted part_final].
  split; [reflexivity|]. split; [reflexivity|].
  split; [apply length_map|].
  split.
  { intros i idim p x Hp Hx Hidim.
    exists (shift_forward N exact (1 / INR (2 * Ngrid)) p).
    rewrite list_lookup_fmap, Hp. cbn [fmap option_fmap option_map].
    unfold shift_forward, set_pos, shift_positions.
    cbn [get_pos get_vel exact rounded fadd fsub fle one].
    rewrite list_lookup_imap, Hx. cbn [fmap option_fmap option_map].
    apply Nat.ltb_lt in Hidim. rewrite Hidim, Hshift.
    destruct (Nat.eqb_spec idim 0) as [H0|H0].
    - exists (x + shift). split; [reflexivity|]. split; [reflexivity|].
      split; [reflexivity|]. split; [reflexivity | contradiction].
    - cbv zeta. destruct (Rle_dec 1 (x + shift)) as [Hw|Hw].
      + rewrite Rleb_true by exact Hw.
        exists (x + shift - 1). split; [reflexivity|]. split; [reflexivity|].
        split; [reflexivity|]. split; [|reflexivity].
        intros [Hz|Hlt]; [contradiction | lra].
      + rewrite Rleb_false by lra.
        exists (x + shift). split; [reflexivity|]. split; [reflexivity|].
        split; [reflexivity|]. split; [reflexivity|].
        intros _ Hge. lra. }
  split; [|reflexivity].
  intros ind Hind.
  set (g2 := fftw_r2c (particles_to_grid (map _ _) _ _ _)) in *.
  set (g1 := fftw_r2c _) in *.
  pose proof (fold_cells
    (fun g i x =>
       divr (add x
               (mul (cexp (scale (scale Ci
                                    (ksum_of N
                                       (get_fourier_wavevector_from_index N g i)))
                             (1 / INR (2 * Ngrid))))
                  (get_fourier_from_index g2 i))) 2) g1) as Hfold.
  cbv zeta in Hfold.
  destruct Hfold as [_ Hc].
  { intros ga gb i x Hh. now rewrite (wavevector_same_header N ga gb). }
  unfold interlace_cell. cbv zeta. rewrite Hc, list_lookup_imap.
  destruct (lookup_lt_is_Some_2 (cdelta g1) ind Hind) as [x Hx].
  rewrite Hx. cbn [fmap option_fmap option_map]. f_equal.
  rewrite <- (interlace_cell_spec Ngrid g2 g1 ind HN).
  unfold get_fourier_from_index at 2.
  now rewrite Hx.
Qed.

End PowerSpectrumFacts.

(** *** The statements above on concrete inputs *)

Lemma sqrt_below (x b : R) : 0 <= x < b * b -> 0 <= b -> 0 <= sqrt x < b.
Proof.
  intros [H0 H1] Hb. split; [apply sqrt_pos|].
  rewrite <- (sqrt_square b) by exact Hb.
  apply sqrt_lt_1_alt. split; assumption.
Qed.

(** Every mode of [grid3] falls in the bin of [one_bin]. *)
Lemma grid3_modes_in_bin (ind : nat) :
  (ind < 6)%nat ->
  bin_of Inputs3.one_bin
    (snd (get_fourier_wavevector_and_norm_by_index 2 Inputs3.grid3 ind))
  = Some 0%nat.
Proof.
  intros Hind. unfold get_fourier_wavevector_and_norm_by_index. cbn [snd].
  assert (Hk : 0 <= sqrt (norm2 (get_fourier_wavevector_from_index 2
                                   Inputs3.grid3 ind)) < 100).
  { apply sqrt_below; [|lra].
    pose proof PI_RGT_0 as Hpi0. pose proof PI_4 as Hpi4.
    assert (Hpp : 0 <= PI * PI <= 16) by nra.
    do 6 (destruct ind as [|ind]; [unfold norm2, sumR; cbn; nra|]).
    lia. }
  cbn [Inputs3.one_bin bin_of].
  now rewrite Rleb_true, Rltb_true by lra.
Qed.

Lemma sumR_hits (p : PowerSpectrumBinning) (k f : nat -> R) (b : nat)
    (cells : list nat) :
  (forall ind, In ind cells -> bin_of p (k ind) = Some b) ->
  sumR (fun ind => if decide (bin_of p (k ind) = Some b) then f ind else 0)
    cells
  = sumR f cells.
Proof.
  intros H. apply sumR_ext. intros ind Hin.
  destruct (decide (bin_of p (k ind) = Some b)) as [_|Hne];
    [reflexivity | now specialize (H ind Hin)].
Qed.

(** C1. On a mesh of odd size the loop gives the weight 1 to an interior
    plane of the packed axis.  For the 3 x 3 grid [grid3], whose six stored
    cells stand for nine modes, and a binning of one bin that holds them
    all: the call passes its assertions and returns the normalised result
    of the loop; the cell 1 lies on the plane [c = 1], which has
    [0 < c < Nmesh/2 = 3/2], so that the specification gives it the weight
    2, and the loop gives it the weight 1; the loop counts 6 modes with
    the power 15 in all, where the weights of the specification count the
    9 modes with the power 27. *)
Theorem bin_up_power_spectrum_odd_mesh :
  let g := Inputs3.grid3 in
  let coded := PowerSpectrum.bin_up_loop 2 g Inputs3.one_bin in
  let stated := PowerSpectrum.spec_bin_up 2 g Inputs3.one_bin in
  (forall normalize : PowerSpectrumBinning -> PowerSpectrumBinning,
     PowerSpectrum.bin_up_power_spectrum normalize 2 g Inputs3.one_bin
     = inr (normalize coded))
  /\ packed_coord 2 g 1 = 1%nat
  /\ 0 < INR 1 < INR (Nmesh g) / 2
  /\ PowerSpectrum.spec_weight 2 g 1 = Some 2
  /\ PowerSpectrum.mode_weight (Nmesh g) 1 = 1
  /\ count coded !! 0%nat = Some 6 /\ pofk coded !! 0%nat = Some 15
  /\ count stated !! 0%nat = Some 9 /\ pofk stated !! 0%nat = Some 27.
Proof.
  cbv zeta.
  assert (Hcells : forall ind, In ind (seq 0 6) ->
            bin_of Inputs3.one_bin
              (snd (get_fourier_wavevector_and_norm_by_index 2 Inputs3.grid3
                      ind)) = Some 0%nat).
  { intros ind Hin. apply grid3_modes_in_bin. apply in_seq in Hin. lia. }
  split.
  { intros normalize. apply bin_up_power_spectrum_returns; cbn; try lia; lra. }
  destruct (mode_weight_odd_mesh 2 Inputs3.grid3 1 eq_refl ltac:(cbn; lia)
              eq_refl) as (Hplane & Hspec & Hcode).
  split; [reflexivity|]. split; [exact Hplane|]. split; [exact Hspec|].
  split; [exact Hcode|].
  destruct (bin_up_loop_totals 2 Inputs3.grid3 Inputs3.one_bin 0
              ltac:(cbn; lia) ltac:(cbn; lia) ltac:(cbn; lia))
    as [Hpofk Hcount].
  destruct (spec_bin_up_totals 2 Inputs3.grid3 Inputs3.one_bin 0
              ltac:(cbn; lia) ltac:(cbn; lia) ltac:(cbn; lia))
    as [Hpofk' Hcount'].
  cbv zeta in Hpofk, Hcount, Hpofk', Hcount'.
  rewrite Hcount, Hpofk, Hcount', Hpofk'.
  change (get_fourier_range Inputs3.grid3) with (seq 0 6).
  change (ntot_fourier 2 Inputs3.grid3) with 6%nat.
  rewrite !sumR_hits by exact Hcells.
  clear. unfold sumR, norm. cbn.
  repeat split; f_equal; lra.
Qed.

(** The rounding [round_up] has a relative error of [2^-53]. *)
Lemma round_up_model (v : R) :
  Rabs (Inputs3.round_up v - v) <= Inputs3.unit_roundoff * Rabs v.
Proof.
  unfold Inputs3.round_up.
  replace (v * (1 + Inputs3.unit_roundoff) - v)
    with (Inputs3.unit_roundoff * v) by ring.
  rewrite Rabs_mult, (Rabs_pos_eq Inputs3.unit_roundoff).
  - lra.
  - unfold Inputs3.unit_roundoff. lra.
Qed.

Lemma interlacing_restores_positions_up_to_rounding_witness :
  exists (p' : Particle) (y : R),
    fst (PowerSpectrum.compute_power_spectrum_interlacing Inputs.normalize0
           Inputs.FFTWGrid_new2 Inputs.particles_to_grid0 Inputs.fftw_r2c0
           Inputs.deconvolve0 Inputs.slices0 2
           (Doubles.rounded Inputs3.round_up) 2 Inputs.part2 2 Inputs.pofk2
           "CIC") !! 1%nat = Some p'
    /\ get_pos p' !! 0%nat = Some y
    /\ Rabs (y - 1 / 2) <= 8 * Inputs3.unit_roundoff.
Proof.
  destruct (interlacing_restores_positions_up_to_rounding Inputs.normalize0
              Inputs.FFTWGrid_new2 Inputs.particles_to_grid0 Inputs.fftw_r2c0
              Inputs.deconvolve0 Inputs.slices0 2
              Inputs3.round_up Inputs3.unit_roundoff
              ltac:(unfold Inputs3.unit_roundoff; lra) round_up_model
              2 Inputs.part2 2 Inputs.pofk2 "CIC" ltac:(lia)
              ltac:(unfold Inputs.part2; repeat constructor; cbn [get_pos]; lra))
    as [_ Hall].
  destruct (Hall 1%nat 0%nat (mkParticle [1 / 2; 1 / 2] [0; 0]) (1 / 2)
              eq_refl eq_refl)
    as (p' & y & Hp' & _ & _ & Hy & _ & Hfirst & _).
  exists p', y. split; [exact Hp'|]. split; [exact Hy|].
  apply Hfirst. reflexivity.
Defined.

(** In the arithmetic of a double the two loops do not give the positions
    back.  For [Ngrid = 5] the shift is the double nearest to 0.1; a
    particle at [(0.3, 0.95)] in two dimensions is left at
    [(0.30000000000000004, 0.95000000000000007)], one unit in the last
    place above where it was, on the first axis and on the wrapped one. *)
Lemma interlacing_positions_not_restored :
  let shift := PowerSpectrum.interlacing_shift Doubles.binary64 5 in
  let pos := [Doubles.d_0_3; Doubles.d_0_95] in
  let pos' :=
    PowerSpectrum.unshift_positions Doubles.binary64 2 shift
      (PowerSpectrum.shift_positions Doubles.binary64 2 shift pos) in
  pos' = [Doubles.d_0_3_up; Doubles.d_0_95_up] /\ pos' <> pos.
Proof.
  cbv zeta. split.
  - vm_compute. reflexivity.
  - intros H.
    apply (f_equal (fun l => match l with
                             | x :: _ => PrimFloat.eqb x Doubles.d_0_3
                             | [] => true
                             end)) in H.
    vm_compute in H. discriminate.
Qed.

Lemma interlacing_mean_of_two_grids_witness :
  cdelta (PowerSpectrum.G_mean
            (PowerSpectrum.interlacing_grids Inputs.FFTWGrid_new2
               Inputs3.particles_to_grid1 Inputs.fftw_r2c0 Inputs.slices0 2
               Doubles.exact 2 Inputs3.part1 1 "CIC")) !! 1%nat
  = Some (mkC (1 / 4) (3 / 8)).
Proof.
  destruct (interlacing_mean_of_two_grids Inputs.normalize0
              Inputs.FFTWGrid_new2 Inputs3.particles_to_grid1 Inputs.fftw_r2c0
              Inputs.deconvolve0 Inputs.slices0 2 2 Inputs3.part1 1
              Inputs.pofk2 "CIC" ltac:(lia) ltac:(lia))
    as (HG1 & HG2 & _ & _ & Hmean & _).
  rewrite (Hmean 1%nat) by (rewrite HG1; cbn; lia).
  unfold PowerSpectrum.spec_interlaced_delta.
  rewrite HG2, HG1. clear.
  assert (Hshift : 1 / 2 + 1 / INR (2 * 2) < 1) by (simpl; lra).
  change (get_fourier_from_index
            (Inputs.fftw_r2c0
               (Inputs3.particles_to_grid1 Inputs3.part1 1
                  (Inputs.FFTWGrid_new2 2 (Inputs.slices0 "CIC").1
                     ((Inputs.slices0 "CIC").2 + 1)) "CIC")) 1)
    with (of_real (1 / 2)).
  change (get_fourier_wavevector_from_index 2
            (Inputs.fftw_r2c0
               (Inputs3.particles_to_grid1 Inputs3.part1 1
                  (Inputs.FFTWGrid_new2 2 (Inputs.slices0 "CIC").1
                     ((Inputs.slices0 "CIC").2 + 1)) "CIC")) 1)
    with [2 * PI * INR 0; 2 * PI * INR 1].
  change (get_fourier_from_index _ 1)
    with (of_real (let x' := 1 / 2 + 1 / INR (2 * 2) in
                   if Rleb 1 x' then x' - 1 else x')).
  cbv zeta. rewrite Rleb_false by exact Hshift.
  unfold PowerSpectrum.spec_ksum. cbn [fold_right].
  replace ((2 * PI * INR 0 + (2 * PI * INR 1 + 0)) / (2 * INR 2))
    with (PI / 2) by (simpl; field).
  rewrite cos_PI2, sin_PI2.
  unfold scale, add, mul, of_real. cbn [Re Im]. f_equal. f_equal; simpl; lra.
Defined.

(** C4. Two particles on one task, [N = 2], [Ngrid = 2]: at the [k = 0]
    index the direct summation stores [(2 - 1) / 2 = 1/2], because the 1 is
    taken from the sum over the particles before the factor [1/NumPart] is
    applied, whereas [delta(0) = (1/NumPart) sum_i exp(-i 0.x_i) - 1] is 0. *)
Theorem direct_summation_DC_amplitude :
  cdelta (PowerSpectrum.direct_summation_grid Inputs.FFTWGrid_new2 0 2 2
            Inputs.part2) !! 0%nat
  = Some (mkC (1 / 2) 0)
  /\ PowerSpectrum.spec_direct_delta 2 0 (Inputs.FFTWGrid_new2 2 1 1)
       Inputs.part2 0
     = mkC 0 0
  /\ mkC (1 / 2) 0 <> mkC 0 0.
Proof.
  pose proof (direct_summation_DC 2 (Inputs.FFTWGrid_new2 2 1 1) Inputs.part2
                eq_refl ltac:(discriminate)) as [Hcode Hspec].
  split; [|split].
  - rewrite (direct_summation_cells Inputs.FFTWGrid_new2 0 2 2 Inputs.part2 0)
      by (cbn; lia).
    rewrite Hcode. do 2 f_equal. cbn [Inputs.part2 length INR]. lra.
  - exact Hspec.
  - intros H. injection H as H. lra.
Qed.
(** ** Multipoles *)
Section MultipolesFacts.
Import Multipoles.

Variable normalize : PowerSpectrumBinning -> PowerSpectrumBinning.
Variable FFTWGrid_new : nat -> nat -> nat -> FFTWGrid.
Variable particles_to_grid :
  list Particle -> nat -> FFTWGrid -> string -> FFTWGrid.
Variable fftw_r2c : FFTWGrid -> FFTWGrid.
Variable deconvolve_window_function_fourier : FFTWGrid -> string -> FFTWGrid.
Variable get_extra_slices_needed_for_density_assignment : string -> nat * nat.
Variable communicate_particles : list Particle -> list Particle.
Variable N : nat.

(** *** The binomial coefficient of the code *)

Lemma fold_mul_div (a b : nat -> R) (l : list nat) (x y : R) :
  fold_left (fun res i => res * (a i / b i)) l (x / y)
  = fold_left (fun res i => res * a i) l x
    / fold_left (fun res i => res * b i) l y.
Proof.
  revert x y. induction l as [|i l IH]; intros x y; cbn [fold_left].
  - reflexivity.
  - rewrite <- IH. f_equal. unfold Rdiv. rewrite Rinv_mult. ring.
Qed.

(** [n (n-1) ... (n-k+1) (n-k)! = n!] *)
Lemma falling_factorial (n k : nat) :
  (k <= n)%nat ->
  fold_left (fun res i => res * (INR n - INR i)) (seq 0 k) 1
    * INR (fact (n - k))
  = INR (fact n).
Proof.
  induction k as [|k IH]; intros Hk.
  - cbn [seq fold_left]. rewrite Nat.sub_0_r. lra.
  - rewrite seq_S, fold_left_app. cbn [fold_left Nat.add].
    rewrite <- IH by lia.
    replace (n - k)%nat with (S (n - S k)) by lia.
    rewrite fact_simpl, mult_INR, <- minus_INR by lia.
    replace (n - k)%nat with (S (n - S k)) by lia.
    ring.
Qed.

Lemma binomial_is_C (n k : nat) :
  (k <= n)%nat -> binomial n k = Binomial.C n k.
Proof.
  intros Hk. unfold binomial, Binomial.C.
  replace 1 with (1 / 1) at 1 by lra.
  rewrite (fold_mul_div (fun i => INR n - INR i) (fun i => INR k - INR i)).
  pose proof (falling_factorial n k Hk) as Hn.
  pose proof (falling_factorial k k (Nat.le_refl k)) as Hd.
  rewrite Nat.sub_diag in Hd. change (INR (fact 0)) with 1 in Hd.
  rewrite Rmult_1_r in Hd. rewrite Hd, <- Hn.
  pose proof (INR_fact_neq_0 k). pose proof (INR_fact_neq_0 (n - k)).
  field. split; assumption.
Qed.

Lemma sign_is_power (k : nat) :
  (if (k mod 2 =? 0)%nat then 1 else -1) = (-1) ^ k.
Proof.
  rewrite (Nat.div_mod_eq k 2) at 2.
  pose proof (Nat.mod_upper_bound k 2 ltac:(lia)) as Hr.
  destruct (k mod 2)%nat as [|[|r]] eqn:Hm; [| |lia].
  - rewrite Nat.add_0_r, pow_1_even. reflexivity.
  - replace (2 * (k / 2) + 1)%nat with (S (2 * (k / 2))) by lia.
    rewrite pow_1_odd. reflexivity.
Qed.

(** The summand of the code is the coefficient [c_{ell,m}]. *)
Lemma summand_is_coefficient (m ell : nat) :
  (m <= ell / 2)%nat ->
  summand_legendre_polynomial m ell = legendre_coefficient ell m.
Proof.
  intros Hm. unfold summand_legendre_polynomial, legendre_coefficient.
  assert (H2 : (2 * m <= ell)%nat).
  { pose proof (Nat.Div0.mul_div_le ell 2). lia. }
  cbv zeta. rewrite sign_is_power, !binomial_is_C by lia. reflexivity.
Qed.

(** *** The projection *)

Lemma fold_imap_add (g : nat -> nat -> R) (ks : list nat) (init : list R)
    (i : nat) :
  fold_left (fun sum k => imap (fun i s => s + g k i) sum) ks init !! i
  = (fun s => s + sumR (fun k => g k i) ks) <$> (init !! i).
Proof.
  revert init. induction ks as [|k ks IH]; intros init; cbn [fold_left].
  - rewrite sumR_nil. destruct (init !! i); cbn; [f_equal; lra | reflexivity].
  - rewrite IH, list_lookup_imap, sumR_cons.
    destruct (init !! i); cbn; [f_equal; lra | reflexivity].
Qed.

Lemma legendre_sum_lookup (M : list PowerSpectrumBinning) (ell i : nat) :
  (i < length (pofk (nth 0 M no_binning)))%nat ->
  legendre_sum M ell !! i
  = Some (sumR (fun m => legendre_coefficient ell m
                         * nth i (pofk (nth (ell - 2 * m) M no_binning)) 0)
            (seq 0 (ell / 2 + 1))).
Proof.
  intros Hi. unfold legendre_sum.
  rewrite (fold_imap_add
    (fun k i => nth i (pofk (nth (ell - 2 * k) M no_binning)) 0
                * summand_legendre_polynomial k ell)).
  rewrite lookup_replicate_2 by assumption.
  cbn [fmap option_fmap option_map]. f_equal.
  rewrite Rplus_0_l. apply sumR_ext. intros m Hm.
  apply in_seq in Hm. rewrite summand_is_coefficient by lia. ring.
Qed.

(** C6. The grid estimator is the accumulation of the moments followed by
    the projection, and the projection gives, for every [ell] from 0 to
    [|Pell| - 1] and every bin,
    [P_ell = sum_{m=0}^{floor(ell/2)} c_{ell,m} <|delta|^2 mu^{ell-2m}>]
    with [c_{ell,m} = (-1)^m binom(ell,m) binom(2 ell - 2 m, ell) / 2^ell];
    [kbin] and [count] are left as they are. *)
Theorem legendre_projection_coefficients (g : FFTWGrid)
    (Pell : list PowerSpectrumBinning) (los : list R)
    (others : list PowerSpectrumBinning) :
  compute_power_spectrum_multipoles normalize N g Pell los others
  = (let! M := multipole_moments normalize N g Pell los others in
     ret (legendre_projection M))
  /\ forall (M : list PowerSpectrumBinning) (nb ell i : nat),
       Forall (fun p => length (pofk p) = nb) M ->
       (ell < length M)%nat -> (i < nb)%nat ->
       length (legendre_projection M) = length M
       /\ pofk (nth ell (legendre_projection M) no_binning) !! i
          = Some (sumR (fun m => legendre_coefficient ell m
                                 * nth i (pofk (nth (ell - 2 * m) M no_binning)) 0)
                    (seq 0 (ell / 2 + 1)))
       /\ kbin (nth ell (legendre_projection M) no_binning)
          = kbin (nth ell M no_binning)
       /\ count (nth ell (legendre_projection M) no_binning)
          = count (nth ell M no_binning).
Proof.
  split; [reflexivity|].
  intros M nb ell i Hlen Hell Hi.
  assert (Hnth : nth ell (legendre_projection M) no_binning
                 = set_pofk (nth ell M no_binning) (legendre_sum M ell)).
  { unfold legendre_projection.
    destruct (lookup_lt_is_Some_2 M ell Hell) as [p Hp].
    rewrite (nth_lookup_Some _ _ _ _ Hp).
    apply nth_lookup_Some.
    rewrite list_lookup_imap, Hp. cbn [fmap option_fmap option_map]. f_equal.
    f_equal. rewrite (nth_indep _ _ (legendre_sum M 0)).
    - rewrite List.map_nth. rewrite seq_nth by assumption. reflexivity.
    - rewrite length_map, length_seq. assumption. }
  split; [unfold legendre_projection; apply length_imap|].
  rewrite Hnth. cbn [set_pofk pofk kbin count].
  split; [|split; reflexivity].
  apply legendre_sum_lookup.
  assert (H0 : (0 < length M)%nat) by lia.
  destruct (lookup_lt_is_Some_2 M 0 H0) as [p0 Hp0].
  rewrite (nth_lookup_Some _ _ _ _ Hp0).
  rewrite (proj1 (Forall_lookup _ _) Hlen 0%nat p0 Hp0). assumption.
Qed.

(** *** The divisor of [mu] *)

Lemma kmag_at_origin (g : FFTWGrid) :
  Local_x_start g = 0%nat ->
  get_fourier_wavevector_and_norm_by_index N g 0
  = (get_fourier_wavevector_from_index N g 0, 0).
Proof.
  intros Hx. unfold get_fourier_wavevector_and_norm_by_index. f_equal.
  pose proof (wavevector_at_origin N g Hx) as Hz.
  unfold norm2. rewrite sumR_zero; [apply sqrt_0|].
  intros k Hk. rewrite List.Forall_forall in Hz. rewrite (Hz k Hk). lra.
Qed.

(** At local index 0 of the task that owns the plane 0, the turn of the
    loop divides [0] by [0 * rnorm]. *)
Lemma moments_cell_at_origin (g : FFTWGrid) (los : list R) (rnorm : R)
    (Pell : list PowerSpectrumBinning) :
  Local_x_start g = 0%nat ->
  moments_cell N g los rnorm Pell 0
  = add_moments 0 (norm (get_fourier_from_index g 0))
      (PowerSpectrum.mode_weight (Nmesh g) 0) (0 / (0 * rnorm)) 1 Pell.
Proof.
  intros Hx. unfold moments_cell. rewrite kmag_at_origin by assumption.
  rewrite dot_zero_l by now apply wavevector_at_origin. reflexivity.
Qed.

Lemma sumR_seq_S (f : nat -> R) (k : nat) :
  sumR f (seq 0 (S k)) = sumR f (seq 0 k) + f k.
Proof. rewrite seq_S, sumR_app, sumR_cons, sumR_nil. cbn [Nat.add]. lra. Qed.

(** The sum of an indicator over [0 .. k-1]. *)
Lemma sumR_indicator (f : nat -> R) (dir k : nat) (v : R) :
  (forall i, i <> dir -> f i = 0) -> f dir = v ->
  sumR f (seq 0 k) = if (dir <? k)%nat then v else 0.
Proof.
  intros H0 Hv. induction k as [|k IH]; [reflexivity|].
  rewrite sumR_seq_S, IH.
  destruct (Nat.ltb_spec dir k), (Nat.ltb_spec dir (S k)); try lia.
  - rewrite H0 by lia. lra.
  - replace k with dir by lia. lra.
  - rewrite H0 by lia. lra.
Qed.

Lemma nth_unit_vector (dir idim : nat) :
  (dir < N)%nat ->
  nth idim (unit_vector N dir) 0 = if (idim =? dir)%nat then 1 else 0.
Proof.
  intros Hdir. unfold unit_vector.
  destruct (Nat.eqb_spec idim dir) as [->|Hne].
  - apply nth_lookup_Some. apply list_lookup_insert_eq.
    now rewrite length_replicate.
  - destruct (decide (idim < N)%nat) as [Hi|Hi].
    + apply nth_lookup_Some. rewrite list_lookup_insert_ne by auto.
      now apply lookup_replicate_2.
    + apply nth_overflow. rewrite length_insert, length_replicate. lia.
Qed.

Lemma los_norm_unit_vector (dir : nat) :
  (dir < N)%nat -> los_norm N (unit_vector N dir) = 1.
Proof.
  intros Hdir. unfold los_norm.
  rewrite (sumR_indicator _ dir N 1).
  - apply Nat.ltb_lt in Hdir. rewrite Hdir. apply sqrt_1.
  - intros i Hi. rewrite nth_unit_vector by assumption.
    apply Nat.eqb_neq in Hi. rewrite Hi. lra.
  - rewrite nth_unit_vector, Nat.eqb_refl by assumption. lra.
Qed.

(** *** The estimator from particles *)

(** The grid estimator returns once its four assertions hold. *)
Lemma grid_multipoles_returns (g : FFTWGrid) (Pell : list PowerSpectrumBinning)
    (los : list R) (others : list PowerSpectrumBinning) :
  length los = N -> Pell <> [] -> (0 < Nmesh g)%nat -> 0 < los_norm N los ->
  exists P,
    compute_power_spectrum_multipoles normalize N g Pell los others = inr P.
Proof.
  intros Hlos Hpell Hmesh Hnorm.
  unfold compute_power_spectrum_multipoles, multipole_moments.
  apply Nat.eqb_eq in Hlos. rewrite Hlos.
  assert (Hp : (0 <? length Pell)%nat = true).
  { apply Nat.ltb_lt. destruct Pell; [contradiction | cbn; lia]. }
  rewrite Hp. apply Nat.ltb_lt in Hmesh. rewrite Hmesh.
  rewrite Rltb_true by assumption.
  cbn [assert_mpi bind ret]. eexists. reflexivity.
Qed.

Lemma reset_reset (b : PowerSpectrumBinning) : reset (reset b) = reset b.
Proof.
  unfold reset, zeroed. cbn [n kmin kmax bin_of kbin pofk count].
  now rewrite !map_map.
Qed.

Section ParticleEstimator.

Variable Ngrid NumPartTotal : nat.
Variable velocity_to_displacement : R.
Variable method : string.
Variable others : nat -> list PowerSpectrumBinning.

#[local] Abbreviation grid_of part dir :=
  (axis_grid FFTWGrid_new particles_to_grid fftw_r2c
     deconvolve_window_function_fourier
     get_extra_slices_needed_for_density_assignment communicate_particles N
     Ngrid part NumPartTotal velocity_to_displacement method dir).

#[local] Abbreviation step :=
  (axis_step normalize FFTWGrid_new particles_to_grid fftw_r2c
     deconvolve_window_function_fourier
     get_extra_slices_needed_for_density_assignment communicate_particles N
     Ngrid NumPartTotal velocity_to_displacement method others).

#[local] Abbreviation pass_of Pell0 all dir :=
  (axis_pass normalize FFTWGrid_new particles_to_grid fftw_r2c
     deconvolve_window_function_fourier
     get_extra_slices_needed_for_density_assignment communicate_particles N
     Ngrid NumPartTotal velocity_to_displacement method others Pell0 all dir).

Lemma axis_loop (Pell0 : list PowerSpectrumBinning) (dirs : list nat) :
  Pell0 <> [] ->
  (forall part dir, (0 < Nmesh (snd (grid_of part dir)))%nat) ->
  NoDup dirs ->
  forall (part : list Particle) (all : list (list PowerSpectrumBinning)),
    (forall d, d ∈ dirs -> (d < N)%nat /\ all !! d = Some Pell0) ->
    exists part' all',
      fold_result step dirs (part, all) = inr (part', all')
      /\ length all' = length all
      /\ (forall d, d ∉ dirs -> all' !! d = all !! d)
      /\ (forall d, d ∈ dirs -> pass_of Pell0 all' d).
Proof.
  intros Hpell Hmesh. induction dirs as [|dir dirs IH]; intros Hnd part all Hin.
  - exists part, all. cbn [fold_result]. repeat split; auto.
    intros d Hd. inversion Hd.
  - apply NoDup_cons in Hnd as [Hdir Hnd].
    destruct (Hin dir ltac:(left)) as [HdN Hall].
    cbn [fold_result]. unfold axis_step at 1.
    rewrite (nth_lookup_Some _ _ _ _ Hall).
    destruct (grid_of part dir) as [part1 g1] eqn:Hg.
    destruct (grid_multipoles_returns g1 (map reset Pell0) (unit_vector N dir)
                (others dir)) as [R HR].
    { unfold unit_vector. now rewrite length_insert, length_replicate. }
    { destruct Pell0; [contradiction | discriminate]. }
    { specialize (Hmesh part dir). now rewrite Hg in Hmesh. }
    { rewrite los_norm_unit_vector by assumption. lra. }
    rewrite HR. cbn [bind ret].
    assert (Hlen : (dir < length all)%nat) by now apply lookup_lt_Some in Hall.
    destruct (IH Hnd part1 (<[dir := R]> all)) as (part' & all' & Hf & Hl & Ho & Hp).
    { intros d Hd. destruct (Hin d ltac:(now right)) as [? Hd'].
      split; [assumption|].
      rewrite list_lookup_insert_ne; [assumption|].
      intros ->. contradiction. }
    exists part', all'. split; [exact Hf|].
    split; [now rewrite Hl, length_insert|].
    split.
    + intros d Hd. rewrite Ho.
      * apply list_lookup_insert_ne. intros ->. apply Hd. now left.
      * intros Hd'. apply Hd. now right.
    + intros d Hd. apply elem_of_cons in Hd as [->|Hd]; [|now apply Hp].
      exists part, R. split.
      * rewrite Ho by assumption. now apply list_lookup_insert_eq.
      * now rewrite Hg.
Qed.

(** [Pell[ell] += Pell_all[dir][ell]] over the axes adds, entry by entry,
    the sum over the axes. *)
Lemma fold_add_binning (F : nat -> PowerSpectrumBinning) (dirs : list nat)
    (acc : PowerSpectrumBinning) :
  let r := fold_left (fun acc dir => add_binning acc (F dir)) dirs acc in
  n r = n acc
  /\ (forall i, pofk r !! i
        = (fun x => x + sumR (fun dir => nth i (pofk (F dir)) 0) dirs)
            <$> (pofk acc !! i))
  /\ (forall i, count r !! i
        = (fun x => x + sumR (fun dir => nth i (count (F dir)) 0) dirs)
            <$> (count acc !! i))
  /\ (forall i, kbin r !! i
        = (fun x => x + sumR (fun dir => nth i (kbin (F dir)) 0) dirs)
            <$> (kbin acc !! i)).
Proof.
  revert acc. induction dirs as [|dir dirs IH]; intros acc; cbn [fold_left].
  - split; [reflexivity|].
    repeat split; intros i; rewrite sumR_nil;
      match goal with |- ?l !! i = _ => destruct (l !! i) end;
      cbn; try reflexivity; f_equal; lra.
  - destruct (IH (add_binning acc (F dir))) as (Hn & Hp & Hc & Hk).
    split; [now rewrite Hn|].
    repeat split; intros i;
      [rewrite Hp | rewrite Hc | rewrite Hk];
      unfold add_binning; cbn [pofk count kbin];
      rewrite list_lookup_imap, sumR_cons;
      match goal with |- context [?l !! i] => destruct (l !! i) end;
      cbn; try reflexivity; f_equal; lra.
Qed.

Lemma zeroed_lookup (l : list R) (i : nat) :
  (i < length l)%nat -> zeroed l !! i = Some 0.
Proof.
  intros Hi. unfold zeroed. rewrite list_lookup_fmap.
  destruct (lookup_lt_is_Some_2 l i Hi) as [x Hx]. now rewrite Hx.
Qed.

(** One array of one multipole at the end of the call, before the shot
    noise is taken from the monopole. *)
Lemma mean_of_axes (array : PowerSpectrumBinning -> list R)
    (all : list (list PowerSpectrumBinning)) (p : PowerSpectrumBinning)
    (ell i : nat) :
  (array = pofk \/ array = count \/ array = kbin) ->
  (i < n p)%nat -> (i < length (array p))%nat ->
  array (divide_by_axes N (sum_over_axes N all ell (reset p))) !! i
  = Some (mean_over_axes N array all ell i).
Proof.
  intros Harr Hn Hi. unfold sum_over_axes, mean_over_axes.
  destruct (fold_add_binning
              (fun dir => nth ell (nth dir all []) no_binning)
              (seq 0 N) (reset p)) as (Hn' & Hp & Hc & Hk).
  cbv zeta in Hn', Hp, Hc, Hk.
  set (r := fold_left _ (seq 0 N) (reset p)) in *.
  assert (Hlt : (i <? n r)%nat = true).
  { apply Nat.ltb_lt. rewrite Hn'. exact Hn. }
  destruct Harr as [-> | [-> | ->]];
    unfold divide_by_axes; cbn [pofk count kbin];
    rewrite list_lookup_imap;
    [rewrite Hp | rewrite Hc | rewrite Hk];
    cbn [reset pofk count kbin];
    rewrite zeroed_lookup by assumption;
    cbn [fmap option_fmap option_map]; rewrite Hlt, Rplus_0_l; reflexivity.
Qed.

(** C7. In dimension [N > 0], with [NumPartTotal > 0], a non-empty
    [Pell] and grids of positive mesh, the particle estimator returns; it has then computed the grid multipoles once for
    each of the [N] coordinate axes, with that axis as line of sight, and
    [Pell[ell]] holds, bin by bin, the arithmetic mean over the [N] axes of
    [pofk], [count] and [kbin]; [1/NumPartTotal] has been taken from every
    [pofk] bin of the monopole [Pell[0]] and from no other multipole. *)
Theorem particle_multipoles_mean_over_axes (part : list Particle)
    (Pell : list PowerSpectrumBinning) :
  (0 < N)%nat -> (0 < NumPartTotal)%nat -> Pell <> [] ->
  (forall part dir, (0 < Nmesh (snd (grid_of part dir)))%nat) ->
  exists part' Pell_all Pell',
    compute_power_spectrum_multipoles_particles normalize FFTWGrid_new
      particles_to_grid fftw_r2c deconvolve_window_function_fourier
      get_extra_slices_needed_for_density_assignment communicate_particles N
      Ngrid part NumPartTotal velocity_to_displacement Pell method others
    = inr (part', Pell')
    /\ length Pell_all = N
    /\ (forall dir, (dir < N)%nat -> pass_of Pell Pell_all dir)
    /\ length Pell' = length Pell
    /\ forall ell p i,
         Pell !! ell = Some p -> (i < n p)%nat ->
         (i < length (pofk p))%nat -> (i < length (count p))%nat ->
         (i < length (kbin p))%nat ->
         exists p',
           Pell' !! ell = Some p'
           /\ pofk p' !! i
              = Some (mean_over_axes N pofk Pell_all ell i
                      - (if (ell =? 0)%nat then 1 / INR NumPartTotal else 0))
           /\ count p' !! i = Some (mean_over_axes N count Pell_all ell i)
           /\ kbin p' !! i = Some (mean_over_axes N kbin Pell_all ell i).
Proof.
  intros _ _ Hpell Hmesh.
  destruct (axis_loop (map reset Pell) (seq 0 N)) with
    (part := part) (all := replicate N (map reset Pell))
    as (part' & all & Hf & Hl & _ & Hp).
  { destruct Pell; [contradiction | discriminate]. }
  { exact Hmesh. }
  { apply NoDup_seq. }
  { intros d Hd. apply elem_of_seq in Hd.
    split; [lia|]. apply lookup_replicate_2. lia. }
  unfold compute_power_spectrum_multipoles_particles.
  rewrite Hf. cbn [bind ret].
  eexists part', all, _. split; [reflexivity|].
  rewrite length_replicate in Hl.
  split; [exact Hl|]. split.
  { intros dir Hdir.
    destruct (Hp dir) as (part_in & R0 & HR & Hc).
    { apply elem_of_seq. lia. }
    exists part_in, R0. split; [exact HR|].
    rewrite <- Hc. f_equal. rewrite map_map.
    apply map_ext. intros b. symmetry. apply reset_reset. }
  split.
  { now rewrite length_alter, length_map, length_imap, length_map. }
  intros ell p i Hp0 Hn Hip Hic Hik.
  set (q := divide_by_axes N (sum_over_axes N all ell (reset p))).
  assert (Hq : map (divide_by_axes N)
                 (imap (sum_over_axes N all) (map reset Pell)) !! ell
               = Some q).
  { rewrite list_lookup_fmap, list_lookup_imap, list_lookup_fmap, Hp0.
    reflexivity. }
  assert (Hnq : n q = n p).
  { subst q. unfold divide_by_axes, sum_over_axes. cbn [n].
    destruct (fold_add_binning
                (fun dir => nth ell (nth dir all []) no_binning)
                (seq 0 N) (reset p)) as (Hn' & _).
    exact Hn'. }
  pose proof (mean_of_axes pofk all p ell i ltac:(auto) Hn Hip) as Hmp.
  pose proof (mean_of_axes count all p ell i ltac:(auto) Hn Hic) as Hmc.
  pose proof (mean_of_axes kbin all p ell i ltac:(auto) Hn Hik) as Hmk.
  fold q in Hmp, Hmc, Hmk.
  destruct ell as [|ell].
  - exists (subtract_shot_noise (1 / INR NumPartTotal) q).
    split; [rewrite list_lookup_alter, Hq; reflexivity|].
    destruct (subtract_shot_noise_bins (1 / INR NumPartTotal) q i _
                ltac:(lia) Hmp) as (H1 & H2 & H3).
    cbn [Nat.eqb]. rewrite H1, H2, H3. auto.
  - exists q. split; [rewrite list_lookup_alter_ne by lia; exact Hq|].
    cbn [Nat.eqb]. rewrite Hmp, Hmc, Hmk, Rminus_0_r. auto.
Qed.

End ParticleEstimator.

End MultipolesFacts.

(** *** The statements above on concrete inputs *)

Lemma legendre_projection_coefficients_witness :
  pofk (nth 2 (Multipoles.legendre_projection Inputs.moments3)
          Multipoles.no_binning) !! 1%nat
  = Some (sumR (fun m => Multipoles.legendre_coefficient 2 m
                         * nth 1 (pofk (nth (2 - 2 * m) Inputs.moments3
                                          Multipoles.no_binning)) 0)
            (seq 0 (2 / 2 + 1))).
Proof.
  apply (proj2 (legendre_projection_coefficients Inputs.normalize0 2
                  Inputs.grid2 Inputs.moments3 [0; 1] [])
           Inputs.moments3 2%nat 2%nat 1%nat).
  - repeat constructor.
  - cbn. lia.
  - lia.
Defined.

Lemma particle_multipoles_mean_over_axes_witness :
  exists part' Pell',
    Multipoles.compute_power_spectrum_multipoles_particles Inputs.normalize0
      Inputs.FFTWGrid_new2 Inputs.particles_to_grid0 Inputs.fftw_r2c0
      Inputs.deconvolve0 Inputs.slices0 Inputs.communicate0 2
      2 Inputs.part2 2 1 [Inputs.pofk2; Inputs.pofk2] "CIC" (fun _ => [])
    = inr (part', Pell')
    /\ length Pell' = 2%nat.
Proof.
  destruct (particle_multipoles_mean_over_axes Inputs.normalize0
              Inputs.FFTWGrid_new2 Inputs.particles_to_grid0 Inputs.fftw_r2c0
              Inputs.deconvolve0 Inputs.slices0 Inputs.communicate0 2
              2 2 1 "CIC" (fun _ => []) Inputs.part2
              [Inputs.pofk2; Inputs.pofk2])
    as (part' & Pell_all & Pell' & Hret & _ & _ & Hlen & _).
  - lia.
  - lia.
  - discriminate.
  - intros part dir. unfold Multipoles.axis_grid, Inputs.slices0.
    cbn [snd]. unfold Inputs.deconvolve0, Inputs.fftw_r2c0,
      Inputs.particles_to_grid0.
    destruct (Inputs.communicate0 _); cbn; lia.
  - exists part', Pell'. split; [exact Hret | exact Hlen].
Defined.

(** C8. On the task that owns the plane 0 the binning loop of the grid
    estimator does process local index 0, the [k = 0] mode, and there
    [kmag = 0]: although the line of sight passed the assertion
    [rnorm > 0], the divisor [kmag * rnorm] of [mu] is zero and the turn
    computes [0 / (0 * rnorm)]. *)
Theorem multipoles_divisor_zero_at_origin :
  In 0%nat (seq 0 (ntot_fourier 2 Inputs.grid2))
  /\ 0 < Multipoles.los_norm 2 [0; 1]
  /\ snd (get_fourier_wavevector_and_norm_by_index 2 Inputs.grid2 0)
     * Multipoles.los_norm 2 [0; 1] = 0
  /\ Multipoles.moments_cell 2 Inputs.grid2 [0; 1]
       (Multipoles.los_norm 2 [0; 1]) [Inputs.pofk2; Inputs.pofk2] 0
     = Multipoles.add_moments 0
         (norm (get_fourier_from_index Inputs.grid2 0))
         (PowerSpectrum.mode_weight 2 0)
         (0 / (0 * Multipoles.los_norm 2 [0; 1])) 1
         [Inputs.pofk2; Inputs.pofk2].
Proof.
  assert (Hlos : Multipoles.los_norm 2 [0; 1] = 1).
  { unfold Multipoles.los_norm.
    replace (sumR _ (seq 0 2)) with 1; [apply sqrt_1|].
    unfold sumR. cbn [seq fold_left nth]. lra. }
  split; [cbn; lia|]. split; [rewrite Hlos; lra|]. split.
  - rewrite (kmag_at_origin 2 Inputs.grid2 eq_refl). cbn [snd]. lra.
  - apply (moments_cell_at_origin 2 Inputs.grid2). reflexivity.
Qed.

(** ** Bispectrum and polyspectrum *)
Section PolyspectrumFacts.
Import Polyspectrum.

Variable fftw_c2r : FFTWGrid -> list R.
Variable N : nat.
Variable order : nat.
Variable others : contributions.

(** *** Cells and tuples *)

Lemma cell_index_snoc (nbins : nat) (ds : list nat) (d : nat) :
  cell_index nbins (ds ++ [d]) = (cell_index nbins ds * nbins + d)%nat.
Proof. unfold cell_index. now rewrite fold_left_app. Qed.

(** The digits, most significant first, give back the cell. *)
Lemma cell_index_digits (nbins count i n : nat) :
  cell_index nbins (rev (lsd_digits nbins count i n))
  = ((i / n) mod nbins ^ count)%nat.
Proof.
  revert n. induction count as [|c IH]; intros n.
  - cbn [lsd_digits rev Nat.pow]. now rewrite Nat.mod_1_r.
  - cbn [lsd_digits rev]. rewrite cell_index_snoc, IH.
    cbn [Nat.pow]. rewrite Nat.Div0.mod_mul_r, Nat.Div0.div_div. lia.
Qed.

Lemma cell_index_tuple (nbins i : nat) :
  (i < nbins ^ order)%nat ->
  cell_index nbins (rev (lsd_digits nbins order i 1)) = i.
Proof.
  intros Hi. rewrite cell_index_digits, Nat.div_1_r.
  now apply Nat.mod_small.
Qed.

Lemma valid_tuple_sorted (ik : list nat) :
  valid_tuple ik = true -> Sorted (flip le) ik.
Proof.
  induction ik as [|a [|b rest] IH]; intros Hv.
  - constructor.
  - repeat constructor.
  - cbn [valid_tuple] in Hv. apply andb_true_iff in Hv as [Hab Hrest].
    constructor; [now apply IH|].
    constructor. unfold flip. apply negb_true_iff, Nat.ltb_ge in Hab. exact Hab.
Qed.

(** Sorting a tuple that passed the validity test reverses it. *)
Lemma sort_valid_tuple (ik : list nat) :
  valid_tuple ik = true -> merge_sort le ik = rev ik.
Proof.
  intros Hv. rewrite rev_alt. change (rev_append ik []) with (reverse ik).
  apply (Sorted_unique le).
  - apply (Sorted_merge_sort le).
  - apply (Sorted_reverse (flip le)). now apply valid_tuple_sorted.
  - rewrite merge_sort_Permutation. symmetry. apply reverse_Permutation.
Qed.

Lemma fill_if_zero_same (v : list R) (i : nat) : fill_if_zero v i i = v.
Proof.
  unfold fill_if_zero. destruct (Reqb (nth i v 0) 0); [|reflexivity].
  destruct (v !! i) as [x|] eqn:Hx.
  - rewrite (nth_lookup_Some _ _ _ _ Hx). now apply list_insert_id.
  - apply list_insert_ge. now apply lookup_ge_None.
Qed.

(** A turn of the symmetry loop of [compute_polyspectrum] changes
    nothing: the cell it finds by sorting is the cell it started from. *)
Lemma fill_step_noop (nbins : nat) (st : list R * list R) (i : nat) :
  (i < nbins ^ order)%nat -> fill_step order nbins st i = st.
Proof.
  intros Hi. unfold fill_step.
  destruct (valid_tuple (lsd_digits nbins order i 1)) eqn:Hv; cbn [negb];
    [|reflexivity].
  rewrite sort_valid_tuple, cell_index_tuple by assumption.
  rewrite !fill_if_zero_same. now destruct st.
Qed.

Lemma symmetry_fill_noop (nbins : nat) (st : list R * list R) :
  symmetry_fill order nbins st = st.
Proof.
  unfold symmetry_fill.
  assert (H : forall s, (forall i, In i s -> (i < nbins ^ order)%nat) ->
                        fold_left (fill_step order nbins) s st = st).
  { induction s as [|i s IH]; intros Hs; cbn [fold_left]; [reflexivity|].
    rewrite fill_step_noop by (apply Hs; now left).
    apply IH. intros j Hj. apply Hs. now right. }
  apply H. intros i Hi. apply in_seq in Hi. lia.
Qed.

(** *** The loop over the tuples *)

Lemma fold_pair_own_cell {A} (entry : nat -> option (A * A)) (s : list nat)
    (st : list A * list A) :
  let step st i :=
    match entry i with
    | None => st
    | Some (p, c) => (<[i := p]> (fst st), <[i := c]> (snd st))
    end in
  fst (fold_left step s st)
  = fold_left (own_cell_step (fun i _ => fst <$> entry i)) s (fst st)
  /\ snd (fold_left step s st)
     = fold_left (own_cell_step (fun i _ => snd <$> entry i)) s (snd st).
Proof.
  cbv zeta. revert st. induction s as [|i s IH]; intros st; cbn [fold_left].
  - split; reflexivity.
  - unfold own_cell_step at 2 4.
    destruct (entry i) as [[p c]|] eqn:He;
      cbn [fmap option_fmap option_map fst snd].
    + destruct (IH (<[i := p]> (fst st), <[i := c]> (snd st))) as [IH1 IH2].
      rewrite IH1, IH2. cbn [fst snd]. split; f_equal.
      * destruct (fst st !! i) eqn:Hx; [reflexivity|].
        apply list_insert_ge. now apply lookup_ge_None.
      * destruct (snd st !! i) eqn:Hx; [reflexivity|].
        apply list_insert_ge. now apply lookup_ge_None.
    + destruct (IH st) as [IH1 IH2]. rewrite IH1, IH2. split; f_equal.
      * now destruct (fst st !! i).
      * now destruct (snd st !! i).
Qed.

(** Every cell of the two tensors after the loop over the tuples: what
    the turn of that cell wrote, or the initial zero. *)
Lemma integrate_tuples_cells (nmesh nbins : nat) (k : list R)
    (F_k N_k : list (list R)) (i : nat) :
  (i < nbins ^ order)%nat ->
  let st := integrate_tuples N order others nmesh nbins k F_k N_k in
  let e := tuple_entry N order others nmesh nbins k F_k N_k i in
  fst st !! i = Some (default 0 (fst <$> e))
  /\ snd st !! i = Some (default 0 (snd <$> e)).
Proof.
  intros Hi st e. subst st. unfold integrate_tuples.
  destruct (fold_pair_own_cell
              (tuple_entry N order others nmesh nbins k F_k N_k)
              (seq 0 (nbins ^ order))
              (replicate (nbins ^ order) 0, replicate (nbins ^ order) 0))
    as [H1 H2].
  cbv zeta in H1, H2. unfold tuple_step.
  rewrite H1, H2. cbn [fst snd]. rewrite !fold_own_cell.
  destruct (decide (i < nbins ^ order)%nat); [|lia].
  rewrite lookup_replicate_2 by assumption.
  cbn [fmap option_fmap option_map]. subst e.
  split; f_equal;
    destruct (tuple_entry N order others nmesh nbins k F_k N_k i) as [[p c]|];
    reflexivity.
Qed.

(** The cells of a tuple that the validity test rejects keep the initial
    zero to the end of [compute_polyspectrum]; nothing copies the value of
    the sorted tuple into them. *)
Lemma rejected_cells_stay_zero (nmesh nbins : nat) (k : list R)
    (F_k N_k : list (list R)) (i : nat) :
  (i < nbins ^ order)%nat ->
  valid_tuple (tuple_of_cell nbins order i) = false ->
  let st :=
    symmetry_fill order nbins
      (integrate_tuples N order others nmesh nbins k F_k N_k) in
  fst st !! i = Some 0 /\ snd st !! i = Some 0.
Proof.
  intros Hi Hv st. subst st. rewrite symmetry_fill_noop.
  destruct (integrate_tuples_cells nmesh nbins k F_k N_k i Hi) as [H1 H2].
  cbv zeta in H1, H2. rewrite H1, H2.
  unfold tuple_entry, tuple_of_cell in *. cbv zeta. rewrite Hv.
  cbn [negb]. split; reflexivity.
Qed.

(** The cells of a tuple that the loop evaluates: [F] and [N] are
    all-reduced, then multiplied by [(1/Nmesh/(2 pi))^N]; [P123] receives
    [F/N] when [N > 0] and 0 otherwise, [N123] receives [N] when [N > 0]
    and 0 otherwise. *)
Lemma evaluated_cells (nmesh nbins : nat) (k : list R)
    (F_k N_k : list (list R)) (i : nat) :
  (i < nbins ^ order)%nat ->
  let ik := tuple_of_cell nbins order i in
  valid_tuple ik = true ->
  Rltb (sumR (k_bin nbins k) (removelast ik))
    (k_bin nbins k (List.last ik 0%nat)
     - INR order * (nth 1 k 0 - nth 0 k 0) / 2) = false ->
  let Fn := MPI_Allreduce_SUM (o_F123 others i) (tuple_sum F_k ik)
            * volume_factor N nmesh in
  let Nn := MPI_Allreduce_SUM (o_N123 others i) (tuple_sum N_k ik)
            * volume_factor N nmesh in
  let st :=
    symmetry_fill order nbins
      (integrate_tuples N order others nmesh nbins k F_k N_k) in
  fst st !! i = Some (if Rltb 0 Nn then Fn / Nn else 0)
  /\ snd st !! i = Some (if Rltb 0 Nn then Nn else 0).
Proof.
  intros Hi ik Hv Ht Fn Nn st. subst st. rewrite symmetry_fill_noop.
  destruct (integrate_tuples_cells nmesh nbins k F_k N_k i Hi) as [H1 H2].
  cbv zeta in H1, H2. rewrite H1, H2.
  unfold tuple_entry. cbv zeta. fold (tuple_of_cell nbins order i). fold ik.
  rewrite Hv, Ht. cbn [negb]. split; reflexivity.
Qed.

(** No stored count is negative. *)
Lemma stored_counts_nonnegative (nmesh nbins : nat) (k : list R)
    (F_k N_k : list (list R)) (i : nat) (x : R) :
  snd (symmetry_fill order nbins
         (integrate_tuples N order others nmesh nbins k F_k N_k)) !! i
  = Some x ->
  0 <= x.
Proof.
  rewrite symmetry_fill_noop. intros Hx.
  assert (Hi : (i < nbins ^ order)%nat).
  { apply lookup_lt_Some in Hx. unfold integrate_tuples in Hx.
    destruct (fold_pair_own_cell
                (tuple_entry N order others nmesh nbins k F_k N_k)
                (seq 0 (nbins ^ order))
                (replicate (nbins ^ order) 0, replicate (nbins ^ order) 0))
      as [_ H2].
    cbv zeta in H2. unfold tuple_step in Hx. rewrite H2 in Hx.
    cbn [snd] in Hx.
    now rewrite fold_own_cell_length, length_replicate in Hx. }
  destruct (integrate_tuples_cells nmesh nbins k F_k N_k i Hi) as [_ H2].
  cbv zeta in H2. rewrite H2 in Hx. injection Hx as <-.
  unfold tuple_entry. cbv zeta.
  destruct (negb _); [cbn; lra|].
  destruct (Rltb (sumR _ _) _); [cbn; lra|].
  cbn [fmap option_fmap option_map snd default from_option].
  unfold Datatypes.id.
  match goal with |- 0 <= (if Rltb 0 ?x then _ else _) =>
    unfold Rltb; destruct (Rlt_dec 0 x); lra end.
Qed.

End PolyspectrumFacts.

(** ** The symmetry loop of the bispectrum *)
Section BispectrumFacts.
Import Polyspectrum.

Lemma cell3_lt (nbins x y z : nat) :
  (x < nbins)%nat -> (y < nbins)%nat -> (z < nbins)%nat ->
  (cell3 nbins x y z < nbins ^ 3)%nat.
Proof. intros. unfold cell3. cbn [Nat.pow]. nia. Qed.

Lemma cell3_inj (nbins x y z x' y' z' : nat) :
  (y < nbins)%nat -> (z < nbins)%nat -> (y' < nbins)%nat -> (z' < nbins)%nat ->
  cell3 nbins x y z = cell3 nbins x' y' z' -> x = x' /\ y = y' /\ z = z'.
Proof.
  intros Hy Hz Hy' Hz' H. unfold cell3 in H.
  assert (Hz2 : z = z').
  { apply (f_equal (fun c => c mod nbins)%nat) in H.
    rewrite !(Nat.add_comm _ z), !(Nat.add_comm _ z') in H.
    rewrite !Nat.Div0.mod_add in H.
    now rewrite !Nat.mod_small in H by assumption. }
  subst z'. assert (H2 : (x * nbins + y = x' * nbins + y')%nat) by nia.
  assert (Hy2 : y = y').
  { apply (f_equal (fun c => c mod nbins)%nat) in H2.
    rewrite !(Nat.add_comm _ y), !(Nat.add_comm _ y') in H2.
    rewrite !Nat.Div0.mod_add in H2.
    now rewrite !Nat.mod_small in H2 by assumption. }
  subst y'. split; [nia | auto].
Qed.

(** Sorting a triple. *)
Lemma sort3 (i j k : nat) :
  exists s0 s1 s2,
    merge_sort le [i; j; k] = [s0; s1; s2]
    /\ (s0 <= s1)%nat /\ (s1 <= s2)%nat
    /\ ((i, j, k) = (s0, s1, s2) \/ (i, j, k) = (s0, s2, s1)
        \/ (i, j, k) = (s1, s2, s0) \/ (i, j, k) = (s1, s0, s2)
        \/ (i, j, k) = (s2, s0, s1) \/ (i, j, k) = (s2, s1, s0)).
Proof.
  assert (Hs : forall a b c, (a <= b)%nat -> (b <= c)%nat ->
                 [a; b; c] ≡ₚ [i; j; k] ->
                 merge_sort le [i; j; k] = [a; b; c]).
  { intros a b c Hab Hbc Hp. apply (Sorted_unique le).
    - apply (Sorted_merge_sort le).
    - repeat constructor; assumption.
    - now rewrite merge_sort_Permutation, Hp. }
  assert (Hd : forall a b c, (a <= b)%nat -> (b <= c)%nat ->
                 [a; b; c] ≡ₚ [i; j; k] ->
                 ((i, j, k) = (a, b, c) \/ (i, j, k) = (a, c, b)
                  \/ (i, j, k) = (b, c, a) \/ (i, j, k) = (b, a, c)
                  \/ (i, j, k) = (c, a, b) \/ (i, j, k) = (c, b, a)) ->
                 exists s0 s1 s2,
                   merge_sort le [i; j; k] = [s0; s1; s2]
                   /\ (s0 <= s1)%nat /\ (s1 <= s2)%nat
                   /\ ((i, j, k) = (s0, s1, s2) \/ (i, j, k) = (s0, s2, s1)
                       \/ (i, j, k) = (s1, s2, s0) \/ (i, j, k) = (s1, s0, s2)
                       \/ (i, j, k) = (s2, s0, s1) \/ (i, j, k) = (s2, s1, s0))).
  { intros a b c Hab Hbc Hp Hc. exists a, b, c. rewrite (Hs a b c) by assumption.
    auto. }
  destruct (Nat.le_gt_cases i j), (Nat.le_gt_cases j k), (Nat.le_gt_cases i k).
  - apply (Hd i j k); auto 10.
  - apply (Hd i j k); auto 10.
  - apply (Hd i k j); [lia | lia | apply perm_skip, perm_swap | auto 10].
  - apply (Hd k i j); [lia | lia | | auto 10].
    etransitivity; [apply perm_swap | apply perm_skip, perm_swap].
  - apply (Hd j i k); [lia | lia | apply perm_swap | auto 10].
  - apply (Hd j k i); [lia | lia | | auto 10].
    etransitivity; [apply perm_skip, perm_swap | apply perm_swap].
  - lia.
  - apply (Hd k j i); [lia | lia | | auto 10].
    etransitivity; [apply perm_skip, perm_swap|].
    etransitivity; [apply perm_swap | apply perm_skip, perm_swap].
Qed.

(** *** One conditional copy *)

Lemma fill_if_zero_length (B : list R) (t idx : nat) :
  length (fill_if_zero B t idx) = length B.
Proof.
  unfold fill_if_zero. destruct (Reqb _ _); [apply length_insert | reflexivity].
Qed.

Lemma fill_if_zero_other (B : list R) (t idx c : nat) :
  c <> t -> nth c (fill_if_zero B t idx) 0 = nth c B 0.
Proof.
  intros Hc. unfold fill_if_zero. destruct (Reqb _ _); [|reflexivity].
  rewrite !nth_lookup, list_lookup_insert_ne by auto. reflexivity.
Qed.

Lemma fill_if_zero_target (B : list R) (t idx : nat) :
  (t < length B)%nat ->
  nth t (fill_if_zero B t idx) 0
  = if Reqb (nth t B 0) 0 then nth idx B 0 else nth t B 0.
Proof.
  intros Ht. unfold fill_if_zero. destruct (Reqb _ _); [|reflexivity].
  rewrite (nth_lookup (<[t := _]> B)), list_lookup_insert_eq by assumption.
  reflexivity.
Qed.

Lemma Reqb_spec (x y : R) : (Reqb x y = true /\ x = y) \/ (Reqb x y = false /\ x <> y).
Proof. unfold Reqb. destruct (Req_dec_T x y); auto. Qed.

(** The copies of one turn leave every other cell as it is. *)
Lemma fill_targets_frame (idx : nat) (targets : list nat) (B : list R) :
  let B' := fold_left (fun B t => fill_if_zero B t idx) targets B in
  length B' = length B
  /\ forall c, ~ In c targets -> nth c B' 0 = nth c B 0.
Proof.
  cbv zeta. revert B. induction targets as [|t targets IH]; intros B;
    cbn [fold_left].
  - auto.
  - destruct (IH (fill_if_zero B t idx)) as [Hl Hf]. split.
    + now rewrite Hl, fill_if_zero_length.
    + intros c Hc. rewrite Hf by (intros ?; apply Hc; now right).
      apply fill_if_zero_other. intros ->. apply Hc. now left.
Qed.

(** The copies of one turn inside the class of its triple: [cells] are
    the cells of the class, [rep] the cell the triple loop has computed and
    [v] its value. *)
Lemma fill_targets_class (cells : list nat) (v : R) (rep idx : nat)
    (targets : list nat) (B : list R) :
  (forall t, In t targets -> In t cells) -> In idx cells -> In rep cells ->
  (forall c, In c cells -> (c < length B)%nat) ->
  (forall c, In c cells -> nth c B 0 = 0 \/ nth c B 0 = v) ->
  nth rep B 0 = v ->
  let B' := fold_left (fun B t => fill_if_zero B t idx) targets B in
  (forall c, In c cells -> nth c B' 0 = 0 \/ nth c B' 0 = v)
  /\ nth rep B' 0 = v
  /\ (nth idx B 0 = v -> forall c, In c targets -> nth c B' 0 = v)
  /\ ((forall c, In c cells -> nth c B 0 = v) ->
      forall c, In c cells -> nth c B' 0 = v).
Proof.
  cbv zeta. revert B.
  induction targets as [|t targets IH]; intros B Ht Hidx Hrep Hlen HI Hv;
    cbn [fold_left].
  - repeat split; auto. intros _ c [].
  - assert (Htc : In t cells) by (apply Ht; now left).
    assert (Htl : (t < length B)%nat) by auto.
    set (B1 := fill_if_zero B t idx).
    assert (Hcase : forall c, In c cells ->
              nth c B1 0 = nth c B 0
              \/ (c = t /\ nth t B 0 = 0 /\ nth c B1 0 = nth idx B 0)).
    { intros c Hc. destruct (Nat.eq_dec c t) as [->|Hne].
      - subst B1. rewrite fill_if_zero_target by assumption.
        destruct (Reqb_spec (nth t B 0) 0) as [[-> H0]|[-> H0]]; auto.
      - left. now apply fill_if_zero_other. }
    assert (HI1 : forall c, In c cells -> nth c B1 0 = 0 \/ nth c B1 0 = v).
    { intros c Hc. destruct (Hcase c Hc) as [->|(_ & _ & ->)]; auto. }
    assert (Hv1 : nth rep B1 0 = v).
    { destruct (Hcase rep Hrep) as [->|(-> & H0 & ->)]; [assumption|].
      destruct (HI idx Hidx) as [H|H]; [|assumption]. rewrite H, <- Hv. auto. }
    destruct (IH B1) as (HI' & Hv' & Hall' & HJ').
    { intros t' Ht'. apply Ht. now right. }
    { assumption. } { assumption. }
    { intros c Hc. subst B1. rewrite fill_if_zero_length. auto. }
    { assumption. } { assumption. }
    split; [assumption|]. split; [assumption|]. split.
    + intros Hiv.
      assert (Hiv1 : nth idx B1 0 = v).
      { destruct (Hcase idx Hidx) as [->|(_ & _ & ->)]; assumption. }
      assert (Htv : nth t B1 0 = v).
      { destruct (Hcase t Htc) as [H|(_ & _ & ->)]; [|assumption].
        subst B1. rewrite fill_if_zero_target by assumption.
        destruct (Reqb_spec (nth t B 0) 0) as [[-> H0]|[-> H0]];
          [assumption|].
        destruct (HI t Htc); [contradiction | assumption]. }
      intros c [<-|Hc]; [|now apply Hall'].
      destruct (in_dec Nat.eq_dec t targets) as [Hin|Hnin].
      * now apply Hall'.
      * destruct (fill_targets_frame idx targets B1) as [_ Hf].
        cbv zeta in Hf. now rewrite Hf.
    + intros HJ. apply HJ'. intros c Hc.
      destruct (Hcase c Hc) as [->|(_ & _ & ->)]; auto.
Qed.

Lemma permuted_cells_cell3 (nbins a b c : nat) :
  permuted_cells nbins [a; b; c]
  = [cell3 nbins a b c; cell3 nbins a c b; cell3 nbins b c a;
     cell3 nbins b a c; cell3 nbins c a b; cell3 nbins c b a].
Proof. reflexivity. Qed.

(** The cells of two sorted triples meet only when the triples are the
    same. *)
Lemma classes_disjoint (nbins s0 s1 s2 r0 r1 r2 c : nat) :
  (s0 <= s1 <= s2)%nat -> (s2 < nbins)%nat ->
  (r0 <= r1 <= r2)%nat -> (r2 < nbins)%nat ->
  In c (permuted_cells nbins [s0; s1; s2]) ->
  In c (permuted_cells nbins [r0; r1; r2]) ->
  s0 = r0 /\ s1 = r1 /\ s2 = r2.
Proof.
  intros Hs Hsn Hr Hrn Hc Hc'. rewrite permuted_cells_cell3 in Hc, Hc'.
  cbn [In] in Hc, Hc'.
  destruct Hc as [<-|[<-|[<-|[<-|[<-|[<-|[]]]]]]];
    destruct Hc' as [H|[H|[H|[H|[H|[H|[]]]]]]];
    apply cell3_inj in H; lia.
Qed.

Lemma In_permuted_cells (nbins s0 s1 s2 i j k : nat) :
  (i, j, k) = (s0, s1, s2) \/ (i, j, k) = (s0, s2, s1)
  \/ (i, j, k) = (s1, s2, s0) \/ (i, j, k) = (s1, s0, s2)
  \/ (i, j, k) = (s2, s0, s1) \/ (i, j, k) = (s2, s1, s0) ->
  In (cell3 nbins i j k) (permuted_cells nbins [s0; s1; s2]).
Proof.
  rewrite permuted_cells_cell3. cbn [In].
  intros [H|[H|[H|[H|[H|H]]]]]; injection H as -> -> ->; auto 10.
Qed.

Lemma permuted_cells_lt (nbins s0 s1 s2 c : nat) :
  (s0 < nbins)%nat -> (s1 < nbins)%nat -> (s2 < nbins)%nat ->
  In c (permuted_cells nbins [s0; s1; s2]) -> (c < nbins ^ 3)%nat.
Proof.
  intros H0 H1 H2. rewrite permuted_cells_cell3. cbn [In].
  intros [<-|[<-|[<-|[<-|[<-|[<-|[]]]]]]]; now apply cell3_lt.
Qed.

(** One turn of the symmetry loop, seen from the class of the sorted
    triple [(s0, s1, s2)]: its cells hold 0 or the computed value [v]
    before and after; once the turn of the computed triple [(s2, s1, s0)]
    is over they all hold [v], and stay so. *)
Lemma fill_step_class (nbins s0 s1 s2 : nat) (v : R) (B : list R)
    (i j k : nat) :
  (s0 <= s1 <= s2)%nat -> (s2 < nbins)%nat ->
  (i < nbins)%nat -> (j < nbins)%nat -> (k < nbins)%nat ->
  length B = (nbins ^ 3)%nat ->
  (forall c, In c (permuted_cells nbins [s0; s1; s2]) ->
             nth c B 0 = 0 \/ nth c B 0 = v) ->
  nth (cell3 nbins s2 s1 s0) B 0 = v ->
  let B' := bispectrum_fill_step nbins B (i, j, k) in
  length B' = (nbins ^ 3)%nat
  /\ (forall c, In c (permuted_cells nbins [s0; s1; s2]) ->
                nth c B' 0 = 0 \/ nth c B' 0 = v)
  /\ nth (cell3 nbins s2 s1 s0) B' 0 = v
  /\ ((i, j, k) = (s2, s1, s0) ->
      forall c, In c (permuted_cells nbins [s0; s1; s2]) -> nth c B' 0 = v)
  /\ ((forall c, In c (permuted_cells nbins [s0; s1; s2]) -> nth c B 0 = v) ->
      forall c, In c (permuted_cells nbins [s0; s1; s2]) -> nth c B' 0 = v).
Proof.
  intros Hs Hsn Hi Hj Hk Hlen HI Hv. cbv zeta.
  unfold bispectrum_fill_step.
  destruct (sort3 i j k) as (r0 & r1 & r2 & Hsort & Hr01 & Hr12 & Hperm).
  rewrite Hsort.
  change ((i * nbins + j) * nbins + k)%nat with (cell3 nbins i j k).
  assert (Hrn : (r0 < nbins)%nat /\ (r1 < nbins)%nat /\ (r2 < nbins)%nat).
  { destruct Hperm as [H|[H|[H|[H|[H|H]]]]]; injection H as -> -> ->; lia. }
  assert (Hrep : In (cell3 nbins s2 s1 s0) (permuted_cells nbins [s0; s1; s2])).
  { apply In_permuted_cells. auto 10. }
  destruct (fill_targets_frame (cell3 nbins i j k)
              (permuted_cells nbins [r0; r1; r2]) B) as [Hl Hf].
  cbv zeta in Hl, Hf.
  split; [now rewrite Hl|].
  destruct (decide ((r0, r1, r2) = (s0, s1, s2))) as [Heq|Hne].
  - injection Heq as -> -> ->.
    destruct (fill_targets_class (permuted_cells nbins [s0; s1; s2]) v
                (cell3 nbins s2 s1 s0) (cell3 nbins i j k)
                (permuted_cells nbins [s0; s1; s2]) B)
      as (HI' & Hv' & Hall & HJ); auto.
    { now apply In_permuted_cells. }
    { intros c Hc. rewrite Hlen.
      apply (permuted_cells_lt nbins s0 s1 s2); [lia | lia | lia | assumption]. }
    repeat split; auto.
    intros Hijk. injection Hijk as -> -> ->. apply Hall. exact Hv.
  - assert (Hdis : forall c, In c (permuted_cells nbins [s0; s1; s2]) ->
                     ~ In c (permuted_cells nbins [r0; r1; r2])).
    { intros c Hc Hc'. apply Hne.
      destruct (classes_disjoint nbins s0 s1 s2 r0 r1 r2 c)
        as (-> & -> & ->); auto; lia. }
    repeat split.
    + intros c Hc. rewrite Hf by now apply Hdis. auto.
    + rewrite Hf by now apply Hdis. assumption.
    + intros Hijk. exfalso. apply Hne. injection Hijk as -> -> ->.
      assert (Hrs : r0 = s0 /\ r1 = s1 /\ r2 = s2).
      { destruct Hperm as [H|[H|[H|[H|[H|H]]]]]; injection H as ? ? ?; lia. }
      destruct Hrs as (-> & -> & ->). reflexivity.
    + intros HJ c Hc. rewrite Hf by now apply Hdis. auto.
Qed.

(** The whole loop, seen from one class. *)
Lemma fill_loop_class (nbins s0 s1 s2 : nat) (v : R)
    (l : list (nat * nat * nat)) (B : list R) :
  (s0 <= s1 <= s2)%nat -> (s2 < nbins)%nat ->
  Forall (fun t => (fst (fst t) < nbins)%nat /\ (snd (fst t) < nbins)%nat
                   /\ (snd t < nbins)%nat) l ->
  length B = (nbins ^ 3)%nat ->
  (forall c, In c (permuted_cells nbins [s0; s1; s2]) ->
             nth c B 0 = 0 \/ nth c B 0 = v) ->
  nth (cell3 nbins s2 s1 s0) B 0 = v ->
  let B' := fold_left (bispectrum_fill_step nbins) l B in
  (In (s2, s1, s0) l
   \/ (forall c, In c (permuted_cells nbins [s0; s1; s2]) -> nth c B 0 = v)) ->
  forall c, In c (permuted_cells nbins [s0; s1; s2]) -> nth c B' 0 = v.
Proof.
  intros Hs Hsn Hl. cbv zeta. revert B.
  induction Hl as [|[[i j] k] l (Hi & Hj & Hk) Hl IH];
    intros B Hlen HI Hv Hor; cbn [fold_left].
  - destruct Hor as [[]|HJ]. exact HJ.
  - cbn [fst snd] in Hi, Hj, Hk.
    destruct (fill_step_class nbins s0 s1 s2 v B i j k)
      as (Hlen' & HI' & Hv' & Hrep & HJ'); auto.
    cbv zeta in Hlen', HI', Hv', Hrep, HJ'.
    apply IH; auto.
    destruct Hor as [[Heq|Hin]|HJ]; auto.
Qed.

Lemma In_triples (nbins i j k : nat) :
  In (i, j, k) (triples nbins)
  <-> (i < nbins)%nat /\ (j < nbins)%nat /\ (k < nbins)%nat.
Proof.
  unfold triples. rewrite <- list_elem_of_In, list_elem_of_bind. split.
  - intros (i' & Hi & Hi'). apply list_elem_of_bind in Hi as (j' & Hj & Hj').
    apply list_elem_of_bind in Hj as (k' & Hk & Hk').
    apply list_elem_of_singleton in Hk. injection Hk as -> -> ->.
    apply elem_of_seq in Hi', Hj', Hk'. lia.
  - intros (Hi & Hj & Hk). exists i. split; [|apply elem_of_seq; lia].
    apply list_elem_of_bind. exists j. split; [|apply elem_of_seq; lia].
    apply list_elem_of_bind. exists k. split; [|apply elem_of_seq; lia].
    now apply list_elem_of_singleton.
Qed.

(** The symmetry loop of [compute_bispectrum]: when only the cells of the
    triples with [i >= j >= k] have been computed and the others are still
    zero, every cell of a class ends with the computed value of the
    class. *)
Lemma bispectrum_symmetry_fill_class (nbins : nat) (B0 : list R)
    (s0 s1 s2 : nat) :
  length B0 = (nbins ^ 3)%nat ->
  (forall x y z, (x < nbins)%nat -> (y < nbins)%nat -> (z < nbins)%nat ->
                 ~ (z <= y <= x)%nat -> nth (cell3 nbins x y z) B0 0 = 0) ->
  (s0 <= s1 <= s2)%nat -> (s2 < nbins)%nat ->
  forall c, In c (permuted_cells nbins [s0; s1; s2]) ->
    nth c (bispectrum_symmetry_fill nbins B0) 0
    = nth (cell3 nbins s2 s1 s0) B0 0.
Proof.
  intros Hlen Hzero Hs Hsn. unfold bispectrum_symmetry_fill.
  apply (fill_loop_class nbins s0 s1 s2); auto.
  - apply List.Forall_forall. intros [[i j] k] Hin.
    apply In_triples in Hin. exact Hin.
  - intros c Hc. rewrite permuted_cells_cell3 in Hc. cbn [In] in Hc.
    destruct Hc as [<-|[<-|[<-|[<-|[<-|[<-|[]]]]]]]; auto;
      match goal with
      | |- nth (cell3 _ ?x ?y ?z) _ _ = 0 \/ _ =>
          destruct (decide (z <= y <= x)%nat) as [Hd|Hd];
          [right; f_equal; f_equal; lia | left; apply Hzero; lia]
      end.
  - left. apply In_triples. lia.
Qed.

Lemma lsd_digits_cell3 (nbins x y z : nat) :
  (x < nbins)%nat -> (y < nbins)%nat -> (z < nbins)%nat ->
  lsd_digits nbins 3 (cell3 nbins x y z) 1 = [z; y; x].
Proof.
  intros Hx Hy Hz. cbn [lsd_digits]. rewrite Nat.mul_1_l, Nat.div_1_r.
  rewrite <- Nat.Div0.div_div.
  assert (H1 : (cell3 nbins x y z / nbins = x * nbins + y)%nat).
  { unfold cell3. rewrite Nat.div_add_l by lia.
    rewrite (Nat.div_small z) by assumption. lia. }
  assert (H0 : (cell3 nbins x y z mod nbins = z)%nat).
  { unfold cell3. rewrite Nat.add_comm, Nat.Div0.mod_add.
    now apply Nat.mod_small. }
  rewrite H0, H1.
  rewrite (Nat.add_comm (x * nbins)), Nat.Div0.mod_add, Nat.div_add by lia.
  rewrite (Nat.mod_small y), (Nat.div_small y), (Nat.mod_small x) by lia.
  reflexivity.
Qed.

Section Triples.

Variable fftw_c2r : FFTWGrid -> list R.
Variable N : nat.
Variable others : contributions.

(** After the loop over the triples, the cells of the triples that it
    skipped still hold zero. *)
Lemma integrate_triples_skipped (nmesh nbins : nat) (k : list R)
    (F_k N_k : list (list R)) (pofk_bin : list R) :
  let B0 := fst (integrate_triples N others nmesh nbins k F_k N_k pofk_bin) in
  length B0 = (nbins ^ 3)%nat
  /\ forall x y z, (x < nbins)%nat -> (y < nbins)%nat -> (z < nbins)%nat ->
       ~ (z <= y <= x)%nat -> nth (cell3 nbins x y z) B0 0 = 0.
Proof.
  cbv zeta. unfold integrate_triples.
  destruct (fold_pair_own_cell
              (triple_entry N others nmesh nbins k F_k N_k pofk_bin)
              (seq 0 (nbins ^ 3))
              (replicate (nbins ^ 3) 0, replicate (nbins ^ 3) 0)) as [H1 _].
  cbv zeta in H1. unfold triple_step. rewrite H1. cbn [fst]. split.
  - now rewrite fold_own_cell_length, length_replicate.
  - intros x y z Hx Hy Hz Hnot.
    rewrite nth_lookup, fold_own_cell.
    pose proof (cell3_lt nbins x y z Hx Hy Hz) as Hc.
    destruct (decide (cell3 nbins x y z < nbins ^ 3)%nat); [|lia].
    rewrite lookup_replicate_2 by assumption.
    unfold triple_entry. cbv zeta.
    rewrite lsd_digits_cell3 by assumption. cbn [nth].
    assert (Hskip : ((y <? z)%nat || (x <? y)%nat) = true).
    { apply orb_true_iff.
      destruct (Nat.ltb_spec y z); [now left|].
      destruct (Nat.ltb_spec x y); [now right | lia]. }
    rewrite Hskip. reflexivity.
Qed.

Lemma sort_permutation (l1 l2 : list nat) :
  l1 ≡ₚ l2 -> merge_sort le l1 = merge_sort le l2.
Proof.
  intros Hp. apply (Sorted_unique le).
  - apply (Sorted_merge_sort le).
  - apply (Sorted_merge_sort le).
  - now rewrite !merge_sort_Permutation.
Qed.

(** The bispectrum that [compute_bispectrum] stores is
    permutation-symmetric: its symmetry loop does copy the computed value
    of a class into the cells the triple loop has skipped. *)
Lemma compute_bispectrum_symmetric (density_k : FFTWGrid)
    (bofk res : Bi.BispectrumBinning) (x y z x' y' z' : nat) :
  compute_bispectrum fftw_c2r N others density_k bofk = inr res ->
  (x < Bi.n bofk)%nat -> (y < Bi.n bofk)%nat -> (z < Bi.n bofk)%nat ->
  [x; y; z] ≡ₚ [x'; y'; z'] ->
  nth (cell3 (Bi.n bofk) x y z) (Bi.B123 res) 0
  = nth (cell3 (Bi.n bofk) x' y' z') (Bi.B123 res) 0.
Proof.
  intros Hres Hx Hy Hz Hp. unfold compute_bispectrum in Hres. cbv zeta in Hres.
  destruct (0 <? Bi.n bofk)%nat; [|discriminate].
  destruct (0 <? Nmesh density_k)%nat; [|discriminate].
  cbn [assert_that bind] in Hres.
  set (nbins := Bi.n bofk) in *.
  set (shells := map _ (seq 0 nbins)) in *.
  pose proof (integrate_triples_skipped (Nmesh density_k) nbins (Bi.k bofk)
                (map (fun s => fst (fst (fst s))) shells)
                (map (fun s => snd (fst (fst s))) shells)
                (map snd shells)) as [Hlen Hzero].
  cbv zeta in Hlen, Hzero.
  destruct (integrate_triples _ _ _ _ _ _ _ _) as [B0 N0].
  cbn [fst] in Hlen, Hzero.
  injection Hres as <-. cbn [Bi.B123].
  assert (Hx' : (x' < nbins)%nat /\ (y' < nbins)%nat /\ (z' < nbins)%nat).
  { assert (Hall : Forall (fun a => (a < nbins)%nat) [x'; y'; z']).
    { rewrite <- Hp. repeat constructor; assumption. }
    inversion Hall as [|? ? ? Hall1]; subst.
    inversion Hall1 as [|? ? ? Hall2]; subst.
    inversion Hall2; subst. auto. }
  destruct Hx' as (Hx' & Hy' & Hz').
  destruct (sort3 x y z) as (s0 & s1 & s2 & Hsort & H01 & H12 & Hperm).
  destruct (sort3 x' y' z') as (r0 & r1 & r2 & Hsort' & _ & _ & Hperm').
  rewrite (sort_permutation _ _ Hp), Hsort' in Hsort.
  injection Hsort as -> -> ->.
  assert (Hsn : (s2 < nbins)%nat).
  { destruct Hperm as [H|[H|[H|[H|[H|H]]]]]; injection H as -> -> ->; lia. }
  rewrite !(bispectrum_symmetry_fill_class nbins B0 s0 s1 s2);
    auto using In_permuted_cells.
Qed.

End Triples.

End BispectrumFacts.

(** *** The polyspectrum of order 3 on two shells *)

(** [|k|^2] of the four cells of a 2 x 2 grid. *)
Lemma kmag2_2x2 (g : FFTWGrid) (ind : nat) :
  Nmesh g = 2%nat -> Local_x_start g = 0%nat -> (ind < 4)%nat ->
  norm2 (get_fourier_wavevector_from_index 2 g ind)
  = nth ind [0; 4 * (PI * PI); 4 * (PI * PI); 8 * (PI * PI)] 0.
Proof.
  intros Hn Hx Hind.
  unfold get_fourier_wavevector_from_index, fourier_coord. rewrite Hn, Hx.
  destruct ind as [|[|[|[|ind]]]]; [| | | |lia];
    cbn [Nat.sub Nat.div Nat.modulo Nat.divmod Nat.add fst snd middle_coords
         rev app wavevector_of_coord nth];
    unfold norm2, sumR, signed_mode;
    cbn [fold_left Nat.leb Nat.div Nat.divmod fst INR]; ring.
Qed.

Lemma shell_edges2 :
  Polyspectrum.klow 2 Inputs.k2 0 = 0
  /\ Polyspectrum.khigh 2 Inputs.k2 0 = 2 * PI
  /\ Polyspectrum.klow 2 Inputs.k2 1 = 2 * PI
  /\ Polyspectrum.khigh 2 Inputs.k2 1 = 4 * PI.
Proof.
  unfold Polyspectrum.klow, Polyspectrum.khigh, Inputs.k2.
  cbn [Nat.eqb Nat.ltb Nat.leb Nat.sub Nat.add nth].
  repeat split; lra.
Qed.

(** A cell outside the shell is zeroed in both grids; a cell inside is
    kept and counted. *)
Lemma shell_cell_outside (kmin2 kmax2 kmag2 : R)
    (st : Polyspectrum.shell_state) (ind : nat) :
  norm2 (get_fourier_wavevector_from_index 2 (Polyspectrum.grid st) ind)
  = kmag2 ->
  kmax2 <= kmag2 \/ kmag2 < kmin2 ->
  Polyspectrum.shell_cell 2 kmin2 kmax2 st ind
  = Polyspectrum.mkShell
      (set_fourier_from_index (Polyspectrum.grid st) ind C0)
      (set_fourier_from_index (Polyspectrum.count_grid st) ind C0)
      (Polyspectrum.kmean st) (Polyspectrum.pofk_sum st) (Polyspectrum.nk st).
Proof.
  intros Hk Hout. unfold Polyspectrum.shell_cell. rewrite Hk. cbv zeta.
  destruct Hout as [H|H].
  - now rewrite Rleb_true.
  - rewrite (Rltb_true _ _ H). now rewrite orb_true_r.
Qed.

Lemma shell_cell_inside (kmin2 kmax2 kmag2 : R)
    (st : Polyspectrum.shell_state) (ind : nat) :
  norm2 (get_fourier_wavevector_from_index 2 (Polyspectrum.grid st) ind)
  = kmag2 ->
  kmin2 <= kmag2 < kmax2 ->
  Polyspectrum.shell_cell 2 kmin2 kmax2 st ind
  = Polyspectrum.mkShell (Polyspectrum.grid st)
      (set_fourier_from_index (Polyspectrum.count_grid st) ind C1)
      (Polyspectrum.kmean st + sqrt kmag2)
      (Polyspectrum.pofk_sum st
       + norm (get_fourier_from_index (Polyspectrum.grid st) ind))
      (Polyspectrum.nk st + 1).
Proof.
  intros Hk [Hlo Hhi]. unfold Polyspectrum.shell_cell. rewrite Hk. cbv zeta.
  now rewrite Rleb_false, Rltb_false.
Qed.

Ltac shell_step lemma kmag2 :=
  match goal with
  | |- context [Polyspectrum.shell_cell 2 ?a ?b
                  (Polyspectrum.mkShell ?g ?c ?x ?y ?z) ?i] =>
      rewrite (lemma a b kmag2 (Polyspectrum.mkShell g c x y z) i);
      [ cbn [Polyspectrum.grid Polyspectrum.count_grid Polyspectrum.kmean
             Polyspectrum.pofk_sum Polyspectrum.nk]
      | apply kmag2_2x2; cbn; (reflexivity || lia)
      | nra ]
  end.

(** The two shells of the grid of ones, in real space. *)
Lemma shell_fields_of_grid_ones (i : nat) :
  (i < 2)%nat ->
  fst (fst (Polyspectrum.shell Inputs.fftw_c2r_2x2 2 Inputs.no_others 2
              Inputs.k2 Inputs.grid_ones i))
  = (nth i Inputs.shell_fields2 [], nth i Inputs.shell_fields2 []).
Proof.
  intros Hi. destruct shell_edges2 as (Hl0 & Hh0 & Hl1 & Hh1).
  pose proof PI_RGT_0 as Hpi.
  assert (Hpi2 : 0 < PI * PI) by nra.
  unfold Polyspectrum.shell. cbv zeta. cbn [fst snd].
  unfold get_fourier_range, Inputs.grid_ones.
  cbn [cdelta length seq fold_left Polyspectrum.fill_fourier_grid_zero map
       Nmesh Local_nx Local_x_start].
  destruct i as [|[|i]]; [| |lia].
  - rewrite Hl0, Hh0.
    shell_step shell_cell_inside 0.
    shell_step shell_cell_outside (4 * (PI * PI)).
    shell_step shell_cell_outside (4 * (PI * PI)).
    shell_step shell_cell_outside (8 * (PI * PI)).
    unfold Inputs.fftw_c2r_2x2, get_fourier_from_index, set_fourier_from_index.
    cbn. f_equal; repeat (f_equal; try lra).
  - rewrite Hl1, Hh1.
    shell_step shell_cell_outside 0.
    shell_step shell_cell_inside (4 * (PI * PI)).
    shell_step shell_cell_inside (4 * (PI * PI)).
    shell_step shell_cell_inside (8 * (PI * PI)).
    unfold Inputs.fftw_c2r_2x2, get_fourier_from_index, set_fourier_from_index.
    cbn. f_equal; repeat (f_equal; try lra).
Qed.

Lemma k_bin2_values :
  Polyspectrum.k_bin 2 Inputs.k2 0 = PI
  /\ Polyspectrum.k_bin 2 Inputs.k2 1 = 3 * PI.
Proof.
  unfold Polyspectrum.k_bin, Polyspectrum.klow, Polyspectrum.khigh, Inputs.k2.
  cbn [Nat.eqb Nat.ltb Nat.leb Nat.sub Nat.add nth].
  split; lra.
Qed.

Lemma volume_factor2_pos : 0 < Polyspectrum.volume_factor 2 2.
Proof.
  unfold Polyspectrum.volume_factor. apply pow_lt.
  replace (INR 2) with 2 by (cbn [INR]; lra).
  pose proof PI_RGT_0.
  apply Rdiv_lt_0_compat; lra.
Qed.

(** The shell sums of the three cells of the triple [{0, 1, 1}]. *)
Lemma tuple_sums2 (ik : list nat) :
  ik = [1; 1; 0]%nat \/ ik = [1; 0; 1]%nat \/ ik = [0; 1; 1]%nat ->
  Polyspectrum.tuple_sum Inputs.shell_fields2 ik = 12.
Proof.
  intros [-> | [-> | ->]];
    unfold Polyspectrum.tuple_sum, Inputs.shell_fields2, sumR;
    cbn [nth length seq fold_left]; lra.
Qed.

Lemma cell6_of_tensors2 :
  fst Inputs.tensors2 !! 6%nat = Some 1
  /\ snd Inputs.tensors2 !! 6%nat
     = Some (12 * Polyspectrum.volume_factor 2 2).
Proof.
  pose proof volume_factor2_pos as Hv.
  destruct k_bin2_values as [Hk0 Hk1].
  destruct (evaluated_cells 2 3 Inputs.no_others 2 2 Inputs.k2
              Inputs.shell_fields2 Inputs.shell_fields2 6) as [HP HN].
  - cbn. lia.
  - reflexivity.
  - change (Polyspectrum.tuple_of_cell 2 3 6) with [1; 1; 0]%nat.
    cbn [removelast List.last nth]. rewrite !sumR_cons, sumR_nil, Hk0, Hk1.
    apply Rltb_false. replace (INR 3) with 3 by (cbn [INR]; lra).
    unfold Inputs.k2. cbn [nth]. pose proof PI_RGT_0. lra.
  - cbv zeta in HP, HN. unfold Inputs.tensors2. rewrite HP, HN.
    change (Polyspectrum.tuple_of_cell 2 3 6) with [1; 1; 0]%nat.
    rewrite tuple_sums2 by auto.
    unfold Polyspectrum.MPI_Allreduce_SUM, Inputs.no_others.
    cbn [Polyspectrum.o_F123 Polyspectrum.o_N123].
    rewrite Rltb_true by lra.
    split; f_equal; [field|]; lra.
Qed.

(** [compute_polyspectrum] on the grid of ones returns, and its tensors
    are the ones above. *)
Lemma compute_polyspectrum_grid_ones :
  exists kbin pofk,
    Polyspectrum.compute_polyspectrum Inputs.fftw_c2r_2x2 2 3 Inputs.no_others
      Inputs.grid_ones Inputs.polyofk2
    = inr (Polyspectrum.Poly.mkPoly 2 Inputs.k2 (fst Inputs.tensors2)
             (snd Inputs.tensors2) kbin pofk).
Proof.
  unfold Polyspectrum.compute_polyspectrum.
  cbn [Polyspectrum.Poly.n Polyspectrum.Poly.k Inputs.polyofk2 Nmesh
       Inputs.grid_ones Nat.ltb Nat.leb assert_that bind seq map].
  fold Inputs.grid_ones.
  pose proof (shell_fields_of_grid_ones 0 ltac:(lia)) as H0.
  pose proof (shell_fields_of_grid_ones 1 ltac:(lia)) as H1.
  set (s0 := Polyspectrum.shell _ _ _ _ _ _ 0%nat) in *.
  set (s1 := Polyspectrum.shell _ _ _ _ _ _ 1%nat) in *.
  rewrite H0, H1. cbn [fst snd nth Inputs.shell_fields2].
  fold Inputs.shell_fields2. fold Inputs.tensors2.
  destruct Inputs.tensors2 as [P Nn]. cbn [fst snd].
  eexists _, _. reflexivity.
Qed.

(** C2. Order 3 on two shells, the 2 x 2 grid of ones:
    [compute_polyspectrum] returns, the cell of the tuple [(1, 1, 0)]
    holds [F/N = 1], and the cells of its permutations [(1, 0, 1)] and
    [(0, 1, 1)] hold 0: the stored tensor is not permutation-symmetric, the
    cells that the tuple loop skipped have not received the value of their
    sorted tuple. *)
Theorem polyspectrum_not_symmetric :
  exists res,
    Polyspectrum.compute_polyspectrum Inputs.fftw_c2r_2x2 2 3 Inputs.no_others
      Inputs.grid_ones Inputs.polyofk2 = inr res
    /\ Polyspectrum.tuple_of_cell 2 3 6 = [1; 1; 0]%nat
    /\ Polyspectrum.tuple_of_cell 2 3 5 = [1; 0; 1]%nat
    /\ Polyspectrum.tuple_of_cell 2 3 3 = [0; 1; 1]%nat
    /\ Polyspectrum.Poly.P123 res !! 6%nat = Some 1
    /\ Polyspectrum.Poly.P123 res !! 5%nat = Some 0
    /\ Polyspectrum.Poly.P123 res !! 3%nat = Some 0.
Proof.
  destruct compute_polyspectrum_grid_ones as (kb & pb & Hres).
  eexists. split; [exact Hres|]. cbn [Polyspectrum.Poly.P123].
  split; [reflexivity|]. split; [reflexivity|]. split; [reflexivity|].
  split; [apply cell6_of_tensors2|].
  split.
  - apply (rejected_cells_stay_zero 2 3 Inputs.no_others 2 2 Inputs.k2
             Inputs.shell_fields2 Inputs.shell_fields2 5);
      [cbn; lia | reflexivity].
  - apply (rejected_cells_stay_zero 2 3 Inputs.no_others 2 2 Inputs.k2
             Inputs.shell_fields2 Inputs.shell_fields2 3);
      [cbn; lia | reflexivity].
Qed.

(** C3. Order 3 on two shells, the 2 x 2 grid of ones: the tuple
    [(0, 1, 1)] is canonical ([i1 <= i2 <= i3]) and passes the
    closable-polygon test, its sums after the all-reduce and the factor
    [(1/(2 pi Nmesh))^N] are [F = N > 0], so that [F/N = 1]; but its cell
    was skipped by the tuple loop, which keeps the tuples with
    [i1 >= i2 >= i3], and [P123] and [N123] hold 0 there when
    [compute_polyspectrum] returns. *)
Theorem canonical_tuple_not_evaluated :
  exists res,
    Polyspectrum.compute_polyspectrum Inputs.fftw_c2r_2x2 2 3 Inputs.no_others
      Inputs.grid_ones Inputs.polyofk2 = inr res
    /\ Polyspectrum.tuple_of_cell 2 3 3 = [0; 1; 1]%nat
    /\ Polyspectrum.canonical [0; 1; 1]%nat = true
    /\ Polyspectrum.closable 2 3 Inputs.k2 [0; 1; 1]%nat = true
    /\ 0 < Polyspectrum.MPI_Allreduce_SUM 0
             (Polyspectrum.tuple_sum Inputs.shell_fields2 [0; 1; 1]%nat)
           * Polyspectrum.volume_factor 2 2
    /\ Polyspectrum.MPI_Allreduce_SUM 0
         (Polyspectrum.tuple_sum Inputs.shell_fields2 [0; 1; 1]%nat)
       * Polyspectrum.volume_factor 2 2
       / (Polyspectrum.MPI_Allreduce_SUM 0
            (Polyspectrum.tuple_sum Inputs.shell_fields2 [0; 1; 1]%nat)
          * Polyspectrum.volume_factor 2 2)
       = 1
    /\ Polyspectrum.Poly.P123 res !! 3%nat = Some 0
    /\ Polyspectrum.Poly.N123 res !! 3%nat = Some 0.
Proof.
  destruct compute_polyspectrum_grid_ones as (kb & pb & Hres).
  eexists. split; [exact Hres|].
  cbn [Polyspectrum.Poly.P123 Polyspectrum.Poly.N123].
  pose proof volume_factor2_pos as Hv.
  destruct k_bin2_values as [Hk0 Hk1].
  split; [reflexivity|]. split; [reflexivity|].
  rewrite tuple_sums2 by auto. unfold Polyspectrum.MPI_Allreduce_SUM.
  split.
  { unfold Polyspectrum.closable. cbn [removelast List.last nth].
    rewrite !sumR_cons, sumR_nil, Hk0, Hk1.
    apply Rleb_true. replace (INR 3) with 3 by (cbn [INR]; lra).
    unfold Inputs.k2. cbn [nth]. pose proof PI_RGT_0. lra. }
  split; [lra|]. split; [field; lra|].
  apply (rejected_cells_stay_zero 2 3 Inputs.no_others 2 2 Inputs.k2
           Inputs.shell_fields2 Inputs.shell_fields2 3);
    [cbn; lia | reflexivity].
Qed.
Section SmoothingFacts.
Import Smoothing.

Lemma select_filter_unknown N scale (m : string) :
  m <> "sharpk"%string -> m <> "gaussian"%string -> m <> "tophat"%string ->
  select_filter N scale m = inl (EUnknownKernel m).
Proof.
  intros H1 H2 H3. unfold select_filter.
  apply String.eqb_neq in H1, H2, H3. now rewrite H1, H2, H3.
Qed.

Lemma select_filter_tophat_dim N scale :
  N <> 2%nat -> N <> 3%nat ->
  select_filter N scale "tophat" = inl EUnsupportedDim.
Proof.
  intros H2 H3. unfold select_filter. cbn.
  apply Nat.eqb_neq in H2, H3. now rewrite H2, H3.
Qed.

(** C10. A smoothing method other than "sharpk", "gaussian" or "tophat"
    fails with the unknown-kernel error, and "tophat" on a grid whose
    dimension is neither 2 nor 3 fails with the unsupported-dimension
    error; in both cases the grid the call leaves behind is the grid it
    was given, so no Fourier amplitude has been modified. *)
Theorem smoothing_filter_failures N (g : FFTWGrid) (scale : R) (m : string) :
  (m <> "sharpk"%string -> m <> "gaussian"%string -> m <> "tophat"%string ->
   smoothing_filter_fourier_space N g scale m = (inl (EUnknownKernel m), g))
  /\ (m = "tophat"%string -> N <> 2%nat -> N <> 3%nat ->
      smoothing_filter_fourier_space N g scale m = (inl EUnsupportedDim, g)).
Proof.
  split.
  - intros H1 H2 H3. unfold smoothing_filter_fourier_space.
    now rewrite select_filter_unknown.
  - intros -> H2 H3. unfold smoothing_filter_fourier_space.
    now rewrite select_filter_tophat_dim.
Qed.

Lemma smoothing_filter_failures_witness :
  smoothing_filter_fourier_space 2 Inputs.grid2 1 "boxcar"
    = (inl (EUnknownKernel "boxcar"), Inputs.grid2)
  /\ smoothing_filter_fourier_space 4 Inputs.grid2 1 "tophat"
    = (inl EUnsupportedDim, Inputs.grid2).
Proof.
  split.
  - apply (proj1 (smoothing_filter_failures 2 Inputs.grid2 1 "boxcar"));
      discriminate.
  - apply (proj2 (smoothing_filter_failures 4 Inputs.grid2 1 "tophat"));
      [reflexivity | lia | lia].
Defined.

End SmoothingFacts.

(** *** What a smoothing that succeeds does to the grid *)
Section SmoothingEffects.
Import Smoothing.

Lemma grid_eq (g g' : FFTWGrid) :
  same_header g g' -> cdelta g' = cdelta g -> g' = g.
Proof.
  destruct g, g'. intros (H1 & H2 & H3) H4. cbn in *. congruence.
Qed.

Lemma kmag_same_header N g g' ind :
  same_header g g' ->
  snd (get_fourier_wavevector_and_norm_by_index N g' ind)
  = snd (get_fourier_wavevector_and_norm_by_index N g ind).
Proof.
  intros H. unfold get_fourier_wavevector_and_norm_by_index. cbn [snd].
  now rewrite (wavevector_same_header N g g' ind H).
Qed.

Lemma smooth_loop (N : nat) (filter : R -> R) (g : FFTWGrid) :
  fold_left (smooth_cell N filter) (get_fourier_range g) g
  = apply_filter N filter g.
Proof.
  pose proof (fold_cells
    (fun g i x =>
       scale x (filter (snd (get_fourier_wavevector_and_norm_by_index N g i))))
    g) as H.
  cbv zeta in H.
  destruct H as [Hh Hc].
  { intros g1 g2 i x H12. now rewrite (kmag_same_header N g1 g2 i H12). }
  assert (Hbody : forall g0 i,
    smooth_cell N filter g0 i
    = set_fourier_from_index g0 i
        (scale (get_fourier_from_index g0 i)
           (filter (snd (get_fourier_wavevector_and_norm_by_index N g0 i))))).
  { intros g0 i. unfold smooth_cell.
    now destruct (get_fourier_wavevector_and_norm_by_index N g0 i). }
  rewrite (fold_left_ext _ _ _ _ Hbody).
  destruct Hh as (H1 & H2 & H3).
  unfold apply_filter. rewrite <- Hc, <- H1, <- H2, <- H3.
  now destruct (fold_left _ _ g).
Qed.

Lemma smoothing_sharpk (N : nat) (g : FFTWGrid) (s : R) :
  smoothing_filter_fourier_space N g s "sharpk"
  = (inr tt, apply_filter N (filter_sharpk s) g).
Proof.
  unfold smoothing_filter_fourier_space, select_filter.
  cbn [String.eqb Ascii.eqb Bool.eqb ret]. now rewrite smooth_loop.
Qed.

Lemma smoothing_gaussian (N : nat) (g : FFTWGrid) (s : R) :
  smoothing_filter_fourier_space N g s "gaussian"
  = (inr tt, apply_filter N (filter_gaussian s) g).
Proof.
  unfold smoothing_filter_fourier_space, select_filter.
  cbn [String.eqb Ascii.eqb Bool.eqb ret]. now rewrite smooth_loop.
Qed.

Lemma smoothing_tophat (N : nat) (g : FFTWGrid) (s : R) :
  N = 2%nat \/ N = 3%nat ->
  smoothing_filter_fourier_space N g s "tophat"
  = (inr tt,
     apply_filter N
       (if (N =? 2)%nat then filter_tophat_2D s else filter_tophat_3D s) g).
Proof.
  intros [-> | ->];
    unfold smoothing_filter_fourier_space, select_filter;
    cbn [String.eqb Ascii.eqb Bool.eqb Nat.eqb orb assert_mpi bind ret];
    now rewrite smooth_loop.
Qed.

(** X1. With one of the three methods (and, for "tophat", in two or three
    dimensions) the call returns normally, and the grid it leaves has the
    header of the grid it was given and, at every owned cell, the old
    amplitude times the value of the selected filter at [|k|] of the
    cell. *)
Theorem smoothing_applies_filter (N : nat) (g : FFTWGrid) (s : R) :
  smoothing_filter_fourier_space N g s "sharpk"
  = (inr tt, apply_filter N (filter_sharpk s) g)
  /\ smoothing_filter_fourier_space N g s "gaussian"
     = (inr tt, apply_filter N (filter_gaussian s) g)
  /\ smoothing_filter_fourier_space 2 g s "tophat"
     = (inr tt, apply_filter 2 (filter_tophat_2D s) g)
  /\ smoothing_filter_fourier_space 3 g s "tophat"
     = (inr tt, apply_filter 3 (filter_tophat_3D s) g).
Proof.
  repeat split.
  - apply smoothing_sharpk.
  - apply smoothing_gaussian.
  - apply (smoothing_tophat 2). now left.
  - apply (smoothing_tophat 3). now right.
Qed.

(** The amplitude a call leaves at a cell, for every method: the old one
    times some factor, which is the value of the filter when the call
    succeeds. *)
Lemma smoothing_cell (N : nat) (g : FFTWGrid) (s : R) (m : string) :
  (exists filter,
     select_filter N s m = inr filter
     /\ snd (smoothing_filter_fourier_space N g s m) = apply_filter N filter g)
  \/ ((exists e, select_filter N s m = inl e)
      /\ snd (smoothing_filter_fourier_space N g s m) = g).
Proof.
  unfold smoothing_filter_fourier_space.
  destruct (select_filter N s m) as [e|filter].
  - right. split; [now exists e | reflexivity].
  - left. exists filter. split; [reflexivity|]. cbn [snd]. apply smooth_loop.
Qed.

Lemma scale_one (x : C) : scale x 1 = x.
Proof. destruct x. unfold scale. cbn. f_equal; lra. Qed.

Lemma scale_scale (x : C) (a b : R) : scale (scale x a) b = scale x (a * b).
Proof. destruct x. unfold scale. cbn. f_equal; lra. Qed.

Lemma norm_scale (x : C) (a : R) : norm (scale x a) = a * a * norm x.
Proof. destruct x. unfold scale, norm. cbn. lra. Qed.

Lemma norm_nonneg (x : C) : 0 <= norm x.
Proof. destruct x. unfold norm. cbn. nra. Qed.

Lemma apply_filter_header N f g : same_header g (apply_filter N f g).
Proof. repeat split. Qed.

Lemma apply_filter_cell N f g i :
  get_fourier_from_index (apply_filter N f g) i
  = scale (get_fourier_from_index g i)
      (f (snd (get_fourier_wavevector_and_norm_by_index N g i))).
Proof.
  unfold get_fourier_from_index, apply_filter. cbn [cdelta].
  rewrite list_lookup_imap. destruct (cdelta g !! i) as [x|]; cbn.
  - reflexivity.
  - unfold scale, C0. cbn. f_equal; lra.
Qed.

Lemma apply_filter_ext N f f' g :
  (forall k, f k = f' k) -> apply_filter N f g = apply_filter N f' g.
Proof.
  intros H. unfold apply_filter. f_equal.
  apply imap_ext. intros i x _. now rewrite H.
Qed.

Lemma apply_filter_twice N f1 f2 g :
  apply_filter N f2 (apply_filter N f1 g)
  = apply_filter N (fun k => f1 k * f2 k) g.
Proof.
  unfold apply_filter. cbn [Nmesh Local_nx Local_x_start cdelta]. f_equal.
  apply list_eq. intros i. rewrite !list_lookup_imap.
  destruct (cdelta g !! i) as [x|]; cbn; [|reflexivity].
  rewrite scale_scale. reflexivity.
Qed.

Lemma filter_sharpk_values (s k : R) :
  filter_sharpk s k = 1 \/ filter_sharpk s k = 0.
Proof. unfold filter_sharpk. cbv zeta. destruct (Rltb _ _); auto. Qed.

Lemma filter_gaussian_range (s k : R) :
  0 < filter_gaussian s k <= 1.
Proof.
  unfold filter_gaussian. cbv zeta. split; [apply exp_pos|].
  destruct (Req_dec (k * s) 0) as [-> | Hne].
  - replace (- (1 / 2) * 0 * 0) with 0 by lra. rewrite exp_0. lra.
  - assert (Hsq : 0 < (k * s) * (k * s))
      by (destruct (Rdichotomy _ _ Hne); nra).
    assert (Hneg : - (1 / 2) * (k * s) * (k * s) < 0) by nra.
    pose proof (exp_increasing _ _ Hneg) as Hlt. rewrite exp_0 in Hlt. lra.
Qed.

Lemma select_filter_at_zero N s m filter :
  select_filter N s m = inr filter -> filter 0 = 1.
Proof.
  unfold select_filter.
  destruct (String.eqb m "sharpk").
  { intros [= <-]. unfold filter_sharpk. cbv zeta.
    rewrite Rmult_0_l, Rltb_true by lra. reflexivity. }
  destruct (String.eqb m "gaussian").
  { intros [= <-]. unfold filter_gaussian. cbv zeta.
    rewrite Rmult_0_l. replace (- (1 / 2) * 0 * 0) with 0 by lra.
    apply exp_0. }
  destruct (String.eqb m "tophat"); [|discriminate].
  destruct ((N =? 2)%nat || (N =? 3)%nat); [|discriminate].
  cbn [assert_mpi bind ret]. intros [= <-].
  destruct (N =? 2)%nat.
  - unfold filter_tophat_2D. cbv zeta.
    rewrite Rmult_0_l, Rltb_true by lra. reflexivity.
  - unfold filter_tophat_3D. cbv zeta.
    rewrite Rmult_0_l, Rltb_true by lra. reflexivity.
Qed.

(** X2. The mean of the field is never touched: on the task that owns the
    plane 0 the amplitude of the cell 0, the [k = 0] mode, is after the call
    what it was before, for every method, smoothing scale and dimension
    (every filter is 1 at [kR = 0], and a call that fails writes
    nothing). *)
Theorem smoothing_keeps_zero_mode (N : nat) (g : FFTWGrid) (s : R)
    (m : string) :
  Local_x_start g = 0%nat ->
  get_fourier_from_index (snd (smoothing_filter_fourier_space N g s m)) 0
  = get_fourier_from_index g 0.
Proof.
  intros Hx.
  destruct (smoothing_cell N g s m) as [(f & Hf & ->) | [_ ->]];
    [|reflexivity].
  rewrite apply_filter_cell, (kmag_at_origin N g Hx). cbn [snd].
  rewrite (select_filter_at_zero N s m f Hf). apply scale_one.
Qed.

(** X3. The sharp cut-off is a projection: smoothing a second time with
    "sharpk" and the same scale changes nothing. *)
Theorem sharpk_smoothing_idempotent (N : nat) (g : FFTWGrid) (s : R) :
  snd (smoothing_filter_fourier_space N
         (snd (smoothing_filter_fourier_space N g s "sharpk")) s "sharpk")
  = snd (smoothing_filter_fourier_space N g s "sharpk").
Proof.
  rewrite !smoothing_sharpk. cbn [snd]. rewrite apply_filter_twice.
  apply apply_filter_ext. intros k.
  destruct (filter_sharpk_values s k) as [-> | ->]; lra.
Qed.

(** X5. "sharpk" and "gaussian" are low-pass filters that never amplify:
    at every cell the squared modulus of the amplitude after the call is at
    most what it was before (the factor is 0 or 1 for "sharpk" and the
    exponential of a number that is not positive for "gaussian"). *)
Theorem smoothing_never_amplifies (N : nat) (g : FFTWGrid) (s : R)
    (m : string) (i : nat) :
  m = "sharpk"%string \/ m = "gaussian"%string ->
  norm (get_fourier_from_index
          (snd (smoothing_filter_fourier_space N g s m)) i)
  <= norm (get_fourier_from_index g i).
Proof.
  intros Hm.
  assert (Hf : exists f, snd (smoothing_filter_fourier_space N g s m)
                         = apply_filter N f g
                         /\ forall k, 0 <= f k <= 1).
  { destruct Hm as [-> | ->].
    - exists (filter_sharpk s). rewrite smoothing_sharpk. split; [reflexivity|].
      intros k. destruct (filter_sharpk_values s k) as [-> | ->]; lra.
    - exists (filter_gaussian s). rewrite smoothing_gaussian.
      split; [reflexivity|].
      intros k. pose proof (filter_gaussian_range s k). lra. }
  destruct Hf as (f & -> & Hrange).
  rewrite apply_filter_cell, norm_scale.
  set (w := f _).
  pose proof (Hrange (snd (get_fourier_wavevector_and_norm_by_index N g i)))
    as Hw.
  fold w in Hw.
  pose proof (norm_nonneg (get_fourier_from_index g i)) as Hn.
  set (n0 := norm _) in *.
  assert (Hww : w * w <= 1) by nra.
  assert (0 <= (1 - w * w) * n0) by (apply Rmult_le_pos; lra).
  lra.
Qed.

End SmoothingEffects.

Lemma smoothing_keeps_zero_mode_witness :
  get_fourier_from_index
    (snd (Smoothing.smoothing_filter_fourier_space 2 Inputs.grid2 1 "gaussian"))
    0
  = get_fourier_from_index Inputs.grid2 0.
Proof.
  apply (smoothing_keeps_zero_mode 2 Inputs.grid2 1 "gaussian").
  reflexivity.
Defined.

Lemma smoothing_never_amplifies_witness :
  norm (get_fourier_from_index
          (snd (Smoothing.smoothing_filter_fourier_space 2 Inputs.grid2 1
                  "gaussian")) 1)
  <= norm (get_fourier_from_index Inputs.grid2 1).
Proof.
  apply (smoothing_never_amplifies 2 Inputs.grid2 1 "gaussian" 1).
  right. reflexivity.
Defined.

(** *** More on the binning of a Fourier grid *)
Section BinningEffects.
Import PowerSpectrum.

Variable normalize : PowerSpectrumBinning -> PowerSpectrumBinning.
Variable N : nat.

Lemma sumR_map {A B} (f : B -> R) (h : A -> B) (l : list A) :
  sumR f (map h l) = sumR (fun a => f (h a)) l.
Proof.
  induction l as [|a l IH]; [reflexivity|].
  cbn [map]. now rewrite !sumR_cons, IH.
Qed.

(** A sum over [L] periods of a function of [ind % m]. *)
Lemma sumR_periodic (f : nat -> R) (m L : nat) :
  (0 < m)%nat ->
  sumR (fun ind => f (ind mod m)%nat) (seq 0 (L * m))
  = INR L * sumR f (seq 0 m).
Proof.
  intros Hm. induction L as [|L IH].
  - cbn [Nat.mul seq INR]. rewrite sumR_nil. lra.
  - replace (S L * m)%nat with (L * m + m)%nat by lia.
    rewrite seq_app, sumR_app, IH, S_INR. cbn [Nat.add].
    assert (Hs : seq (L * m) m = map (Nat.add (L * m)) (seq 0 m)).
    { pose proof (fmap_add_seq (L * m) 0 m) as H.
      rewrite Nat.add_0_r in H. symmetry. exact H. }
    rewrite Hs, sumR_map.
    rewrite (sumR_ext (fun a => f ((L * m + a) mod m)%nat) f).
    + lra.
    + intros c Hc. apply in_seq in Hc. f_equal.
      rewrite Nat.add_comm, Nat.Div0.mod_add. apply Nat.mod_small. lia.
Qed.

(** The weights along the packed axis, [c = 0 .. h] with [h = Nmesh/2]. *)
Lemma row_weights_prefix (h k : nat) :
  (1 <= k <= h)%nat ->
  sumR (fun c => if (0 <? c)%nat && (c <? h)%nat then 2 else 1) (seq 0 k)
  = 2 * INR k - 1.
Proof.
  intros [H1 Hk]. induction k as [|k IH]; [lia|].
  rewrite seq_S, sumR_app, sumR_cons, sumR_nil. cbn [Nat.add].
  destruct k as [|k].
  - cbn [seq]. rewrite sumR_nil. cbn. lra.
  - rewrite IH by lia.
    replace ((0 <? S k)%nat && (S k <? h)%nat) with true.
    + rewrite (S_INR (S k)). lra.
    + symmetry. apply andb_true_iff. split; apply Nat.ltb_lt; lia.
Qed.

Lemma row_weights (h : nat) :
  sumR (fun c => if (0 <? c)%nat && (c <? h)%nat then 2 else 1)
    (seq 0 (h + 1))
  = INR (Nat.max 1 (2 * h)).
Proof.
  destruct h as [|h].
  - cbn [Nat.add seq]. rewrite sumR_cons, sumR_nil. cbn. lra.
  - rewrite seq_app, sumR_app, row_weights_prefix by lia.
    cbn [Nat.add seq]. rewrite sumR_cons, sumR_nil.
    rewrite Nat.ltb_irrefl, andb_false_r.
    rewrite Nat.max_r by lia. rewrite mult_INR, (S_INR h).
    replace (INR 2) with 2 by (simpl; lra). lra.
Qed.

(** X6. The weights of the owned Fourier cells add up to
    [Local_nx * Nmesh^(N-2) * 2 (Nmesh/2)] (with [Nmesh/2] the integer
    quotient, and 1 in place of [2 (Nmesh/2)] when [Nmesh < 2]): for an
    even [Nmesh] this is [Local_nx * Nmesh^(N-1)], the number of modes of
    the full, unpacked local slab, so the weight 2 accounts exactly for
    the conjugate modes that the packed axis does not store. *)
Theorem mode_weights_count_the_modes (g : FFTWGrid) :
  sumR (mode_weight (Nmesh g)) (seq 0 (ntot_fourier N g))
  = INR (Local_nx g * Nmesh g ^ (N - 2)
         * Nat.max 1 (2 * (Nmesh g / 2))).
Proof.
  unfold ntot_fourier, mode_weight. cbv zeta.
  rewrite (sumR_periodic
             (fun c => if (0 <? c)%nat && (c <? Nmesh g / 2)%nat
                       then 2 else 1)) by lia.
  rewrite row_weights, <- mult_INR. reflexivity.
Qed.

(** X7. What the binning loop leaves in a bin before [normalize()]: the
    sum of the weights, of the weighted [|delta|^2] and of the weighted
    [|k|] over the owned cells whose [|k|] the binning puts in that bin;
    cells of other bins, and cells that no bin takes, contribute
    nothing. *)
Theorem bin_up_loop_accumulates (g : FFTWGrid) (pofk0 : PowerSpectrumBinning)
    (b : nat) :
  (b < n pofk0)%nat -> (b < length (pofk pofk0))%nat ->
  (b < length (count pofk0))%nat -> (b < length (kbin pofk0))%nat ->
  let kmag ind := snd (get_fourier_wavevector_and_norm_by_index N g ind) in
  let hits (f : nat -> R) :=
    sumR (fun ind => if decide (bin_of pofk0 (kmag ind) = Some b)
                     then f ind else 0)
      (seq 0 (ntot_fourier N g)) in
  pofk (bin_up_loop N g pofk0) !! b
  = Some (hits (fun ind => mode_weight (Nmesh g) ind
                           * norm (get_fourier_from_index g ind)))
  /\ count (bin_up_loop N g pofk0) !! b
     = Some (hits (fun ind => mode_weight (Nmesh g) ind))
  /\ kbin (bin_up_loop N g pofk0) !! b
     = Some (hits (fun ind => mode_weight (Nmesh g) ind * kmag ind)).
Proof.
  intros Hb Hlp Hlc Hlk. cbv zeta. unfold bin_up_loop.
  rewrite (fold_left_ext (bin_up_cell N g)
             (fun p ind =>
                add_to_bin p
                  (snd (get_fourier_wavevector_and_norm_by_index N g ind))
                  (norm (get_fourier_from_index g ind))
                  (mode_weight (Nmesh g) ind))).
  - destruct (fold_add_to_bin
                (fun ind => snd (get_fourier_wavevector_and_norm_by_index N g ind))
                (fun ind => norm (get_fourier_from_index g ind))
                (fun ind => mode_weight (Nmesh g) ind)
                (seq 0 (ntot_fourier N g)) (reset pofk0) b)
      as (_ & _ & Hsum).
    cbv zeta in Hsum. destruct (Hsum Hb) as (Hp & Hc & Hk).
    rewrite Hp, Hc, Hk. cbn [reset pofk count kbin bin_of].
    unfold zeroed. rewrite !list_lookup_fmap.
    destruct (lookup_lt_is_Some_2 (pofk pofk0) b Hlp) as [x Hx].
    destruct (lookup_lt_is_Some_2 (count pofk0) b Hlc) as [y Hy].
    destruct (lookup_lt_is_Some_2 (kbin pofk0) b Hlk) as [z Hz].
    rewrite Hx, Hy, Hz. cbn [fmap option_fmap option_map].
    repeat split; f_equal; lra.
  - intros p ind. unfold bin_up_cell.
    now destruct (get_fourier_wavevector_and_norm_by_index N g ind).
Qed.

(** X8. The two checks of [bin_up_power_spectrum], in their order: a grid
    with [Nmesh = 0] fails the first assertion whatever the binning is; on
    a grid with [Nmesh > 0] a binning with no bin, with [kmax <= kmin] or
    with [kmin < 0] fails the second; and the call fails in no other
    case. *)
Theorem bin_up_power_spectrum_checks (g : FFTWGrid)
    (pofk0 : PowerSpectrumBinning) :
  (Nmesh g = 0%nat ->
   bin_up_power_spectrum normalize N g pofk0
   = inl (assert_mpi_failed
            "[bin_up_power_spectrum] grid must have Nmesh > 0"))
  /\ ((0 < Nmesh g)%nat ->
      n pofk0 = 0%nat \/ kmax pofk0 <= kmin pofk0 \/ kmin pofk0 < 0 ->
      bin_up_power_spectrum normalize N g pofk0
      = inl (assert_mpi_failed
               "[bin_up_power_spectrum] Binning has inconsistent parameters"))
  /\ ((exists e, bin_up_power_spectrum normalize N g pofk0 = inl e) ->
      Nmesh g = 0%nat \/ n pofk0 = 0%nat \/ kmax pofk0 <= kmin pofk0
      \/ kmin pofk0 < 0).
Proof.
  unfold bin_up_power_spectrum. repeat split.
  - intros ->. reflexivity.
  - intros Hm Hbad.
    replace (0 <? Nmesh g)%nat with true by (symmetry; now apply Nat.ltb_lt).
    cbn [assert_mpi bind].
    replace ((0 <? n pofk0)%nat && Rltb (kmin pofk0) (kmax pofk0)
             && Rleb 0 (kmin pofk0)) with false; [reflexivity|].
    symmetry. destruct Hbad as [-> | [Hk | Hk]].
    + reflexivity.
    + rewrite Rltb_false by assumption. now rewrite andb_false_r.
    + rewrite Rleb_false by assumption. now rewrite andb_false_r.
  - intros [e He].
    destruct (Nat.ltb_spec 0 (Nmesh g)) as [Hm|Hm]; [|left; lia].
    right. cbn [assert_mpi bind] in He.
    destruct (Nat.ltb_spec 0 (n pofk0)) as [Hn|Hn]; [|left; lia].
    right. cbn [andb] in He.
    destruct (Rlt_dec (kmin pofk0) (kmax pofk0)) as [Hk|Hk]; [|left; lra].
    right. rewrite Rltb_true in He by assumption. cbn [andb] in He.
    destruct (Rle_dec 0 (kmin pofk0)) as [H0|H0]; [|lra].
    rewrite Rleb_true in He by assumption. discriminate.
Qed.

End BinningEffects.

Lemma bin_up_loop_accumulates_witness :
  exists total,
    count (PowerSpectrum.bin_up_loop 2 Inputs.grid2 Inputs.pofk2) !! 0%nat
    = Some total.
Proof.
  eexists.
  apply (bin_up_loop_accumulates 2 Inputs.grid2 Inputs.pofk2 0);
    cbn; lia.
Defined.

Lemma bin_up_power_spectrum_checks_witness :
  PowerSpectrum.bin_up_power_spectrum Inputs.normalize0 2
    (mkGrid 0 0 0 []) Inputs.pofk2
  = inl (assert_mpi_failed "[bin_up_power_spectrum] grid must have Nmesh > 0").
Proof.
  apply (proj1 (bin_up_power_spectrum_checks Inputs.normalize0 2
                  (mkGrid 0 0 0 []) Inputs.pofk2)).
  reflexivity.
Defined.

(** *** More on the multipole estimators *)
Section MultipolesEffects.
Import PowerSpectrum Multipoles.

Variable normalize : PowerSpectrumBinning -> PowerSpectrumBinning.
Variable FFTWGrid_new : nat -> nat -> nat -> FFTWGrid.
Variable particles_to_grid :
  list Particle -> nat -> FFTWGrid -> string -> FFTWGrid.
Variable fftw_r2c : FFTWGrid -> FFTWGrid.
Variable deconvolve_window_function_fourier : FFTWGrid -> string -> FFTWGrid.
Variable get_extra_slices_needed_for_density_assignment : string -> nat * nat.
Variable communicate_particles : list Particle -> list Particle.
Variable N : nat.

Lemma sumR_nonneg {A} (f : A -> R) (l : list A) :
  (forall a, In a l -> 0 <= f a) -> 0 <= sumR f l.
Proof.
  induction l as [|a l IH]; intros H; [rewrite sumR_nil; lra|].
  rewrite sumR_cons.
  pose proof (H a (in_eq a l)).
  pose proof (IH (fun b Hb => H b (in_cons a b l Hb))). lra.
Qed.

Lemma sumR_pos {A} (f : A -> R) (l : list A) (a : A) :
  (forall b, In b l -> 0 <= f b) -> In a l -> 0 < f a -> 0 < sumR f l.
Proof.
  induction l as [|b l IH]; intros H Ha Hpos; [contradiction|].
  rewrite sumR_cons.
  pose proof (H b (in_eq b l)) as Hb.
  pose proof (sumR_nonneg f l (fun c Hc => H c (in_cons b c l Hc))) as Hl.
  destruct Ha as [-> | Ha]; [lra|].
  pose proof (IH (fun c Hc => H c (in_cons b c l Hc)) Ha Hpos). lra.
Qed.

Lemma los_norm_zero (los : list R) :
  (forall idim, (idim < N)%nat -> nth idim los 0 = 0) -> los_norm N los = 0.
Proof.
  intros H. unfold los_norm. rewrite sumR_zero; [apply sqrt_0|].
  intros idim Hi. apply in_seq in Hi. rewrite H by lia. lra.
Qed.

Lemma los_norm_pos (los : list R) (idim : nat) :
  (idim < N)%nat -> nth idim los 0 <> 0 -> 0 < los_norm N los.
Proof.
  intros Hi Hne. unfold los_norm. apply sqrt_lt_R0.
  apply (sumR_pos _ _ idim).
  - intros b _. nra.
  - apply in_seq. lia.
  - destruct (Rdichotomy _ _ Hne); nra.
Qed.

Lemma add_moments_length kmag power weight mu mutoell Pell :
  length (add_moments kmag power weight mu mutoell Pell) = length Pell.
Proof.
  revert mutoell. induction Pell as [|p Pell IH]; intros mutoell;
    cbn [add_moments length]; [reflexivity | now rewrite IH].
Qed.

Lemma moments_loop_length (g : FFTWGrid) (los : list R) (rnorm : R)
    (cells : list nat) (Pell : list PowerSpectrumBinning) :
  length (fold_left (moments_cell N g los rnorm) cells Pell) = length Pell.
Proof.
  revert Pell. induction cells as [|ind cells IH]; intros Pell;
    cbn [fold_left]; [reflexivity|].
  rewrite IH. unfold moments_cell.
  destruct (get_fourier_wavevector_and_norm_by_index N g ind).
  apply add_moments_length.
Qed.

(** X9. The four checks of the grid estimator, in their order: a line of
    sight whose size is not [N], an empty [Pell], a grid with
    [Nmesh = 0], and a line of sight whose first [N] components are all
    zero each fail with the message of their assertion; when some
    component is not zero the call returns, with as many multipoles as
    it was given. *)
Theorem grid_multipoles_checks (g : FFTWGrid)
    (Pell : list PowerSpectrumBinning) (los : list R)
    (others : list PowerSpectrumBinning) :
  (length los <> N ->
   compute_power_spectrum_multipoles normalize N g Pell los others
   = inl (assert_mpi_failed
            "[compute_power_spectrum_multipoles] Line of sight direction has wrong number of dimensions"))
  /\ (length los = N -> Pell = [] ->
      compute_power_spectrum_multipoles normalize N g Pell los others
      = inl (assert_mpi_failed
               "[compute_power_spectrum_multipoles] Pell must have size > 0"))
  /\ (length los = N -> Pell <> [] -> Nmesh g = 0%nat ->
      compute_power_spectrum_multipoles normalize N g Pell los others
      = inl (assert_mpi_failed
               "[compute_power_spectrum_multipoles] grid must have Nmesh > 0"))
  /\ (length los = N -> Pell <> [] -> (0 < Nmesh g)%nat ->
      (forall idim, (idim < N)%nat -> nth idim los 0 = 0) ->
      compute_power_spectrum_multipoles normalize N g Pell los others
      = inl (assert_mpi_failed
               "[compute_power_spectrum_multipoles] Line of sight vector has zero length"))
  /\ (length los = N -> Pell <> [] -> (0 < Nmesh g)%nat ->
      (exists idim, (idim < N)%nat /\ nth idim los 0 <> 0) ->
      exists P,
        compute_power_spectrum_multipoles normalize N g Pell los others
        = inr P
        /\ length P = length Pell).
Proof.
  unfold compute_power_spectrum_multipoles, multipole_moments.
  split; [|split; [|split; [|split]]].
  - intros Hl. apply Nat.eqb_neq in Hl. now rewrite Hl.
  - intros Hl ->. apply Nat.eqb_eq in Hl. now rewrite Hl.
  - intros Hl Hp Hm. apply Nat.eqb_eq in Hl. rewrite Hl, Hm.
    destruct Pell; [contradiction | reflexivity].
  - intros Hl Hp Hm Hz. apply Nat.eqb_eq in Hl. rewrite Hl.
    apply Nat.ltb_lt in Hm. rewrite Hm.
    destruct Pell; [contradiction|].
    cbn [length Nat.ltb Nat.leb assert_mpi bind].
    rewrite (los_norm_zero los Hz), Rltb_false by lra. reflexivity.
  - intros Hl Hp Hm (idim & Hi & Hne). apply Nat.eqb_eq in Hl. rewrite Hl.
    apply Nat.ltb_lt in Hm. rewrite Hm.
    assert (Hlen : (0 <? length Pell)%nat = true).
    { apply Nat.ltb_lt. destruct Pell; [contradiction | cbn; lia]. }
    rewrite Hlen, Rltb_true by now apply (los_norm_pos los idim).
    cbn [assert_mpi bind ret]. eexists. split; [reflexivity|].
    unfold legendre_projection.
    now rewrite length_imap, length_map, length_imap, moments_loop_length,
      length_map.
Qed.

(** The zeroth moment of the loop over the cells is what the loop of
    [bin_up_power_spectrum] accumulates, whatever [mu] is. *)
Lemma moments_loop_head (g : FFTWGrid) (los : list R) (rnorm : R)
    (cells : list nat) (q : PowerSpectrumBinning)
    (qs : list PowerSpectrumBinning) :
  fold_left (moments_cell N g los rnorm) cells (q :: qs) !! 0%nat
  = Some (fold_left (bin_up_cell N g) cells q).
Proof.
  revert q qs. induction cells as [|ind cells IH]; intros q qs;
    cbn [fold_left]; [reflexivity|].
  unfold moments_cell at 2, bin_up_cell at 2.
  destruct (get_fourier_wavevector_and_norm_by_index N g ind) as [kvec kmag].
  cbn [add_moments]. rewrite IH, Rmult_1_r. reflexivity.
Qed.

Lemma allreduce_nothing (p : PowerSpectrumBinning) :
  allreduce_binning no_binning p = p.
Proof.
  assert (H : forall c l, MPI_Allreduce_SUM [] c l = l).
  { intros c l. unfold MPI_Allreduce_SUM. apply list_eq. intros i.
    rewrite list_lookup_imap. destruct (l !! i) as [x|]; [|reflexivity].
    cbn [fmap option_fmap option_map]. f_equal.
    destruct (i <? c)%nat; [|reflexivity].
    replace (nth i [] 0) with 0 by (destruct i; reflexivity). lra. }
  destruct p. unfold allreduce_binning, no_binning.
  cbn [n kmin kmax bin_of kbin pofk count]. now rewrite !H.
Qed.

Lemma legendre_sum_monopole (M : list PowerSpectrumBinning) :
  legendre_sum M 0 = pofk (nth 0 M no_binning).
Proof.
  unfold legendre_sum. apply list_eq. intros i.
  rewrite (fold_imap_add
    (fun k i => nth i (pofk (nth (0 - 2 * k) M no_binning)) 0
                * summand_legendre_polynomial k 0)).
  cbn [Nat.div Nat.divmod fst Nat.add seq].
  rewrite sumR_cons, sumR_nil. cbn [Nat.mul Nat.sub Nat.add].
  set (l := pofk (nth 0 M no_binning)).
  destruct (decide (i < length l)%nat) as [Hi|Hi].
  - rewrite lookup_replicate_2 by assumption.
    destruct (lookup_lt_is_Some_2 l i Hi) as [x Hx].
    rewrite Hx, (nth_lookup_Some _ _ _ _ Hx).
    cbn [fmap option_fmap option_map]. f_equal.
    unfold summand_legendre_polynomial, binomial.
    cbn [Nat.modulo Nat.divmod snd fst Nat.sub Nat.eqb Nat.mul seq fold_left
         pow].
    lra.
  - rewrite !lookup_ge_None_2; [reflexivity | lia |].
    rewrite length_replicate. lia.
Qed.

(** X10. The monopole of the grid estimator is the power spectrum: in a
    run of one task, whenever the grid estimator and
    [bin_up_power_spectrum] both return on the same grid, [Pell[0]] is the
    binning that [bin_up_power_spectrum] returns for it, whatever the line
    of sight is; the division [0/0] of [mu] at [k = 0] never reaches
    it. *)
Theorem multipoles_monopole_is_power_spectrum (g : FFTWGrid)
    (p : PowerSpectrumBinning) (rest : list PowerSpectrumBinning)
    (los : list R) (P : list PowerSpectrumBinning)
    (Q : PowerSpectrumBinning) :
  compute_power_spectrum_multipoles normalize N g (p :: rest) los [] = inr P ->
  bin_up_power_spectrum normalize N g p = inr Q ->
  P !! 0%nat = Some Q.
Proof.
  unfold compute_power_spectrum_multipoles, multipole_moments,
    bin_up_power_spectrum.
  destruct (length los =? N)%nat; [|discriminate].
  destruct (0 <? Nmesh g)%nat; [|discriminate].
  replace (0 <? length (p :: rest))%nat with true by reflexivity.
  cbn [assert_mpi bind].
  destruct (Rltb 0 (los_norm N los)); [|discriminate].
  destruct ((0 <? n p)%nat && Rltb (kmin p) (kmax p) && Rleb 0 (kmin p));
    [|discriminate].
  cbn [assert_mpi bind ret map]. intros [= <-] [= <-].
  set (cells := seq 0 (ntot_fourier N g)).
  pose proof (moments_loop_head g los (los_norm N los) cells (reset p)
                (map reset rest)) as Hhead.
  set (F := fold_left _ cells (reset p :: map reset rest)) in *.
  set (M := map normalize _).
  assert (HM : M !! 0%nat = Some (normalize (bin_up_loop N g p))).
  { subst M. rewrite list_lookup_fmap, list_lookup_imap, Hhead.
    cbn [fmap option_fmap option_map nth]. now rewrite allreduce_nothing. }
  unfold legendre_projection. rewrite list_lookup_imap, HM.
  cbn [fmap option_fmap option_map]. f_equal.
  assert (H0 : (0 < length M)%nat) by now apply lookup_lt_Some in HM.
  destruct (length M) as [|k] eqn:Hk; [lia|].
  cbn [seq map nth]. rewrite legendre_sum_monopole.
  rewrite (nth_lookup_Some _ _ _ _ HM).
  now destruct (normalize (bin_up_loop N g p)).
Qed.

(** *** The displacement into redshift space and back *)

Lemma periodic_in_box (x d : R) :
  0 <= x < 1 -> -1 < d < 1 -> 0 <= periodic (x + d) < 1.
Proof.
  intros Hx Hd. unfold periodic, Rltb, Rleb.
  destruct (Rlt_dec (x + d) 0);
    match goal with |- context [Rle_dec ?a ?b] => destruct (Rle_dec a b) end;
    lra.
Qed.

(** X11. A displacement of at most half a box length keeps the particle
    in the unit box: when every coordinate is in [[0,1)] and the
    displacement [vdotr * los[idim] * velocity_to_displacement] of every
    axis is in [[-1/2,1/2]], every coordinate of the displaced particle is
    again in [[0,1)].  The code wraps once, so a displacement of a box
    length or more is not brought back. *)
Theorem displaced_particle_stays_in_box (los : list R) (v : R)
    (p : Particle) :
  in_unit_box p ->
  (forall idim, (idim < N)%nat ->
     -1 / 2 <= vdotr_of N los p * nth idim los 0 * v <= 1 / 2) ->
  in_unit_box (displace N los v p).
Proof.
  intros Hbox Hd. unfold in_unit_box, displace, set_pos in *.
  cbn [get_pos]. apply Forall_lookup. intros i y Hy.
  rewrite list_lookup_imap in Hy.
  destruct (get_pos p !! i) as [x|] eqn:Hx; [|discriminate].
  cbn [fmap option_fmap option_map] in Hy. injection Hy as <-.
  pose proof (proj1 (Forall_lookup _ _) Hbox i x Hx) as Hxb.
  destruct (Nat.ltb_spec i N) as [Hi|Hi]; [|exact Hxb].
  apply periodic_in_box; [exact Hxb|].
  specialize (Hd i Hi). lra.
Qed.

End MultipolesEffects.

(** *** The statements above on concrete inputs *)

Lemma grid_multipoles_checks_witness :
  Multipoles.compute_power_spectrum_multipoles Inputs.normalize0 2
    Inputs.grid2 [Inputs.pofk2] [0; 0] []
  = inl (assert_mpi_failed
           "[compute_power_spectrum_multipoles] Line of sight vector has zero length").
Proof.
  apply (proj1 (proj2 (proj2 (proj2
           (grid_multipoles_checks Inputs.normalize0 2 Inputs.grid2
              [Inputs.pofk2] [0; 0] []))))).
  - reflexivity.
  - discriminate.
  - cbn. lia.
  - intros [|[|idim]] Hi; [reflexivity | reflexivity | lia].
Defined.

Lemma multipoles_monopole_is_power_spectrum_witness :
  exists P Q,
    Multipoles.compute_power_spectrum_multipoles Inputs.normalize0 2
      Inputs.grid2 [Inputs.pofk2; Inputs.pofk2] [0; 1] [] = inr P
    /\ PowerSpectrum.bin_up_power_spectrum Inputs.normalize0 2 Inputs.grid2
         Inputs.pofk2 = inr Q
    /\ P !! 0%nat = Some Q.
Proof.
  destruct (grid_multipoles_returns Inputs.normalize0 2 Inputs.grid2
              [Inputs.pofk2; Inputs.pofk2] [0; 1] [])
    as [P HP].
  - reflexivity.
  - discriminate.
  - cbn. lia.
  - apply (los_norm_pos 2 [0; 1] 1); [lia | cbn; lra].
  - assert (HQ : PowerSpectrum.bin_up_power_spectrum Inputs.normalize0 2
                   Inputs.grid2 Inputs.pofk2
                 = inr (Inputs.normalize0
                          (PowerSpectrum.bin_up_loop 2 Inputs.grid2
                             Inputs.pofk2))).
    { unfold PowerSpectrum.bin_up_power_spectrum.
      cbn [Inputs.grid2 Inputs.pofk2 Nmesh n kmin kmax Nat.ltb Nat.leb].
      rewrite Rltb_true, Rleb_true by lra. reflexivity. }
    exists P, (Inputs.normalize0
                 (PowerSpectrum.bin_up_loop 2 Inputs.grid2 Inputs.pofk2)).
    split; [exact HP|]. split; [exact HQ|].
    exact (multipoles_monopole_is_power_spectrum Inputs.normalize0 2
             Inputs.grid2 Inputs.pofk2 [Inputs.pofk2] [0; 1] P _ HP HQ).
Defined.

Lemma displaced_particle_stays_in_box_witness :
  in_unit_box
    (Multipoles.displace 2 [1; 0] (1 / 2) (mkParticle [3 / 4; 1 / 4] [1; 0])).
Proof.
  apply (displaced_particle_stays_in_box 2 [1; 0] (1 / 2)
           (mkParticle [3 / 4; 1 / 4] [1; 0])).
  - unfold in_unit_box. cbn [get_pos]. repeat constructor; lra.
  - intros idim Hi. unfold Multipoles.vdotr_of, sumR.
    cbn [seq fold_left get_vel nth].
    destruct idim as [|[|idim]]; cbn [nth]; [lra | lra | lia].
Defined.

(** ** The multipole Q-term *)
Section QTermFacts.
Import QTerm.

Variable N : nat.
Variable get_real_position : nat -> list R.

Lemma times_components_from (pos : list R) (Qindex : list nat) (value : R) :
  times_components pos Qindex value
  = value * times_components pos Qindex 1.
Proof.
  unfold times_components. revert value.
  induction Qindex as [|ii Qindex IH]; intros value; cbn [fold_left].
  - lra.
  - rewrite IH, (IH (1 * nth ii pos 0)). ring.
Qed.

Lemma times_components_cons (pos : list R) (ii : nat) (Qindex : list nat)
    (value : R) :
  times_components pos (ii :: Qindex) value
  = nth ii pos 0 * times_components pos Qindex value.
Proof.
  unfold times_components. cbn [fold_left].
  fold (times_components pos Qindex (value * nth ii pos 0)).
  fold (times_components pos Qindex value).
  rewrite times_components_from, (times_components_from pos Qindex value).
  ring.
Qed.

(** The loop over the real cells: cell [i] of [Q_real] receives the
    density of the cell times the components of its unit direction; the
    cells of [Q_real] beyond the range of [density_real] are left. *)
Lemma Q_loop (density_real Q_real : list R) (Qindex : list nat)
    (origin : list R) (i : nat) :
  fold_left (Q_cell N get_real_position density_real Qindex origin)
    (seq 0 (length density_real)) Q_real !! i
  = if decide (i < length density_real)%nat
    then (fun _ =>
            times_components
              (unit_direction N origin (get_real_position i)) Qindex
              (nth i density_real 0)) <$> (Q_real !! i)
    else Q_real !! i.
Proof.
  rewrite (fold_left_ext _
             (own_cell_step
                (fun i _ =>
                   Some (times_components
                           (unit_direction N origin (get_real_position i))
                           Qindex (nth i density_real 0))))).
  - rewrite fold_own_cell.
    destruct (decide (i < length density_real)%nat); [|reflexivity].
    now destruct (Q_real !! i).
  - intros l j. unfold Q_cell, own_cell_step.
    destruct (l !! j) eqn:Hj; [reflexivity|].
    apply list_insert_ge. now apply lookup_ge_None.
Qed.

Lemma Q_term_returns (density_real Q_real : list R) (Qindex : list nat)
    (origin : list R) :
  Qindex <> [] -> length origin = N ->
  compute_multipole_Q_term N get_real_position density_real Q_real Qindex
    origin
  = inr (fold_left (Q_cell N get_real_position density_real Qindex origin)
           (seq 0 (length density_real)) Q_real).
Proof.
  intros HQ Ho. unfold compute_multipole_Q_term.
  apply Nat.eqb_eq in Ho. rewrite Ho.
  destruct Qindex; [contradiction | reflexivity].
Qed.

Lemma Q_term_cell (density_real Q_real : list R) (Qindex : list nat)
    (origin : list R) (i : nat) :
  Qindex <> [] -> length origin = N ->
  (i < length density_real)%nat -> (i < length Q_real)%nat ->
  exists Q,
    compute_multipole_Q_term N get_real_position density_real Q_real Qindex
      origin = inr Q
    /\ nth i Q 0
       = times_components (unit_direction N origin (get_real_position i))
           Qindex (nth i density_real 0).
Proof.
  intros HQ Ho Hi Hq. eexists. split; [now apply Q_term_returns|].
  rewrite nth_lookup, Q_loop.
  destruct (decide (i < length density_real)%nat); [|lia].
  destruct (lookup_lt_is_Some_2 Q_real i Hq) as [x ->]. reflexivity.
Qed.

(** The components of the unit direction. *)
Lemma unit_direction_component (origin pos : list R) (a : nat) :
  length pos = N -> (a < N)%nat ->
  nth a (unit_direction N origin pos) 0
  = nth a (shifted N origin pos) 0 / norm_of N (shifted N origin pos).
Proof.
  intros Hl Ha. unfold unit_direction. cbv zeta.
  rewrite (nth_lookup (imap _ _)), list_lookup_imap.
  assert (Hs : (a < length (shifted N origin pos))%nat).
  { unfold shifted. rewrite length_imap. lia. }
  destruct (lookup_lt_is_Some_2 _ a Hs) as [x Hx].
  rewrite Hx, (nth_lookup_Some _ _ _ _ Hx).
  cbn [fmap option_fmap option_map default from_option].
  apply Nat.ltb_lt in Ha. now rewrite Ha.
Qed.

Lemma norm_of_sqr (pos : list R) :
  norm_of N pos * norm_of N pos
  = sumR (fun idim => nth idim pos 0 * nth idim pos 0) (seq 0 N).
Proof.
  unfold norm_of. apply sqrt_sqrt. apply sumR_nonneg.
  intros a _. nra.
Qed.

Lemma unit_component_bound (origin pos : list R) (a : nat) :
  length pos = N -> (a < N)%nat ->
  norm_of N (shifted N origin pos) <> 0 ->
  Rabs (nth a (unit_direction N origin pos) 0) <= 1.
Proof.
  intros Hl Ha Hn. rewrite unit_direction_component by assumption.
  set (s := shifted N origin pos) in *.
  pose proof (norm_of_sqr s) as Hsq.
  assert (Hpos : 0 <= norm_of N s) by (unfold norm_of; apply sqrt_pos).
  assert (Hle : nth a s 0 * nth a s 0 <= norm_of N s * norm_of N s).
  { rewrite Hsq.
    assert (Hsplit : seq 0 N = seq 0 a ++ a :: seq (S a) (N - S a)).
    { replace N with (a + S (N - S a))%nat at 1 by lia.
      rewrite seq_app. reflexivity. }
    rewrite Hsplit, sumR_app, sumR_cons.
    pose proof (sumR_nonneg (fun idim => nth idim s 0 * nth idim s 0)
                  (seq 0 a) ltac:(intros; nra)).
    pose proof (sumR_nonneg (fun idim => nth idim s 0 * nth idim s 0)
                  (seq (S a) (N - S a)) ltac:(intros; nra)).
    lra. }
  set (x := nth a s 0) in *. set (nrm := norm_of N s) in *.
  assert (Hnpos : 0 < nrm) by lra.
  unfold Rdiv. rewrite Rabs_mult, (Rabs_inv nrm), (Rabs_right nrm) by lra.
  apply (Rmult_le_reg_r nrm); [assumption|].
  rewrite Rmult_assoc, Rinv_l, Rmult_1_r, Rmult_1_l by lra.
  apply Rabs_le. split; nra.
Qed.

(** X15. A Q-term never exceeds the density in modulus: at a cell that is
    not at the origin, and for indices below [N], the value written to
    [Q_real] is the density of the cell times a product of components of
    a unit vector. *)
Theorem Q_term_bounded (density_real Q_real : list R) (Qindex : list nat)
    (origin : list R) (i : nat) :
  Qindex <> [] -> Forall (fun ii => (ii < N)%nat) Qindex ->
  length origin = N -> (i < length density_real)%nat ->
  (i < length Q_real)%nat -> length (get_real_position i) = N ->
  norm_of N (shifted N origin (get_real_position i)) <> 0 ->
  exists Q,
    compute_multipole_Q_term N get_real_position density_real Q_real Qindex
      origin = inr Q
    /\ Rabs (nth i Q 0) <= Rabs (nth i density_real 0).
Proof.
  intros HQ Hall Ho Hi Hq Hpos Hnorm.
  destruct (Q_term_cell density_real Q_real Qindex origin i HQ Ho Hi Hq)
    as (Q & HQr & Hcell).
  exists Q. split; [exact HQr|]. rewrite Hcell. clear HQ HQr Hcell.
  set (u := unit_direction N origin (get_real_position i)).
  generalize (nth i density_real 0). intros v.
  induction Hall as [|ii Qindex Hii _ IH].
  - unfold times_components. cbn [fold_left]. lra.
  - rewrite times_components_cons, Rabs_mult.
    pose proof (unit_component_bound origin (get_real_position i) ii Hpos Hii
                  Hnorm) as Hu.
    fold u in Hu. pose proof (Rabs_pos (nth ii u 0)).
    pose proof (Rabs_pos (times_components u Qindex v)). nra.
Qed.

End QTermFacts.

(** *** The statements above on concrete inputs *)

Lemma Q_term_bounded_witness :
  exists Q,
    QTerm.compute_multipole_Q_term 2 Inputs2.cell_positions2 [5; 7] [0; 0]
      [0; 1]%nat [0; 0] = inr Q
    /\ Rabs (nth 1 Q 0) <= Rabs (nth 1 [5; 7] 0).
Proof.
  apply (Q_term_bounded 2 Inputs2.cell_positions2 [5; 7] [0; 0] [0; 1]%nat
           [0; 0] 1).
  - discriminate.
  - repeat constructor.
  - reflexivity.
  - cbn. lia.
  - cbn. lia.
  - reflexivity.
  - apply Rgt_not_eq, Rlt_gt. unfold QTerm.norm_of. apply sqrt_lt_R0.
    unfold sumR, QTerm.shifted, Inputs2.cell_positions2.
    cbn [seq fold_left imap nth Nat.ltb Nat.leb compose INR]. lra.
Defined.

(** ** The shells of the bispectrum and of the polyspectrum *)
Section ShellEdges.
Import Polyspectrum.

Variable nbins : nat.
Variable k : list R.

Lemma khigh_mid (i : nat) :
  (i + 1 < nbins)%nat ->
  khigh nbins k i = (nth i k 0 + nth (i + 1) k 0) / 2.
Proof.
  intros Hi. unfold khigh. destruct (Nat.eqb_spec i 0) as [->|Hne].
  - cbn [Nat.add]. lra.
  - replace (i <? nbins - 1)%nat with true
      by (symmetry; apply Nat.ltb_lt; lia).
    lra.
Qed.

Lemma khigh_last : (2 <= nbins)%nat -> khigh nbins k (nbins - 1) = nth (nbins - 1) k 0.
Proof.
  intros Hn. unfold khigh.
  replace (nbins - 1 =? 0)%nat with false
    by (symmetry; apply Nat.eqb_neq; lia).
  now rewrite Nat.ltb_irrefl.
Qed.

Lemma klow_succ (i : nat) : klow nbins k (S i) = khigh nbins k i.
Proof. unfold klow. cbn [Nat.eqb]. now rewrite Nat.sub_succ, Nat.sub_0_r. Qed.

Lemma khigh_lt (i : nat) :
  (2 <= nbins)%nat -> increasing_bins nbins k -> (i + 1 < nbins)%nat ->
  khigh nbins k i < khigh nbins k (i + 1).
Proof.
  intros Hn [_ Hinc] Hi. rewrite khigh_mid by assumption.
  pose proof (Hinc i Hi) as H1.
  destruct (decide (i + 1 + 1 < nbins)%nat) as [H2|H2].
  - rewrite khigh_mid by assumption. pose proof (Hinc (i + 1)%nat H2). lra.
  - replace (i + 1)%nat with (nbins - 1)%nat in * by lia.
    rewrite khigh_last by assumption. lra.
Qed.

Lemma khigh_mono (i j : nat) :
  (2 <= nbins)%nat -> increasing_bins nbins k ->
  (i <= j)%nat -> (j < nbins)%nat -> khigh nbins k i <= khigh nbins k j.
Proof.
  intros Hn Hinc Hij Hj. induction j as [|j IH].
  - replace i with 0%nat by lia. lra.
  - destruct (decide (i = S j)) as [->|Hne]; [lra|].
    pose proof (khigh_lt j Hn Hinc ltac:(lia)) as Hlt.
    replace (j + 1)%nat with (S j) in Hlt by lia.
    pose proof (IH ltac:(lia) ltac:(lia)). lra.
Qed.

Lemma klow_lt_khigh (i : nat) :
  (2 <= nbins)%nat -> increasing_bins nbins k -> (i < nbins)%nat ->
  klow nbins k i < khigh nbins k i.
Proof.
  intros Hn Hinc Hi. destruct i as [|i].
  - unfold klow. cbn [Nat.eqb]. rewrite khigh_mid by lia.
    destruct Hinc as [_ Hinc]. pose proof (Hinc 0%nat ltac:(lia)) as H.
    cbn [Nat.add] in *. lra.
  - rewrite klow_succ. pose proof (khigh_lt i Hn Hinc ltac:(lia)) as H.
    now replace (i + 1)%nat with (S i) in H by lia.
Qed.

Lemma klow_lower (i : nat) :
  (2 <= nbins)%nat -> increasing_bins nbins k -> (i < nbins)%nat ->
  nth 0 k 0 <= klow nbins k i.
Proof.
  intros Hn Hinc Hi. destruct i as [|i].
  - unfold klow. cbn [Nat.eqb]. lra.
  - rewrite klow_succ.
    pose proof (khigh_mono 0 i Hn Hinc ltac:(lia) ltac:(lia)).
    pose proof (klow_lt_khigh 0 Hn Hinc ltac:(lia)) as H0.
    unfold klow in H0. cbn [Nat.eqb] in H0. lra.
Qed.

Lemma khigh_upper (i : nat) :
  (2 <= nbins)%nat -> increasing_bins nbins k -> (i < nbins)%nat ->
  khigh nbins k i <= nth (nbins - 1) k 0.
Proof.
  intros Hn Hinc Hi. rewrite <- khigh_last by assumption.
  apply khigh_mono; (assumption || lia).
Qed.

Lemma shells_ordered (i j : nat) :
  (2 <= nbins)%nat -> increasing_bins nbins k ->
  (i < j)%nat -> (j < nbins)%nat -> khigh nbins k i <= klow nbins k j.
Proof.
  intros Hn Hinc Hij Hj. destruct j as [|j]; [lia|].
  rewrite klow_succ. apply khigh_mono; (assumption || lia).
Qed.

Lemma in_range_iff (a b x : R) : in_range a b x = true <-> a <= x < b.
Proof.
  unfold in_range, Rleb, Rltb.
  destruct (Rle_dec b x), (Rlt_dec x a); cbn; split;
    try discriminate; try lra; reflexivity.
Qed.

Lemma shells_cover_from (x : R) (d j : nat) :
  (2 <= nbins)%nat -> increasing_bins nbins k ->
  (j + d = nbins - 1)%nat ->
  klow nbins k j * klow nbins k j <= x ->
  x < nth (nbins - 1) k 0 * nth (nbins - 1) k 0 ->
  exists i, (i < nbins)%nat /\ in_shell nbins k i x = true.
Proof.
  intros Hn Hinc. revert j. induction d as [|d IH]; intros j Hj Hlo Hhi.
  - exists j. split; [lia|]. apply in_range_iff. split; [exact Hlo|].
    replace j with (nbins - 1)%nat by lia. now rewrite khigh_last.
  - destruct (Rlt_dec x (khigh nbins k j * khigh nbins k j)) as [Hx|Hx].
    + exists j. split; [lia|]. apply in_range_iff. auto.
    + apply (IH (S j)); [lia | | exact Hhi].
      rewrite klow_succ. lra.
Qed.

(** X16. For bin positions that start at a non-negative [k] and increase,
    the shells partition the range: a cell with
    [k[0]^2 <= |k|^2 < k[nbins-1]^2] passes the test of exactly one shell,
    and a cell outside that range passes the test of none; no Fourier
    mode is counted in two shells. *)
Theorem shells_partition_the_range (x : R) :
  (2 <= nbins)%nat -> increasing_bins nbins k ->
  (forall i j, (i < nbins)%nat -> (j < nbins)%nat ->
     in_shell nbins k i x = true -> in_shell nbins k j x = true -> i = j)
  /\ ((exists i, (i < nbins)%nat /\ in_shell nbins k i x = true)
      <-> nth 0 k 0 * nth 0 k 0 <= x
          < nth (nbins - 1) k 0 * nth (nbins - 1) k 0).
Proof.
  intros Hn Hinc.
  assert (Hsep : forall i j, (i < j)%nat -> (j < nbins)%nat ->
            in_shell nbins k i x = true -> in_shell nbins k j x = true ->
            False).
  { intros i j Hij Hj Hi%in_range_iff Hjx%in_range_iff.
    pose proof (shells_ordered i j Hn Hinc Hij Hj) as Hord.
    pose proof (klow_lower i Hn Hinc ltac:(lia)) as Hl.
    pose proof (klow_lt_khigh i Hn Hinc ltac:(lia)) as Hlt.
    destruct Hinc as [H0 _]. nra. }
  split.
  - intros i j Hi Hj Hix Hjx.
    destruct (Nat.lt_trichotomy i j) as [H|[H|H]]; [|exact H|].
    + destruct (Hsep i j H Hj Hix Hjx).
    + destruct (Hsep j i H Hi Hjx Hix).
  - split.
    + intros (i & Hi & Hix%in_range_iff).
      pose proof (klow_lower i Hn Hinc Hi) as Hl.
      pose proof (khigh_upper i Hn Hinc Hi) as Hu.
      pose proof (klow_lt_khigh i Hn Hinc Hi) as Hlt.
      destruct Hinc as [H0 _]. split; nra.
    + intros [Hlo Hhi].
      apply (shells_cover_from x (nbins - 1) 0 Hn Hinc); [lia | | exact Hhi].
      unfold klow. cbn [Nat.eqb]. exact Hlo.
Qed.

End ShellEdges.

Section ShellLoop.
Import Polyspectrum.

Variable fftw_c2r : FFTWGrid -> list R.
Variable N : nat.
Variable others : contributions.

Lemma insert_imap_step {A B} (f f' : nat -> A -> B) (l : list A) (kk : nat)
    (v : B) :
  (forall j x, l !! j = Some x -> j <> kk -> f' j x = f j x) ->
  (forall x, l !! kk = Some x -> f' kk x = v) ->
  <[kk := v]> (imap f l) = imap f' l.
Proof.
  intros Hother Hkk. apply list_eq. intros j.
  destruct (decide (j = kk)) as [->|Hne].
  - destruct (l !! kk) as [x|] eqn:Hx.
    + rewrite list_lookup_insert_eq
        by (rewrite length_imap; now apply lookup_lt_Some in Hx).
      rewrite list_lookup_imap, Hx. cbn [fmap option_fmap option_map].
      f_equal. symmetry. now apply Hkk.
    + rewrite list_insert_ge
        by (rewrite length_imap; now apply lookup_ge_None).
      now rewrite !list_lookup_imap, Hx.
  - rewrite list_lookup_insert_ne by auto. rewrite !list_lookup_imap.
    destruct (l !! j) as [x|] eqn:Hx; cbn [fmap option_fmap option_map];
      [|reflexivity].
    f_equal. symmetry. now apply Hother.
Qed.

(** The loop over the Fourier cells of one shell, after its first [kk]
    turns. *)
Lemma shell_loop_prefix (kmin2 kmax2 : R) (g : FFTWGrid) (kk : nat) :
  let inside := inside_shell N kmin2 kmax2 g in
  let st :=
    fold_left (shell_cell N kmin2 kmax2) (seq 0 kk)
      (mkShell g (fill_fourier_grid_zero g) 0 0 0) in
  same_header g (grid st) /\ same_header g (count_grid st)
  /\ cdelta (grid st)
     = imap (fun j x => if (j <? kk)%nat && negb (inside j) then C0 else x)
         (cdelta g)
  /\ cdelta (count_grid st)
     = imap (fun j (_ : C) => if (j <? kk)%nat && inside j then C1 else C0)
         (cdelta g)
  /\ kmean st
     = sumR (fun j => if inside j
                      then sqrt (norm2 (get_fourier_wavevector_from_index N g j))
                      else 0) (seq 0 kk)
  /\ pofk_sum st
     = sumR (fun j => if inside j then norm (get_fourier_from_index g j)
                      else 0) (seq 0 kk)
  /\ nk st = sumR (fun j => if inside j then 1 else 0) (seq 0 kk).
Proof.
  cbv zeta. induction kk as [|kk IH].
  - cbn [seq fold_left grid count_grid kmean pofk_sum nk].
    rewrite !sumR_nil. repeat split.
    + symmetry. rewrite <- (list_fmap_id (cdelta g)) at 2.
      rewrite <- imap_const. apply imap_ext. reflexivity.
    + unfold fill_fourier_grid_zero. cbn [cdelta].
      change (map (fun _ : C => C0) (cdelta g))
        with ((fun _ : C => C0) <$> cdelta g).
      rewrite <- imap_const. apply imap_ext. reflexivity.
  - rewrite !sumR_seq_S, seq_S, fold_left_app. cbn [Nat.add fold_left].
    set (st := fold_left _ (seq 0 kk) _) in *.
    destruct IH as (Hg & Hc & Hgd & Hcd & Hkm & Hps & Hnk).
    rewrite <- Hkm, <- Hps, <- Hnk.
    unfold shell_cell. cbv zeta.
    rewrite (wavevector_same_header N g (grid st) kk Hg).
    assert (Hstep : forall j, j <> kk -> (j <? S kk)%nat = (j <? kk)%nat).
    { intros j Hne.
      destruct (Nat.ltb_spec j kk), (Nat.ltb_spec j (S kk));
        (reflexivity || lia). }
    assert (Hkk : (kk <? S kk)%nat = true) by (apply Nat.ltb_lt; lia).
    destruct (inside_shell N kmin2 kmax2 g kk) eqn:Hins.
    + (* the cell is inside the range *)
      pose proof Hins as Hin. unfold inside_shell, in_range in Hin.
      apply negb_true_iff in Hin. rewrite Hin.
      cbn [grid count_grid kmean pofk_sum nk set_fourier_from_index cdelta].
      assert (Hget : get_fourier_from_index (grid st) kk
                     = get_fourier_from_index g kk).
      { unfold get_fourier_from_index. rewrite Hgd, list_lookup_imap.
        destruct (cdelta g !! kk); [|reflexivity].
        cbn [fmap option_fmap option_map].
        now rewrite Nat.ltb_irrefl. }
      rewrite Hget, Hgd, Hcd.
      split; [exact Hg|]. split.
      { destruct Hc as (?&?&?). repeat split; assumption. }
      split; [|split; [|repeat split; reflexivity]].
      * apply imap_ext. intros j x _.
        destruct (decide (j = kk)) as [->|Hne].
        -- rewrite Nat.ltb_irrefl, Hins. cbn [negb andb].
           now rewrite andb_false_r.
        -- now rewrite Hstep.
      * apply insert_imap_step.
        -- intros j x _ Hne. now rewrite Hstep.
        -- intros x _. now rewrite Hkk, Hins.
    + (* the cell is outside the range *)
      pose proof Hins as Hin. unfold inside_shell, in_range in Hin.
      apply negb_false_iff in Hin. rewrite Hin.
      cbn [grid count_grid kmean pofk_sum nk set_fourier_from_index cdelta].
      rewrite Hgd, Hcd.
      split. { destruct Hg as (?&?&?). repeat split; assumption. }
      split. { destruct Hc as (?&?&?). repeat split; assumption. }
      split; [|split; [|repeat split; lra]].
      * apply insert_imap_step.
        -- intros j x _ Hne. now rewrite Hstep.
        -- intros x _. now rewrite Hkk, Hins.
      * apply insert_imap_step.
        -- intros j x _ Hne. now rewrite Hstep.
        -- intros x _. now rewrite Hkk, Hins.
Qed.

Lemma shell_loop (kmin2 kmax2 : R) (g : FFTWGrid) :
  let hits (f : nat -> R) :=
    sumR (fun ind => if inside_shell N kmin2 kmax2 g ind then f ind else 0)
      (get_fourier_range g) in
  let st :=
    fold_left (shell_cell N kmin2 kmax2) (get_fourier_range g)
      (mkShell g (fill_fourier_grid_zero g) 0 0 0) in
  grid st = masked_grid N kmin2 kmax2 g
  /\ count_grid st = indicator_grid N kmin2 kmax2 g
  /\ kmean st
     = hits (fun ind => sqrt (norm2 (get_fourier_wavevector_from_index N g ind)))
  /\ pofk_sum st = hits (fun ind => norm (get_fourier_from_index g ind))
  /\ nk st = hits (fun _ => 1).
Proof.
  cbv zeta. unfold get_fourier_range.
  destruct (shell_loop_prefix kmin2 kmax2 g (length (cdelta g)))
    as (Hg & Hc & Hgd & Hcd & Hkm & Hps & Hnk).
  set (st := fold_left _ _ _) in *.
  assert (Hlt : forall j (x : C), cdelta g !! j = Some x ->
                  (j <? length (cdelta g))%nat = true).
  { intros j x Hx. apply Nat.ltb_lt. now apply lookup_lt_Some in Hx. }
  split; [|split; [|split; [|split]]]; try assumption.
  - apply (grid_eq (masked_grid N kmin2 kmax2 g) (grid st)).
    + destruct Hg as (?&?&?). repeat split; assumption.
    + rewrite Hgd. unfold masked_grid. cbn [cdelta].
      apply imap_ext. intros j x Hx. rewrite (Hlt j x Hx).
      now destruct (inside_shell N kmin2 kmax2 g j).
  - apply (grid_eq (indicator_grid N kmin2 kmax2 g) (count_grid st)).
    + destruct Hc as (?&?&?). repeat split; assumption.
    + rewrite Hcd. unfold indicator_grid. cbn [cdelta].
      apply imap_ext. intros j x Hx. now rewrite (Hlt j x Hx).
Qed.

(** X17. What a shell hands to the inverse transform: [F_k[i]] is the
    density with every amplitude outside the shell set to zero, [N_k[i]]
    holds 1 at the cells of the shell and 0 elsewhere, and the power of
    the shell is the mean of [|delta|^2] over its cells (all-reduced over
    the tasks), or 0 when the shell holds no cell. *)
Theorem shell_fields_are_masks (nbins : nat) (k : list R) (g : FFTWGrid)
    (i : nat) :
  let kmin2 := klow nbins k i * klow nbins k i in
  let kmax2 := khigh nbins k i * khigh nbins k i in
  let hits (f : nat -> R) :=
    sumR (fun ind => if inside_shell N kmin2 kmax2 g ind then f ind else 0)
      (get_fourier_range g) in
  let nk := MPI_Allreduce_SUM (o_nk others i) (hits (fun _ => 1)) in
  let S := shell fftw_c2r N others nbins k g i in
  fst (fst (fst S)) = fftw_c2r (masked_grid N kmin2 kmax2 g)
  /\ snd (fst (fst S)) = fftw_c2r (indicator_grid N kmin2 kmax2 g)
  /\ snd (fst S)
     = (if Reqb nk 0 then k_bin nbins k i
        else MPI_Allreduce_SUM (o_kmean others i)
               (hits (fun ind =>
                        sqrt (norm2 (get_fourier_wavevector_from_index N g ind))))
             / nk)
  /\ snd S
     = (if Reqb nk 0 then 0
        else MPI_Allreduce_SUM (o_pofk others i)
               (hits (fun ind => norm (get_fourier_from_index g ind)))
             / nk).
Proof.
  cbv zeta. unfold shell. cbv zeta.
  destruct (shell_loop (klow nbins k i * klow nbins k i)
              (khigh nbins k i * khigh nbins k i) g)
    as (Hg & Hc & Hkm & Hps & Hnk).
  cbv zeta in Hg, Hc, Hkm, Hps, Hnk.
  cbn [fst snd]. rewrite Hg, Hc, Hkm, Hps, Hnk. repeat split.
Qed.

(** *** The bispectrum *)

Lemma compute_bispectrum_returns (density_k : FFTWGrid)
    (bofk : Bi.BispectrumBinning) :
  (0 < Bi.n bofk)%nat -> (0 < Nmesh density_k)%nat ->
  exists res, compute_bispectrum fftw_c2r N others density_k bofk = inr res.
Proof.
  intros Hn Hm. unfold compute_bispectrum. cbv zeta.
  apply Nat.ltb_lt in Hn, Hm. rewrite Hn, Hm. cbn [assert_that bind].
  destruct (integrate_triples _ _ _ _ _ _ _ _). eexists. reflexivity.
Qed.

(** Every cell of the two tensors after the loop over the triples: what
    the turn of that cell wrote, or the initial zero. *)
Lemma integrate_triples_cells (nmesh nbins : nat) (k : list R)
    (F_k N_k : list (list R)) (pofk_bin : list R) (i : nat) :
  (i < nbins ^ 3)%nat ->
  let st := integrate_triples N others nmesh nbins k F_k N_k pofk_bin in
  let e := triple_entry N others nmesh nbins k F_k N_k pofk_bin i in
  fst st !! i = Some (default 0 (fst <$> e))
  /\ snd st !! i = Some (default 0 (snd <$> e)).
Proof.
  intros Hi st e. subst st. unfold integrate_triples.
  destruct (fold_pair_own_cell
              (triple_entry N others nmesh nbins k F_k N_k pofk_bin)
              (seq 0 (nbins ^ 3))
              (replicate (nbins ^ 3) 0, replicate (nbins ^ 3) 0))
    as [H1 H2].
  cbv zeta in H1, H2. unfold triple_step.
  rewrite H1, H2. cbn [fst snd]. rewrite !fold_own_cell.
  destruct (decide (i < nbins ^ 3)%nat); [|lia].
  rewrite lookup_replicate_2 by assumption.
  cbn [fmap option_fmap option_map]. subst e.
  split; f_equal;
    destruct (triple_entry N others nmesh nbins k F_k N_k pofk_bin i)
      as [[b c]|];
    reflexivity.
Qed.

(** The orders of a sorted triple. *)
Lemma permutation_of_sorted3 (s0 s1 s2 x y z : nat) :
  (s0 <= s1 <= s2)%nat -> [x; y; z] ≡ₚ [s0; s1; s2] ->
  (x, y, z) = (s0, s1, s2) \/ (x, y, z) = (s0, s2, s1)
  \/ (x, y, z) = (s1, s2, s0) \/ (x, y, z) = (s1, s0, s2)
  \/ (x, y, z) = (s2, s0, s1) \/ (x, y, z) = (s2, s1, s0).
Proof.
  intros Hs Hp.
  destruct (sort3 x y z) as (r0 & r1 & r2 & Hsort & H01 & H12 & Hperm).
  destruct (sort3 s0 s1 s2) as (t0 & t1 & t2 & Hsort' & T01 & T12 & Hperm').
  rewrite (sort_permutation _ _ Hp), Hsort' in Hsort.
  injection Hsort as E0 E1 E2.
  assert (Hr : r0 = s0 /\ r1 = s1 /\ r2 = s2).
  { destruct Hperm' as [H|[H|[H|[H|[H|H]]]]]; injection H as ? ? ?; lia. }
  destruct Hr as (-> & -> & ->). exact Hperm.
Qed.

(** X18. Every cell of the [B123] that [compute_bispectrum] stores holds
    the value that the loop over the triples computed for the sorted
    triple of its bins: for bins [s0 <= s1 <= s2], the cell of every
    permutation [(x, y, z)] of them holds what that loop wrote for the
    triple (the reduced bispectrum, or 0), so the stored tensor is
    permutation-symmetric.  The loop over the triples evaluates the cell
    [(s2, s1, s0)] and the symmetry loop copies it to the others. *)
Theorem bispectrum_cells_hold_class_value (density_k : FFTWGrid)
    (bofk res : Bi.BispectrumBinning) (s0 s1 s2 x y z : nat) :
  compute_bispectrum fftw_c2r N others density_k bofk = inr res ->
  (s0 <= s1 <= s2)%nat -> (s2 < Bi.n bofk)%nat ->
  [x; y; z] ≡ₚ [s0; s1; s2] ->
  let nbins := Bi.n bofk in
  let shells :=
    map (shell fftw_c2r N others nbins (Bi.k bofk) density_k) (seq 0 nbins) in
  let F_k := map (fun s => fst (fst (fst s))) shells in
  let N_k := map (fun s => snd (fst (fst s))) shells in
  let pofk_bin := map snd shells in
  nth (cell3 nbins x y z) (Bi.B123 res) 0
  = default 0
      (fst <$> triple_entry N others (Nmesh density_k) nbins (Bi.k bofk)
                 F_k N_k pofk_bin (cell3 nbins s2 s1 s0)).
Proof.
  intros Hres Hs Hsn Hp. cbv zeta.
  unfold compute_bispectrum in Hres. cbv zeta in Hres.
  destruct (0 <? Bi.n bofk)%nat; [|discriminate].
  destruct (0 <? Nmesh density_k)%nat; [|discriminate].
  cbn [assert_that bind] in Hres.
  set (nbins := Bi.n bofk) in *.
  set (shells := map _ (seq 0 nbins)) in *.
  set (F_k := map (fun s => fst (fst (fst s))) shells) in *.
  set (N_k := map (fun s => snd (fst (fst s))) shells) in *.
  set (pk := map snd shells) in *.
  pose proof (integrate_triples_skipped N others (Nmesh density_k) nbins
                (Bi.k bofk) F_k N_k pk) as [Hlen Hzero].
  pose proof (integrate_triples_cells (Nmesh density_k) nbins (Bi.k bofk)
                F_k N_k pk (cell3 nbins s2 s1 s0)
                (cell3_lt nbins s2 s1 s0 ltac:(lia) ltac:(lia) ltac:(lia)))
    as [Hb _].
  cbv zeta in Hlen, Hzero, Hb.
  destruct (integrate_triples _ _ _ _ _ _ _ _) as [B0 N0].
  cbn [fst snd] in *. injection Hres as <-. cbn [Bi.B123].
  rewrite (bispectrum_symmetry_fill_class nbins B0 s0 s1 s2 Hlen Hzero Hs Hsn).
  - now apply nth_lookup_Some.
  - apply In_permuted_cells. now apply permutation_of_sorted3.
Qed.

(** After the loop over the triples, the counts of the triples that it
    skipped still hold zero. *)
Lemma integrate_triples_counts_skipped (nmesh nbins : nat) (k : list R)
    (F_k N_k : list (list R)) (pofk_bin : list R) :
  let N0 := snd (integrate_triples N others nmesh nbins k F_k N_k pofk_bin) in
  forall x y z, (x < nbins)%nat -> (y < nbins)%nat -> (z < nbins)%nat ->
    ~ (z <= y <= x)%nat -> nth (cell3 nbins x y z) N0 0 = 0.
Proof.
  cbv zeta. unfold integrate_triples.
  destruct (fold_pair_own_cell
              (triple_entry N others nmesh nbins k F_k N_k pofk_bin)
              (seq 0 (nbins ^ 3))
              (replicate (nbins ^ 3) 0, replicate (nbins ^ 3) 0)) as [_ H2].
  cbv zeta in H2. unfold triple_step. rewrite H2. cbn [snd].
  intros x y z Hx Hy Hz Hnot.
  rewrite nth_lookup, fold_own_cell.
  pose proof (cell3_lt nbins x y z Hx Hy Hz) as Hc.
  destruct (decide (cell3 nbins x y z < nbins ^ 3)%nat); [|lia].
  rewrite lookup_replicate_2 by assumption.
  unfold triple_entry. cbv zeta.
  rewrite lsd_digits_cell3 by assumption. cbn [nth].
  assert (Hskip : ((y <? z)%nat || (x <? y)%nat) = true).
  { apply orb_true_iff.
    destruct (Nat.ltb_spec y z); [now left|].
    destruct (Nat.ltb_spec x y); [now right | lia]. }
  rewrite Hskip. reflexivity.
Qed.

(** X19. The counts are not symmetrised: [N123] is written by the loop
    over the triples only, so it holds 0 at the cell of every triple
    [(i1, i2, i3)] that is not ordered as [i1 >= i2 >= i3], also where the
    symmetry loop has filled [B123]. *)
Theorem bispectrum_counts_only_where_computed (density_k : FFTWGrid)
    (bofk res : Bi.BispectrumBinning) (x y z : nat) :
  compute_bispectrum fftw_c2r N others density_k bofk = inr res ->
  (x < Bi.n bofk)%nat -> (y < Bi.n bofk)%nat -> (z < Bi.n bofk)%nat ->
  ~ (z <= y <= x)%nat ->
  nth (cell3 (Bi.n bofk) x y z) (Bi.N123 res) 0 = 0.
Proof.
  intros Hres Hx Hy Hz Hnot. unfold compute_bispectrum in Hres.
  cbv zeta in Hres.
  destruct (0 <? Bi.n bofk)%nat; [|discriminate].
  destruct (0 <? Nmesh density_k)%nat; [|discriminate].
  cbn [assert_that bind] in Hres.
  set (nbins := Bi.n bofk) in *.
  set (shells := map _ (seq 0 nbins)) in *.
  pose proof (integrate_triples_counts_skipped (Nmesh density_k) nbins
                (Bi.k bofk)
                (map (fun s => fst (fst (fst s))) shells)
                (map (fun s => snd (fst (fst s))) shells)
                (map snd shells)) as Hzero.
  cbv zeta in Hzero.
  destruct (integrate_triples _ _ _ _ _ _ _ _) as [B0 N0].
  cbn [snd] in Hzero. injection Hres as <-. cbn [Bi.N123].
  now apply Hzero.
Qed.

(** X28. Triples that cannot close a triangle are zero in every order:
    when the shell centres of bins [s0 <= s1 <= s2] have
    [k_bin[s0] + k_bin[s1] < k_bin[s2] - 3 deltak / 2], the cells of all
    the permutations of the triple hold 0 in [B123] and in [N123]. *)
Theorem bispectrum_zero_for_open_triangles (density_k : FFTWGrid)
    (bofk res : Bi.BispectrumBinning) (s0 s1 s2 x y z : nat) :
  compute_bispectrum fftw_c2r N others density_k bofk = inr res ->
  (s0 <= s1 <= s2)%nat -> (s2 < Bi.n bofk)%nat ->
  k_bin (Bi.n bofk) (Bi.k bofk) s0 + k_bin (Bi.n bofk) (Bi.k bofk) s1
  < k_bin (Bi.n bofk) (Bi.k bofk) s2
    - 3 * (nth 1 (Bi.k bofk) 0 - nth 0 (Bi.k bofk) 0) / 2 ->
  [x; y; z] ≡ₚ [s0; s1; s2] ->
  nth (cell3 (Bi.n bofk) x y z) (Bi.B123 res) 0 = 0
  /\ nth (cell3 (Bi.n bofk) x y z) (Bi.N123 res) 0 = 0.
Proof.
  intros Hres Hs Hsn Hopen Hp.
  assert (Hxyz : (x < Bi.n bofk)%nat /\ (y < Bi.n bofk)%nat
                 /\ (z < Bi.n bofk)%nat).
  { assert (Hall : Forall (fun a => (a < Bi.n bofk)%nat) [x; y; z]).
    { rewrite Hp. repeat constructor; lia. }
    inversion Hall as [|? ? ? Hall1]; subst.
    inversion Hall1 as [|? ? ? Hall2]; subst.
    inversion Hall2; subst. auto. }
  destruct Hxyz as (Hx & Hy & Hz).
  pose proof (permutation_of_sorted3 s0 s1 s2 x y z Hs Hp) as Hcases.
  unfold compute_bispectrum in Hres. cbv zeta in Hres.
  destruct (0 <? Bi.n bofk)%nat; [|discriminate].
  destruct (0 <? Nmesh density_k)%nat; [|discriminate].
  cbn [assert_that bind] in Hres.
  set (nbins := Bi.n bofk) in *.
  set (shells := map _ (seq 0 nbins)) in *.
  set (F_k := map (fun s => fst (fst (fst s))) shells) in *.
  set (N_k := map (fun s => snd (fst (fst s))) shells) in *.
  set (pk := map snd shells) in *.
  pose proof (integrate_triples_skipped N others (Nmesh density_k) nbins
                (Bi.k bofk) F_k N_k pk) as [Hlen Hzero].
  pose proof (integrate_triples_counts_skipped (Nmesh density_k) nbins
                (Bi.k bofk) F_k N_k pk) as Hnzero.
  pose proof (integrate_triples_cells (Nmesh density_k) nbins (Bi.k bofk)
                F_k N_k pk (cell3 nbins s2 s1 s0)
                (cell3_lt nbins s2 s1 s0 ltac:(lia) ltac:(lia) ltac:(lia)))
    as [Hb Hn].
  cbv zeta in Hlen, Hzero, Hnzero, Hb, Hn.
  assert (He : triple_entry N others (Nmesh density_k) nbins (Bi.k bofk)
                 F_k N_k pk (cell3 nbins s2 s1 s0) = Some (0, 0)).
  { unfold triple_entry. cbv zeta.
    rewrite lsd_digits_cell3 by lia. cbn [nth].
    replace ((s1 <? s0)%nat || (s2 <? s1)%nat) with false.
    - now rewrite (Rltb_true _ _ Hopen).
    - symmetry. apply orb_false_iff. split; apply Nat.ltb_ge; lia. }
  rewrite He in Hb, Hn.
  cbn [fmap option_fmap option_map default from_option] in Hb, Hn.
  unfold Datatypes.id in Hb, Hn.
  change (fst (0, 0)) with 0 in Hb. change (snd (0, 0)) with 0 in Hn.
  destruct (integrate_triples _ _ _ _ _ _ _ _) as [B0 N0].
  cbn [fst snd] in *. injection Hres as <-. cbn [Bi.B123 Bi.N123].
  split.
  - rewrite (bispectrum_symmetry_fill_class nbins B0 s0 s1 s2 Hlen Hzero
               Hs Hsn).
    + now apply nth_lookup_Some.
    + now apply In_permuted_cells.
  - destruct (decide (z <= y <= x)%nat) as [Hord|Hord].
    + assert (Hsame : x = s2 /\ y = s1 /\ z = s0).
      { destruct Hcases as [H|[H|[H|[H|[H|H]]]]]; injection H as ? ? ?; lia. }
      destruct Hsame as (-> & -> & ->). now apply nth_lookup_Some.
    + now apply Hnzero.
Qed.

End ShellLoop.

(** *** The statements above on concrete inputs *)

Lemma shells_partition_the_range_witness :
  (forall i j, (i < 2)%nat -> (j < 2)%nat ->
     in_shell 2 Inputs.k2 i (4 * (PI * PI)) = true ->
     in_shell 2 Inputs.k2 j (4 * (PI * PI)) = true -> i = j)
  /\ ((exists i, (i < 2)%nat /\ in_shell 2 Inputs.k2 i (4 * (PI * PI)) = true)
      <-> nth 0 Inputs.k2 0 * nth 0 Inputs.k2 0 <= 4 * (PI * PI)
          < nth (2 - 1) Inputs.k2 0 * nth (2 - 1) Inputs.k2 0).
Proof.
  apply (shells_partition_the_range 2 Inputs.k2 (4 * (PI * PI))).
  - lia.
  - pose proof PI_RGT_0. unfold increasing_bins, Inputs.k2. split.
    + cbn [nth]. lra.
    + intros [|a] Ha; [cbn [nth Nat.add]; lra | lia].
Defined.

Lemma bispectrum_cells_hold_class_value_witness :
  exists res v,
    Polyspectrum.compute_bispectrum Inputs.fftw_c2r_2x2 2 Inputs.no_others
      Inputs.grid_ones Inputs2.bofk2 = inr res
    /\ nth (Polyspectrum.cell3 2 0 1 1) (Polyspectrum.Bi.B123 res) 0 = v
    /\ nth (Polyspectrum.cell3 2 1 0 1) (Polyspectrum.Bi.B123 res) 0 = v.
Proof.
  destruct (compute_bispectrum_returns Inputs.fftw_c2r_2x2 2 Inputs.no_others
              Inputs.grid_ones Inputs2.bofk2) as [res Hres].
  - cbn. lia.
  - cbn. lia.
  - exists res. eexists. split; [exact Hres|]. split.
    + apply (bispectrum_cells_hold_class_value Inputs.fftw_c2r_2x2 2
               Inputs.no_others Inputs.grid_ones Inputs2.bofk2 res 0 1 1
               0 1 1 Hres); [lia | cbn; lia | reflexivity].
    + apply (bispectrum_cells_hold_class_value Inputs.fftw_c2r_2x2 2
               Inputs.no_others Inputs.grid_ones Inputs2.bofk2 res 0 1 1
               1 0 1 Hres); [lia | cbn; lia | apply perm_swap].
Defined.

Lemma bispectrum_counts_only_where_computed_witness :
  exists res,
    Polyspectrum.compute_bispectrum Inputs.fftw_c2r_2x2 2 Inputs.no_others
      Inputs.grid_ones Inputs2.bofk2 = inr res
    /\ nth (Polyspectrum.cell3 2 0 1 1) (Polyspectrum.Bi.N123 res) 0 = 0.
Proof.
  destruct (compute_bispectrum_returns Inputs.fftw_c2r_2x2 2 Inputs.no_others
              Inputs.grid_ones Inputs2.bofk2) as [res Hres].
  - cbn. lia.
  - cbn. lia.
  - exists res. split; [exact Hres|].
    apply (bispectrum_counts_only_where_computed Inputs.fftw_c2r_2x2 2
             Inputs.no_others Inputs.grid_ones Inputs2.bofk2 res 0 1 1
             Hres); cbn [Polyspectrum.Bi.n Inputs2.bofk2]; lia.
Defined.

Lemma bispectrum_zero_for_open_triangles_witness :
  exists res,
    Polyspectrum.compute_bispectrum Inputs.fftw_c2r_2x2 2 Inputs.no_others
      Inputs.grid_ones Inputs2.bofk3 = inr res
    /\ nth (Polyspectrum.cell3 3 0 2 0) (Polyspectrum.Bi.B123 res) 0 = 0
    /\ nth (Polyspectrum.cell3 3 0 2 0) (Polyspectrum.Bi.N123 res) 0 = 0.
Proof.
  destruct (compute_bispectrum_returns Inputs.fftw_c2r_2x2 2 Inputs.no_others
              Inputs.grid_ones Inputs2.bofk3) as [res Hres].
  - cbn. lia.
  - cbn. lia.
  - exists res. split; [exact Hres|].
    apply (bispectrum_zero_for_open_triangles Inputs.fftw_c2r_2x2 2
             Inputs.no_others Inputs.grid_ones Inputs2.bofk3 res 0 0 2 0 2 0
             Hres).
    + lia.
    + cbn. lia.
    + unfold Polyspectrum.k_bin, Polyspectrum.klow.
      cbn [Inputs2.bofk3 Polyspectrum.Bi.n Polyspectrum.Bi.k Nat.eqb Nat.sub].
      unfold Polyspectrum.khigh.
      cbn [Nat.eqb Nat.ltb Nat.leb Nat.sub Nat.add nth].
      lra.
    + apply perm_skip, perm_swap.
Defined.

(** ** What [compute_polyspectrum] returns *)
Section PolyspectrumResult.
Import Polyspectrum.

Variable fftw_c2r : FFTWGrid -> list R.
Variable N : nat.
Variable order : nat.
Variable others : contributions.

Lemma integrate_tuples_length (nmesh nbins : nat) (k : list R)
    (F_k N_k : list (list R)) :
  let st := integrate_tuples N order others nmesh nbins k F_k N_k in
  length (fst st) = (nbins ^ order)%nat /\ length (snd st) = (nbins ^ order)%nat.
Proof.
  cbv zeta. unfold integrate_tuples.
  destruct (fold_pair_own_cell
              (tuple_entry N order others nmesh nbins k F_k N_k)
              (seq 0 (nbins ^ order))
              (replicate (nbins ^ order) 0, replicate (nbins ^ order) 0))
    as [H1 H2].
  cbv zeta in H1, H2. unfold tuple_step. rewrite H1, H2. cbn [fst snd].
  now rewrite !fold_own_cell_length, length_replicate.
Qed.

(** X20. What a call of [compute_polyspectrum] that returns has stored:
    [n] and [k] are those of the binning it was given, [P123] and [N123]
    have [n^order] entries, [kbin] holds the [n] shell centres and [pofk]
    has [n] entries; no entry of [N123] is negative, and [P123] is zero
    wherever [N123] is zero. *)
Theorem compute_polyspectrum_result (density_k : FFTWGrid)
    (polyofk res : Poly.PolyspectrumBinning) :
  compute_polyspectrum fftw_c2r N order others density_k polyofk = inr res ->
  Poly.n res = Poly.n polyofk /\ Poly.k res = Poly.k polyofk
  /\ length (Poly.P123 res) = (Poly.n polyofk ^ order)%nat
  /\ length (Poly.N123 res) = (Poly.n polyofk ^ order)%nat
  /\ Poly.kbin res
     = map (k_bin (Poly.n polyofk) (Poly.k polyofk)) (seq 0 (Poly.n polyofk))
  /\ length (Poly.pofk res) = Poly.n polyofk
  /\ forall i x,
       Poly.N123 res !! i = Some x ->
       0 <= x /\ (x = 0 -> Poly.P123 res !! i = Some 0).
Proof.
  unfold compute_polyspectrum. cbv zeta.
  destruct (0 <? Poly.n polyofk)%nat; [|discriminate].
  destruct (0 <? Nmesh density_k)%nat; [|discriminate].
  destruct (1 <? order)%nat; [|discriminate].
  cbn [assert_that bind]. rewrite symmetry_fill_noop.
  set (nbins := Poly.n polyofk).
  set (shells := map _ (seq 0 nbins)).
  set (F_k := map (fun s => fst (fst (fst s))) shells).
  set (N_k := map (fun s => snd (fst (fst s))) shells).
  pose proof (integrate_tuples_length (Nmesh density_k) nbins (Poly.k polyofk)
                F_k N_k) as [HlP HlN].
  pose proof (integrate_tuples_cells N order others (Nmesh density_k) nbins
                (Poly.k polyofk) F_k N_k) as Hcells.
  cbv zeta in HlP, HlN, Hcells.
  destruct (integrate_tuples _ _ _ _ _ _ _ _) as [P Nn].
  cbn [fst snd] in *. intros [= <-]. cbn [Poly.n Poly.k Poly.P123 Poly.N123
                                          Poly.kbin Poly.pofk].
  split; [reflexivity|]. split; [reflexivity|].
  split; [exact HlP|]. split; [exact HlN|]. split; [reflexivity|].
  split; [subst shells; now rewrite !length_map, length_seq|].
  intros i x H. split.
  - assert (Hi : (i < nbins ^ order)%nat)
      by (rewrite <- HlN; now apply lookup_lt_Some in H).
    destruct (Hcells i Hi) as [_ H2]. rewrite H2 in H. injection H as <-.
    unfold tuple_entry. cbv zeta.
    destruct (negb _); [cbn; lra|].
    destruct (Rltb (sumR _ _) _); [cbn; lra|].
    cbn [fmap option_fmap option_map snd default from_option].
    unfold Datatypes.id.
    match goal with |- 0 <= (if Rltb 0 ?x then _ else _) =>
      unfold Rltb; destruct (Rlt_dec 0 x); lra end.
  - intros Hx0.
    assert (Hi : (i < nbins ^ order)%nat)
      by (rewrite <- HlN; now apply lookup_lt_Some in H).
    destruct (Hcells i Hi) as [H1 H2]. rewrite H2 in H. rewrite H1.
    injection H as Hx. f_equal. revert Hx.
    unfold tuple_entry. cbv zeta.
    destruct (negb _); [reflexivity|].
    destruct (Rltb (sumR _ _) _); [reflexivity|].
    cbn [fmap option_fmap option_map fst snd default from_option].
    unfold Datatypes.id.
    match goal with |- (if Rltb 0 ?y then _ else _) = _ -> _ =>
      unfold Rltb; destruct (Rlt_dec 0 y); [lra | reflexivity] end.
Qed.

(** *** The test on the sum of the sides *)

Lemma k_bin_mono (nbins : nat) (k : list R) (i j : nat) :
  (2 <= nbins)%nat -> increasing_bins nbins k ->
  (i <= j)%nat -> (j < nbins)%nat -> k_bin nbins k i <= k_bin nbins k j.
Proof.
  intros Hn Hinc Hij Hj. unfold k_bin.
  pose proof (khigh_mono nbins k i j Hn Hinc Hij Hj) as Hh.
  assert (Hl : klow nbins k i <= klow nbins k j).
  { destruct i as [|i].
    - pose proof (klow_lower nbins k j Hn Hinc Hj) as H.
      unfold klow at 1. cbn [Nat.eqb]. exact H.
    - destruct j as [|j]; [lia|]. rewrite !klow_succ.
      apply khigh_mono; (assumption || lia). }
  lra.
Qed.

Lemma k_bin_nonneg (nbins : nat) (k : list R) (i : nat) :
  (2 <= nbins)%nat -> increasing_bins nbins k -> (i < nbins)%nat ->
  0 <= k_bin nbins k i.
Proof.
  intros Hn Hinc Hi. unfold k_bin.
  pose proof (klow_lower nbins k i Hn Hinc Hi).
  pose proof (klow_lt_khigh nbins k i Hn Hinc Hi).
  destruct Hinc as [Hk0 _]. lra.
Qed.

Lemma sumR_ge_member {A} (f : A -> R) (l : list A) (a : A) :
  (forall b, In b l -> 0 <= f b) -> In a l -> f a <= sumR f l.
Proof.
  induction l as [|b l IH]; intros H Ha; [contradiction|].
  rewrite sumR_cons.
  pose proof (H b (in_eq b l)) as Hb.
  pose proof (sumR_nonneg f l (fun c Hc => H c (in_cons b c l Hc))) as Hl.
  destruct Ha as [-> | Ha]; [lra|].
  pose proof (IH (fun c Hc => H c (in_cons b c l Hc)) Ha). lra.
Qed.

Lemma lsd_digits_bound (nbins count i n : nat) :
  (0 < nbins)%nat ->
  Forall (fun d => (d < nbins)%nat) (lsd_digits nbins count i n).
Proof.
  intros Hn. revert n. induction count as [|c IH]; intros n;
    cbn [lsd_digits]; constructor.
  - apply Nat.mod_upper_bound. lia.
  - apply IH.
Qed.

Lemma lsd_digits_length (nbins count i n : nat) :
  length (lsd_digits nbins count i n) = count.
Proof.
  revert n. induction count as [|c IH]; intros n; cbn [lsd_digits length];
    [reflexivity | now rewrite IH].
Qed.

(** In a tuple that passed the validity test the last entry is the
    smallest. *)
Lemma valid_tuple_last (ik : list nat) (d : nat) :
  valid_tuple ik = true -> forall a, In a ik -> (List.last ik d <= a)%nat.
Proof.
  induction ik as [|x [|y rest] IH]; intros Hv a Ha.
  - contradiction.
  - destruct Ha as [-> | []]. cbn. lia.
  - cbn [valid_tuple] in Hv. apply andb_true_iff in Hv as [Hxy Hrest].
    apply negb_true_iff, Nat.ltb_ge in Hxy.
    change (List.last (x :: y :: rest) d) with (List.last (y :: rest) d).
    destruct Ha as [-> | Ha].
    + pose proof (IH Hrest y (in_eq y rest)). lia.
    + now apply IH.
Qed.

(** X21. The shortcut "no valid polygon" of [compute_polyspectrum] never
    applies: for bin positions that start at a non-negative [k] and
    increase, every tuple that passes the validity test is evaluated, and
    its cell receives [F/N] and [N] (or 0 and 0 when [N] is not
    positive).  The tuples that pass that test are non-increasing, so the
    sum over the first [order - 1] sides is never below the last side. *)
Theorem polyspectrum_evaluates_every_valid_tuple (nmesh nbins : nat)
    (k : list R) (F_k N_k : list (list R)) (i : nat) :
  (2 <= nbins)%nat -> (2 <= order)%nat -> increasing_bins nbins k ->
  valid_tuple (tuple_of_cell nbins order i) = true ->
  let ik := tuple_of_cell nbins order i in
  let Fn := MPI_Allreduce_SUM (o_F123 others i) (tuple_sum F_k ik)
            * volume_factor N nmesh in
  let Nn := MPI_Allreduce_SUM (o_N123 others i) (tuple_sum N_k ik)
            * volume_factor N nmesh in
  tuple_entry N order others nmesh nbins k F_k N_k i
  = Some (if Rltb 0 Nn then Fn / Nn else 0, if Rltb 0 Nn then Nn else 0).
Proof.
  intros Hn Ho Hinc Hv. cbv zeta. unfold tuple_entry. cbv zeta.
  fold (tuple_of_cell nbins order i). rewrite Hv. cbn [negb].
  set (ik := tuple_of_cell nbins order i) in *.
  assert (Hlen : length ik = order).
  { unfold ik, tuple_of_cell. now rewrite length_rev, lsd_digits_length. }
  assert (Hbound : Forall (fun d => (d < nbins)%nat) ik).
  { unfold ik, tuple_of_cell. apply Forall_rev, lsd_digits_bound. lia. }
  assert (Hne : ik <> []) by (intros E; rewrite E in Hlen; cbn in Hlen; lia).
  pose proof (app_removelast_last 0%nat Hne) as Hsplit.
  set (front := removelast ik) in *. set (z := List.last ik 0%nat) in *.
  assert (Hin : forall a, In a front -> In a ik).
  { intros a Ha. rewrite Hsplit. apply in_or_app. now left. }
  assert (Hfront : exists a, In a front).
  { destruct front as [|a front'].
    - rewrite Hsplit in Hlen. cbn in Hlen. lia.
    - exists a. now left. }
  destruct Hfront as [a Ha].
  rewrite List.Forall_forall in Hbound.
  assert (Hz : (z < nbins)%nat).
  { apply Hbound. rewrite Hsplit. apply in_or_app. right. now left. }
  assert (Hsum : k_bin nbins k z <= sumR (k_bin nbins k) front).
  { pose proof (valid_tuple_last ik 0%nat Hv a (Hin a Ha)) as Hza. fold z in Hza.
    pose proof (k_bin_mono nbins k z a Hn Hinc Hza (Hbound a (Hin a Ha))).
    pose proof (sumR_ge_member (k_bin nbins k) front a
                  (fun b Hb => k_bin_nonneg nbins k b Hn Hinc
                                 (Hbound b (Hin b Hb))) Ha).
    lra. }
  assert (Hdk : 0 < nth 1 k 0 - nth 0 k 0).
  { destruct Hinc as [_ Hinc]. pose proof (Hinc 0%nat ltac:(lia)) as H.
    cbn [Nat.add] in H. lra. }
  rewrite Rltb_false; [reflexivity|].
  pose proof (pos_INR order).
  assert (0 <= INR order * (nth 1 k 0 - nth 0 k 0) / 2) by nra.
  lra.
Qed.

End PolyspectrumResult.

(** *** The statements above on concrete inputs *)

Lemma compute_polyspectrum_result_witness :
  exists res,
    Polyspectrum.compute_polyspectrum Inputs.fftw_c2r_2x2 2 3 Inputs.no_others
      Inputs.grid_ones Inputs.polyofk2 = inr res
    /\ length (Polyspectrum.Poly.P123 res) = 8%nat.
Proof.
  destruct compute_polyspectrum_grid_ones as (kb & pk & Hres).
  eexists. split; [exact Hres|].
  exact (proj1 (proj2 (proj2
           (compute_polyspectrum_result Inputs.fftw_c2r_2x2 2 3
              Inputs.no_others Inputs.grid_ones Inputs.polyofk2 _ Hres)))).
Defined.

Lemma polyspectrum_evaluates_every_valid_tuple_witness :
  exists p c,
    Polyspectrum.tuple_entry 2 3 Inputs.no_others 2 2 Inputs.k2
      Inputs.shell_fields2 Inputs.shell_fields2 6 = Some (p, c).
Proof.
  eexists _, _.
  apply (polyspectrum_evaluates_every_valid_tuple 2 3 Inputs.no_others 2 2
           Inputs.k2 Inputs.shell_fields2 Inputs.shell_fields2 6).
  - lia.
  - lia.
  - pose proof PI_RGT_0. unfold increasing_bins, Inputs.k2. split.
    + cbn [nth]. lra.
    + intros [|a] Ha; [cbn [nth Nat.add]; lra | lia].
  - reflexivity.
Defined.

(** ** Gadget sections and the header *)
Section GadgetFacts.
Import Gadget.

Variable swap_endian : Z -> Z.

Lemma int_bytes_length (v : Z) : length (int_bytes v) = 4%nat.
Proof. apply length_le_split. Qed.

(** An [int] that is written and read back. *)
Lemma int_of_int_bytes (v : Z) :
  (- 2 ^ 31 <= v < 2 ^ 31)%Z -> int_of_bytes (int_bytes v) = v.
Proof.
  intros Hv. unfold int_of_bytes, int_bytes. cbv zeta.
  rewrite le_combine_split.
  change (Z.of_nat 4 * 8)%Z with 32%Z.
  destruct (Z.ltb_spec (v mod 2 ^ 32) (2 ^ 31)) as [Hlt|Hge].
  - destruct (Z.neg_nonneg_cases v) as [Hneg|Hpos].
    + assert (Hm : (v mod 2 ^ 32 = v + 2 ^ 32)%Z).
      { symmetry. apply (Z.mod_unique v (2 ^ 32) (-1) (v + 2 ^ 32)); lia. }
      lia.
    + apply Z.mod_small. lia.
  - destruct (Z.neg_nonneg_cases v) as [Hneg|Hpos].
    + assert (Hm : (v mod 2 ^ 32 = v + 2 ^ 32)%Z).
      { symmetry. apply (Z.mod_unique v (2 ^ 32) (-1) (v + 2 ^ 32)); lia. }
      lia.
    + rewrite Z.mod_small in Hge by lia. lia.
Qed.

Lemma read_prefix (s rest : list byte) (open : bool) :
  read (length s) (mkIfstream open (s ++ rest))
  = Returns (s, mkIfstream open rest).
Proof.
  unfold read. cbn [unread is_open].
  replace (length s <=? length (s ++ rest))%nat with true
    by (symmetry; apply Nat.leb_le; rewrite length_app; lia).
  now rewrite take_app_length, drop_app_length.
Qed.

Lemma read_int_prefix (v : Z) (rest : list byte) (open : bool) :
  (- 2 ^ 31 <= v < 2 ^ 31)%Z ->
  read_int swap_endian false (mkIfstream open (int_bytes v ++ rest))
  = Returns (v, mkIfstream open rest).
Proof.
  intros Hv. unfold read_int.
  rewrite <- (int_bytes_length v) at 1. rewrite read_prefix.
  cbn [and_then fst snd]. now rewrite int_of_int_bytes.
Qed.

Lemma to_size_t_int (v : Z) :
  (- 2 ^ 31 <= v < 2 ^ 31)%Z ->
  to_size_t v = (if (v <? 0)%Z then v + 2 ^ 64 else v)%Z.
Proof.
  intros Hv. unfold to_size_t. destruct (Z.ltb_spec v 0).
  - symmetry. apply (Z.mod_unique v (2 ^ 64) (-1) (v + 2 ^ 64)); lia.
  - apply Z.mod_small. lia.
Qed.

(** X22. A section that [write_section] has written is read back by
    [read_section]: for [0 <= bytes <= buffer.size()], the writer appends
    the length, the first [bytes] bytes of the buffer and the length
    again, and a reader that does not swap and is handed that section
    with an empty buffer returns those [bytes] bytes and leaves the
    stream at the first byte after the section. *)
Theorem section_roundtrip (w buffer rest : list byte) (bytes : Z) :
  (0 <= bytes < 2 ^ 31)%Z -> (bytes <= Z.of_nat (length buffer))%Z ->
  write_section (mkOfstream true w) buffer bytes
  = Returns (mkOfstream true (w ++ section_of buffer bytes))
  /\ read_section swap_endian false
       (mkIfstream true (section_of buffer bytes ++ rest)) []
     = Returns (mkIfstream true rest, take (Z.to_nat bytes) buffer).
Proof.
  intros Hb Hlen. split.
  - unfold write_section. cbn [out_is_open negb].
    rewrite to_size_t_int by lia.
    replace (bytes <? 0)%Z with false by (symmetry; apply Z.ltb_ge; lia).
    replace (Z.of_nat (length buffer) <? bytes)%Z with false
      by (symmetry; apply Z.ltb_ge; lia).
    unfold write, section_of. cbn [out_is_open written].
    now rewrite <- !app_assoc.
  - unfold read_section, section_of. cbn [is_open negb].
    rewrite <- app_assoc, read_int_prefix by lia.
    cbn [and_then fst snd length Nat.ltb Nat.leb].
    replace (bytes <? 0)%Z with false by (symmetry; apply Z.ltb_ge; lia).
    cbn [and_then].
    set (data := take (Z.to_nat bytes) buffer).
    assert (Hdata : length data = Z.to_nat bytes).
    { unfold data. rewrite length_take. lia. }
    rewrite <- app_assoc, <- Hdata, read_prefix.
    cbn [and_then fst snd].
    rewrite read_int_prefix by lia. cbn [and_then fst snd].
    rewrite Z.eqb_refl. cbn [negb]. do 2 f_equal.
    rewrite drop_ge by (rewrite length_replicate; lia).
    apply app_nil_r.
Qed.

(** X23. The checks of [write_section]: a stream that is not open, and a
    buffer shorter than [bytes], each throw; a negative [bytes] always
    throws "Buffersize too small", because the comparison is made after
    the conversion to [size_t]; and a call that throws has written
    nothing. *)
Theorem write_section_checks (fp : ofstream) (buffer : list byte)
    (bytes : Z) :
  (- 2 ^ 31 <= bytes < 2 ^ 31)%Z -> (Z.of_nat (length buffer) < 2 ^ 63)%Z ->
  (out_is_open fp = false ->
   write_section fp buffer bytes
   = Throws ("[GadgetWriter::write_section] File is not open" ++ nl))
  /\ (out_is_open fp = true ->
      (bytes < 0 \/ Z.of_nat (length buffer) < bytes)%Z ->
      write_section fp buffer bytes
      = Throws ("[GadgetWriter::write_section] Buffersize too small" ++ nl))
  /\ (out_is_open fp = true ->
      (0 <= bytes <= Z.of_nat (length buffer))%Z ->
      exists fp',
        write_section fp buffer bytes = Returns fp'
        /\ written fp' = written fp ++ section_of buffer bytes).
Proof.
  intros Hb Hlen. unfold write_section. rewrite to_size_t_int by assumption.
  split; [|split].
  - intros ->. reflexivity.
  - intros -> Hbad. cbn [negb].
    destruct (Z.ltb_spec bytes 0).
    + replace (Z.of_nat (length buffer) <? bytes + 2 ^ 64)%Z with true
        by (symmetry; apply Z.ltb_lt; lia).
      reflexivity.
    + replace (Z.of_nat (length buffer) <? bytes)%Z with true
        by (symmetry; apply Z.ltb_lt; lia).
      reflexivity.
  - intros -> Hok. cbn [negb].
    replace (bytes <? 0)%Z with false by (symmetry; apply Z.ltb_ge; lia).
    replace (Z.of_nat (length buffer) <? bytes)%Z with false
      by (symmetry; apply Z.ltb_ge; lia).
    eexists. split; [reflexivity|].
    unfold write, section_of. cbn [written]. now rewrite <- !app_assoc.
Qed.

(** X24. The checks of [read_section] for a reader that does not swap: a
    stream that is not open throws; a section whose closing length
    differs from its opening length throws "BytesStart != ByteEnd"; a
    buffer that is not empty and is shorter than the opening length
    throws "Buffersize is too small" before any data is read; and with an
    empty buffer a negative opening length ends in the [length_error] of
    the allocation. *)
Theorem read_section_checks (fp : ifstream) (buffer data rest : list byte)
    (a b : Z) :
  (is_open fp = false ->
   read_section swap_endian false fp buffer
   = Throws ("[GadgetReader::read_section] File is not open" ++ nl))
  /\ ((0 <= a < 2 ^ 31)%Z -> (- 2 ^ 31 <= b < 2 ^ 31)%Z ->
      length data = Z.to_nat a -> a <> b ->
      read_section swap_endian false
        (mkIfstream true (int_bytes a ++ data ++ int_bytes b ++ rest)) []
      = Throws ("[GadgetReader::read_section] Error in file BytesStart != ByteEnd!" ++ nl))
  /\ ((0 <= a < 2 ^ 31)%Z -> (0 < length buffer)%nat ->
      (Z.of_nat (length buffer) < a)%Z ->
      read_section swap_endian false
        (mkIfstream true (int_bytes a ++ rest)) buffer
      = Throws ("[GadgetReader::read_section] Buffersize is too small" ++ nl))
  /\ ((- 2 ^ 31 <= a < 0)%Z ->
      read_section swap_endian false
        (mkIfstream true (int_bytes a ++ rest)) []
      = LengthError).
Proof.
  unfold read_section. split; [|split; [|split]].
  - intros ->. reflexivity.
  - intros Ha Hb Hdata Hab. cbn [is_open negb].
    rewrite read_int_prefix by lia.
    cbn [and_then fst snd length Nat.ltb Nat.leb].
    replace (a <? 0)%Z with false by (symmetry; apply Z.ltb_ge; lia).
    cbn [and_then]. rewrite <- Hdata, read_prefix. cbn [and_then fst snd].
    rewrite read_int_prefix by lia. cbn [and_then fst snd].
    replace (a =? b)%Z with false by (symmetry; now apply Z.eqb_neq).
    reflexivity.
  - intros Ha Hpos Hsmall. cbn [is_open negb].
    rewrite read_int_prefix by lia. cbn [and_then fst snd].
    replace (0 <? length buffer)%nat with true
      by (symmetry; now apply Nat.ltb_lt).
    rewrite to_size_t_int by lia.
    replace (a <? 0)%Z with false by (symmetry; apply Z.ltb_ge; lia).
    replace (Z.of_nat (length buffer) <? a)%Z with true
      by (symmetry; apply Z.ltb_lt; lia).
    reflexivity.
  - intros Ha. cbn [is_open negb].
    rewrite read_int_prefix by lia.
    cbn [and_then fst snd length Nat.ltb Nat.leb].
    replace (a <? 0)%Z with true by (symmetry; apply Z.ltb_lt; lia).
    reflexivity.
Qed.

Section Header.

Variable MplMpl_over_H0Msunh : R.
Variable HubbleLengthInMpch : R.
Variable sizeof_header : Z.
Variable header_bytes : GadgetHeader -> list byte.

(** X25. The total number of particles survives the split into two
    32-bit words: for every [TotNumPart] of [size_t], the header that
    [write_header] fills prints, in [print_header_info], the total
    [(high << 32) + low] equal to [TotNumPart]; the call returns on an
    open stream. *)
Theorem written_total_is_printed (header : GadgetHeader) (fp : ofstream)
    (NumPart TotNumPart NumberOfFilesToWrite : Z)
    (aexp Boxsize OmegaM OmegaL Hubble : R) :
  (0 <= TotNumPart < 2 ^ 64)%Z ->
  length (npartTotal header) = 6%nat ->
  length (npartTotalHighWord header) = 6%nat ->
  out_is_open fp = true ->
  exists header' fp',
    write_header MplMpl_over_H0Msunh HubbleLengthInMpch sizeof_header
      header_bytes header fp NumPart TotNumPart NumberOfFilesToWrite
      aexp Boxsize OmegaM OmegaL Hubble
    = Returns (header', fp')
    /\ printed_npartTotal header' = TotNumPart.
Proof.
  intros HT Hl Hh Hopen. unfold write_header. rewrite Hopen. cbn [negb].
  eexists _, _. split; [reflexivity|].
  unfold printed_npartTotal, filled_header.
  cbn [npartTotal npartTotalHighWord].
  assert (Hnth : forall (l : list Z) (v : Z), length l = 6%nat ->
                   nth 1 (<[1%nat := v]> l) 0%Z = v).
  { intros l v Hlen. apply nth_lookup_Some, list_lookup_insert_eq. lia. }
  rewrite !Hnth by assumption.
  unfold to_size_t, to_unsigned_int.
  rewrite Z.shiftr_div_pow2, Z.shiftl_mul_pow2 by lia.
  assert (Hq : (0 <= TotNumPart / 2 ^ 32 < 2 ^ 32)%Z).
  { split; [apply Z.div_pos; lia|].
    apply Z.div_lt_upper_bound; lia. }
  pose proof (Z.mod_pos_bound TotNumPart (2 ^ 32) ltac:(lia)) as Hr.
  rewrite (Z.mod_small (TotNumPart / 2 ^ 32) (2 ^ 32)) by lia.
  rewrite (Z.mod_small (TotNumPart / 2 ^ 32) (2 ^ 64)) by lia.
  rewrite (Z.mod_small (TotNumPart / 2 ^ 32 * 2 ^ 32) (2 ^ 64)) by lia.
  rewrite Z.mod_small by lia.
  pose proof (Z.div_mod TotNumPart (2 ^ 32) ltac:(lia)). lia.
Qed.

End Header.

End GadgetFacts.

(** *** The statements above on concrete inputs *)

Lemma section_roundtrip_witness :
  Gadget.read_section (fun v => v) false
    (Gadget.mkIfstream true
       (section_of [Byte.x01; Byte.x02; Byte.x03] 2 ++ [Byte.xff])) []
  = Gadget.Returns (Gadget.mkIfstream true [Byte.xff], [Byte.x01; Byte.x02]).
Proof.
  apply (proj2 (section_roundtrip (fun v => v) []
                  [Byte.x01; Byte.x02; Byte.x03] [Byte.xff] 2
                  ltac:(lia) ltac:(cbn; lia))).
Defined.

Lemma write_section_checks_witness :
  Gadget.write_section (Gadget.mkOfstream true [])
    [Byte.x01; Byte.x02; Byte.x03] (-1)
  = Gadget.Throws
      ("[GadgetWriter::write_section] Buffersize too small" ++ Gadget.nl).
Proof.
  apply (proj1 (proj2 (write_section_checks (Gadget.mkOfstream true [])
                         [Byte.x01; Byte.x02; Byte.x03] (-1)
                         ltac:(lia) ltac:(cbn; lia)))).
  - reflexivity.
  - left. lia.
Defined.

Lemma read_section_checks_witness :
  Gadget.read_section (fun v => v) false
    (Gadget.mkIfstream true
       (Gadget.int_bytes 1 ++ [Byte.x07] ++ Gadget.int_bytes 2 ++ [])) []
  = Gadget.Throws
      ("[GadgetReader::read_section] Error in file BytesStart != ByteEnd!"
         ++ Gadget.nl).
Proof.
  apply (proj1 (proj2 (read_section_checks (fun v => v)
                         (Gadget.mkIfstream true []) [] [Byte.x07] [] 1 2)));
    (lia || reflexivity).
Defined.

Lemma written_total_is_printed_witness :
  exists header' fp',
    Gadget.write_header 1 1 256 (fun _ => []) Inputs2.header0
      (Gadget.mkOfstream true []) 7 (2 ^ 33 + 5) 1 1 1 1 0 1
    = Gadget.Returns (header', fp')
    /\ Gadget.printed_npartTotal header' = (2 ^ 33 + 5)%Z.
Proof.
  apply (written_total_is_printed 1 1 256 (fun _ => []) Inputs2.header0
           (Gadget.mkOfstream true []) 7 (2 ^ 33 + 5) 1 1 1 1 0 1);
    (lia || reflexivity).
Defined.

(** ** More on the power-spectrum estimators *)
Section PowerSpectrumEffects.
Import PowerSpectrum.

Variable normalize : PowerSpectrumBinning -> PowerSpectrumBinning.
Variable FFTWGrid_new : nat -> nat -> nat -> FFTWGrid.
Variable ThisTask : nat.
Variable N : nat.


Lemma reset_same (p p' : PowerSpectrumBinning) :
  n p = n p' -> kmin p = kmin p' -> kmax p = kmax p' ->
  bin_of p = bin_of p' ->
  length (kbin p) = length (kbin p') ->
  length (pofk p) = length (pofk p') ->
  length (count p) = length (count p') ->
  reset p = reset p'.
Proof.
  assert (Hz : forall l l' : list R, length l = length l' ->
                 zeroed l = zeroed l').
  { intros l l' Hl. unfold zeroed. apply list_eq. intros i.
    rewrite !list_lookup_fmap.
    destruct (l !! i) as [x|] eqn:Hx, (l' !! i) as [y|] eqn:Hy;
      try reflexivity.
    - apply lookup_lt_Some in Hx. apply lookup_ge_None in Hy. lia.
    - apply lookup_lt_Some in Hy. apply lookup_ge_None in Hx. lia. }
  intros Hn Hmin Hmax Hb Hk Hp Hc. unfold reset.
  now rewrite Hn, Hmin, Hmax, Hb, (Hz _ _ Hk), (Hz _ _ Hp), (Hz _ _ Hc).
Qed.

(** X27. [bin_up_power_spectrum] starts from a clean binning: what it
    returns depends on the parameters of the binning ([n], [kmin],
    [kmax], the spacing) and on the sizes of its arrays, not on what the
    arrays held before the call. *)
Theorem bin_up_power_spectrum_forgets (g : FFTWGrid)
    (p p' : PowerSpectrumBinning) :
  n p = n p' -> kmin p = kmin p' -> kmax p = kmax p' ->
  bin_of p = bin_of p' ->
  length (kbin p) = length (kbin p') ->
  length (pofk p) = length (pofk p') ->
  length (count p) = length (count p') ->
  bin_up_power_spectrum normalize N g p
  = bin_up_power_spectrum normalize N g p'.
Proof.
  intros Hn Hmin Hmax Hb Hk Hp Hc.
  unfold bin_up_power_spectrum, bin_up_loop.
  now rewrite Hn, Hmin, Hmax, (reset_same p p' Hn Hmin Hmax Hb Hk Hp Hc).
Qed.

End PowerSpectrumEffects.

(** *** The statements above on concrete inputs *)


Lemma bin_up_power_spectrum_forgets_witness :
  PowerSpectrum.bin_up_power_spectrum Inputs.normalize0 2 Inputs.grid2
    Inputs.pofk2
  = PowerSpectrum.bin_up_power_spectrum Inputs.normalize0 2 Inputs.grid2
      (Binning.set_pofk Inputs.pofk2 [3; 4]).
Proof.
  apply (bin_up_power_spectrum_forgets Inputs.normalize0 2 Inputs.grid2
           Inputs.pofk2 (Binning.set_pofk Inputs.pofk2 [3; 4]));
    reflexivity.
Defined.
